(** * verless: file streaming (fs/fs.go) and project scaffolding (core/create.go)

    A shallow embedding of the two Go source files and of the part of the
    Go runtime they run on (strings, path/filepath, os), followed by the
    properties of the specification stated as theorems about it.

    Go strings are byte strings: [string] with [ascii] bytes, [len] is
    [String.length].  A Go [error] value is an [option error], [None]
    being [nil]. *)

From Stdlib Require Import Ascii.
From Stdlib Require String.
From stdpp Require Import base option list sorting strings gmap.

(** ** Package strings *)

Module strings.

(** [strings.HasPrefix(s, prefix)]. *)
Definition HasPrefix (s prefix : string) : bool := String.prefix prefix s.

(** [strings.Join(elems, sep)]. *)
Definition Join (elems : list string) (sep : string) : string :=
  String.concat sep elems.

End strings.

(** ** Go values: errors, file information, channels *)

(** Input/output failures that come from the environment rather than from
    the shape of the file tree (permissions, device errors). *)
Inductive Fault := EACCES | EPERM | EIO | EROFS | ENOSPC.

Inductive Errno :=
| ENOENT | ENOTDIR | EISDIR | ENOTEMPTY | EINVAL | EBUSY | ENXIO
| Failure (f : Fault).

(** The dynamic values of Go's [error] interface met in this program.
    [SkipDir] is the sentinel [filepath.SkipDir], compared by identity. *)
Inductive error :=
| PathError (op path : string) (errno : Errno)
| ErrorString (msg : string)
| SkipDir.

#[global] Instance Fault_eq_dec : EqDecision Fault.
Proof. solve_decision. Defined.
#[global] Instance Errno_eq_dec : EqDecision Errno.
Proof. solve_decision. Defined.
#[global] Instance error_eq_dec : EqDecision error.
Proof. solve_decision. Defined.

Module errors.
(** [errors.New]. *)
Definition New (msg : string) : error := ErrorString msg.
End errors.

(** [os.FileInfo]: the program only ever asks [IsDir()]. *)
Record FileInfo := { IsDir : bool }.

(** A channel of strings, by its identity, and what the program does to
    a channel. *)
Definition chan := nat.

Inductive ChanOp := Send (s : string) | Close.

#[global] Instance ChanOp_eq_dec : EqDecision ChanOp.
Proof. solve_decision. Defined.

(** ** The file system *)

(** A location is the list of names from the file system root [/] down to
    an entry. *)
Definition location := list string.

(** What the disk holds: regular files, with their bytes, directories,
    with their entries by name, and sockets, which are neither ([Lstat]
    and [Stat] report an entry that is not a directory and not a regular
    file, and opening one fails).  Symbolic links are not modelled. *)
#[warnings="-register-all"]
Inductive node :=
| File (content : list Byte.byte)
| Dir (entries : list (string * node))
| Socket.

(** Entries of a directory, by name. *)
Fixpoint entry_get {A} (name : string) (es : list (string * A)) : option A :=
  match es with
  | [] => None
  | (n, a) :: es' => if String.eqb n name then Some a else entry_get name es'
  end.

Fixpoint entry_set {A} (name : string) (a : A) (es : list (string * A))
  : list (string * A) :=
  match es with
  | [] => [(name, a)]
  | (n, b) :: es' =>
      if String.eqb n name then (n, a) :: es' else (n, b) :: entry_set name a es'
  end.

Fixpoint entry_del {A} (name : string) (es : list (string * A))
  : list (string * A) :=
  match es with
  | [] => []
  | (n, b) :: es' =>
      if String.eqb n name then entry_del name es' else (n, b) :: entry_del name es'
  end.

Inductive lookup_result := Found (n : node) | Missing | NotADirectory.

Fixpoint tree_lookup (l : location) (n : node) : lookup_result :=
  match l with
  | [] => Found n
  | name :: l' =>
      match n with
      | File _ | Socket => NotADirectory
      | Dir es =>
          match entry_get name es with
          | Some ch => tree_lookup l' ch
          | None => Missing
          end
      end
  end.

(** Removes the entry at [l] with everything below it. *)
Fixpoint tree_remove (l : location) (n : node) : node :=
  match l with
  | [] => n
  | name :: l' =>
      match n with
      | File _ | Socket => n
      | Dir es =>
          match l' with
          | [] => Dir (entry_del name es)
          | _ :: _ =>
              match entry_get name es with
              | Some ch => Dir (entry_set name (tree_remove l' ch) es)
              | None => n
              end
          end
      end
  end.

(** A fresh chain of directories [l]. *)
Fixpoint chain (l : location) : node :=
  match l with
  | [] => Dir []
  | name :: l' => Dir [(name, chain l')]
  end.

(** Creates the directory at [l] and the missing ones above it; [None]
    when an entry that is not a directory is in the way. *)
Fixpoint tree_mkdir_all (l : location) (n : node) : option node :=
  match n with
  | File _ | Socket => None
  | Dir es =>
      match l with
      | [] => Some n
      | name :: l' =>
          match entry_get name es with
          | Some ch =>
              match tree_mkdir_all l' ch with
              | Some ch' => Some (Dir (entry_set name ch' es))
              | None => None
              end
          | None => Some (Dir (entry_set name (chain l') es))
          end
      end
  end.

(** Creates or truncates the file at [l]; a socket cannot be opened. *)
Fixpoint tree_write (l : location) (data : list Byte.byte) (n : node)
  : node + Errno :=
  match l with
  | [] =>
      match n with
      | File _ => inl (File data)
      | Dir _ => inr EISDIR
      | Socket => inr ENXIO
      end
  | name :: l' =>
      match n with
      | File _ | Socket => inr ENOTDIR
      | Dir es =>
          match entry_get name es with
          | Some ch =>
              match tree_write l' data ch with
              | inl ch' => inl (Dir (entry_set name ch' es))
              | inr e => inr e
              end
          | None =>
              match l' with
              | [] => inl (Dir (entry_set name (File data) es))
              | _ :: _ => inr ENOENT
              end
          end
      end
  end.

(** Number of levels of a tree. *)
Fixpoint depth (n : node) : nat :=
  match n with
  | File _ | Socket => 1
  | Dir es =>
      S ((fix go (es : list (string * node)) : nat :=
            match es with
            | [] => 0
            | (_, ch) :: es' => Nat.max (depth ch) (go es')
            end) es)
  end.

(** ** The world of a run *)

(** Mutating calls made to the operating system, in program order. *)
Inductive Syscall :=
| SysRemoveAll (path : string)
| SysRemove (path : string)
| SysMkdirAll (path : string)
| SysWriteFile (path : string) (data : list Byte.byte).

(** Kinds of operating system requests on which the environment can
    inject a [Fault]. *)
Inductive Request := ReqStat | ReqReadDir | ReqRemove | ReqMkdir | ReqWrite.

(** The state the program runs in: the disk (a tree from [/]), the working
    directory, the faults the environment injects, the channels that were
    made, each with its history, the package-level variable [ErrStreaming]
    of package fs, and the mutating system calls made so far. *)
Record World := mkWorld {
  disk : node;
  cwd : location;
  faults : Request → location → option Fault;
  chans : gmap chan (list ChanOp);
  ErrStreaming : option error;
  syscalls : list Syscall
}.

(** Updates of one field. *)
Definition set_disk (d : node) (w : World) : World :=
  mkWorld d (cwd w) (faults w) (chans w) (ErrStreaming w) (syscalls w).
Definition set_chans (c : gmap chan (list ChanOp)) (w : World) : World :=
  mkWorld (disk w) (cwd w) (faults w) c (ErrStreaming w) (syscalls w).
Definition set_ErrStreaming (e : option error) (w : World) : World :=
  mkWorld (disk w) (cwd w) (faults w) (chans w) e (syscalls w).
Definition log_syscall (c : Syscall) (w : World) : World :=
  mkWorld (disk w) (cwd w) (faults w) (chans w) (ErrStreaming w) (syscalls w ++ [c]).

(** ** Computations: state, panics, calls that do not return *)

(** How a call ends: it returns, it panics, or it does not return (the
    fuel of a walk is used up, or a send blocks for ever). *)
Inductive outcome (A : Type) :=
| Ret (a : A)
| Panic (msg : string)
| NoReturn.
Arguments Ret {A} a.
Arguments Panic {A} msg.
Arguments NoReturn {A}.

Definition M (A : Type) : Type := World → outcome A * World.

#[global] Instance M_ret : MRet M := λ A a w, (Ret a, w).
#[global] Instance M_bind : MBind M := λ A B f m w,
  match m w with
  | (Ret a, w') => f a w'
  | (Panic msg, w') => (Panic msg, w')
  | (NoReturn, w') => (NoReturn, w')
  end.

Definition get {A} (f : World → A) : M A := λ w, (Ret (f w), w).
Definition modify (f : World → World) : M unit := λ w, (Ret tt, f w).
Definition panic {A} (msg : string) : M A := λ w, (Panic msg, w).
Definition no_return {A} : M A := λ w, (NoReturn, w).

(** Channel operations.  Sending on, or closing, a closed channel panics;
    a send on a nil channel never returns and closing one panics.  The
    blocking of a send is not modelled: the consumer is assumed to
    drain. *)
Definition chan_closed (c : list ChanOp) : bool := bool_decide (Close ∈ c).

(** [make(chan string)], the new channel being [ch]. *)
Definition make_chan (ch : chan) (w : World) : World :=
  set_chans (<[ch := []]> (chans w)) w.

(** [ch <- s]. *)
Definition chan_send (ch : chan) (s : string) : M unit := λ w,
  match chans w !! ch with
  | None => (NoReturn, w)
  | Some ops =>
      if chan_closed ops then (Panic "send on closed channel", w)
      else (Ret tt, set_chans (<[ch := ops ++ [Send s]]> (chans w)) w)
  end.

(** [close(ch)]. *)
Definition chan_close (ch : chan) : M unit := λ w,
  match chans w !! ch with
  | None => (Panic "close of nil channel", w)
  | Some ops =>
      if chan_closed ops then (Panic "close of closed channel", w)
      else (Ret tt, set_chans (<[ch := ops ++ [Close]]> (chans w)) w)
  end.

(** [s[i:]]: a run-time panic when [i > len(s)]. *)
Fixpoint slice_from (s : string) (i : nat) : option string :=
  match i, s with
  | 0, _ => Some s
  | S i', String _ s' => slice_from s' i'
  | S _, EmptyString => None
  end.

(** ** Package os

    Paths are resolved lexically from the working directory (there are no
    symbolic links on the modelled disk), which is what the kernel does for
    every cleaned path.  For a path that is not cleaned the kernel asks
    more than the model: an element before [..] must be a directory that
    is there, and so must the entry before a trailing separator.
    Permission bits are not modelled:
    the [perm] arguments of the source are dropped, and failed permissions
    are [faults]. *)

Module os.

Definition PathSeparator : ascii := "/"%char.

(** [os.IsPathSeparator]. *)
Definition IsPathSeparator (c : ascii) : bool := Ascii.eqb c PathSeparator.

(** The elements of a path: the pieces between separators, empty pieces
    included, so that [elements "a//b" = ["a"; ""; "b"]]. *)
Fixpoint elements (s : string) : list string :=
  match s with
  | EmptyString => [EmptyString]
  | String c s' =>
      if IsPathSeparator c then EmptyString :: elements s'
      else match elements s' with
           | e :: es => String c e :: es
           | [] => [String c EmptyString]
           end
  end.

(** Whether the path starts with a separator. *)
Definition rooted (s : string) : bool :=
  match s with
  | String c _ => IsPathSeparator c
  | EmptyString => false
  end.

(** Follows the elements of a path from [stack], a location with its last
    name first. *)
Fixpoint resolve (es : list string) (stack : list string) : list string :=
  match es with
  | [] => stack
  | e :: es' =>
      if String.eqb e "" then resolve es' stack
      else if String.eqb e "." then resolve es' stack
      else if String.eqb e ".." then resolve es' (tail stack)
      else resolve es' (e :: stack)
  end.

(** The location a path names; the empty path names nothing. *)
Definition locate (w : World) (path : string) : option location :=
  if String.eqb path "" then None
  else Some (rev (resolve (elements path)
                          (if rooted path then [] else rev (cwd w)))).

(** [os.IsNotExist]. *)
Definition IsNotExist (err : option error) : bool :=
  match err with
  | Some (PathError _ _ ENOENT) => true
  | _ => false
  end.

Definition info_of (n : node) : FileInfo :=
  {| IsDir := match n with Dir _ => true | File _ | Socket => false end |}.

Definition stat_of (op path : string) (w : World) : FileInfo + error :=
  match locate w path with
  | None => inr (PathError op path ENOENT)
  | Some l =>
      match tree_lookup l (disk w) with
      | Found n =>
          match faults w ReqStat l with
          | Some f => inr (PathError op path (Failure f))
          | None => inl (info_of n)
          end
      | Missing => inr (PathError op path ENOENT)
      | NotADirectory => inr (PathError op path ENOTDIR)
      end
  end.

(** [os.Stat] and [os.Lstat]: the pair [(info, err)] as a sum. *)
Definition Stat (path : string) : M (FileInfo + error) := get (stat_of "stat" path).
Definition Lstat (path : string) : M (FileInfo + error) := get (stat_of "lstat" path).

(** The [err] of a [(value, err)] pair. *)
Definition err_of {A} (r : A + error) : option error :=
  match r with inl _ => None | inr e => Some e end.

(** [Open] followed by [Readdirnames(-1)]: the names in directory order. *)
Definition Readdirnames (dirname : string) : M (list string + error) := get (λ w,
  match locate w dirname with
  | None => inr (PathError "open" dirname ENOENT)
  | Some l =>
      match tree_lookup l (disk w) with
      | Found (Dir es) =>
          match faults w ReqReadDir l with
          | Some f => inr (PathError "open" dirname (Failure f))
          | None => inl (map fst es)
          end
      | Found (File _) => inr (PathError "readdirent" dirname ENOTDIR)
      | Found Socket => inr (PathError "open" dirname ENXIO)
      | Missing => inr (PathError "open" dirname ENOENT)
      | NotADirectory => inr (PathError "open" dirname ENOTDIR)
      end
  end).

(** [RemoveAll] refuses paths whose last element is [.]. *)
Definition endsWithDot (path : string) : bool :=
  if String.eqb path "." then true
  else match rev (String.list_ascii_of_string path) with
       | c1 :: c2 :: _ => Ascii.eqb c1 "."%char && IsPathSeparator c2
       | _ => false
       end.

(** [os.RemoveAll]: removes [path] and everything below it; no error if
    the path does not exist.  An injected fault leaves the disk as it
    is.  Go's [RemoveAll] cannot remove a directory named through [..]
    (it empties it and fails); the model agrees with it on the paths that
    end in the name of an entry. *)
Definition RemoveAll (path : string) : M (option error) := λ w0,
  let w := log_syscall (SysRemoveAll path) w0 in
  if String.eqb path "" then (Ret None, w)
  else if endsWithDot path then (Ret (Some (PathError "RemoveAll" path EINVAL)), w)
  else
    match locate w path with
    | None => (Ret None, w)
    | Some l =>
        match tree_lookup l (disk w) with
        | Found _ =>
            match l with
            | [] => (Ret (Some (PathError "unlinkat" path EBUSY)), w)
            | _ :: _ =>
                match faults w ReqRemove l with
                | Some f => (Ret (Some (PathError "unlinkat" path (Failure f))), w)
                | None => (Ret None, set_disk (tree_remove l (disk w)) w)
                end
            end
        | Missing => (Ret None, w)
        | NotADirectory => (Ret (Some (PathError "unlinkat" path ENOTDIR)), w)
        end
    end.

(** [os.Remove]: removes an empty directory or an entry that is not a
    directory. *)
Definition Remove (path : string) : M (option error) := λ w0,
  let w := log_syscall (SysRemove path) w0 in
  match locate w path with
  | None => (Ret (Some (PathError "remove" path ENOENT)), w)
  | Some l =>
      match tree_lookup l (disk w) with
      | Found n =>
          if endsWithDot path then (Ret (Some (PathError "remove" path EINVAL)), w)
          else
            match l, n with
            | [], _ => (Ret (Some (PathError "remove" path EBUSY)), w)
            | _, Dir (_ :: _) => (Ret (Some (PathError "remove" path ENOTEMPTY)), w)
            | _, _ =>
                match faults w ReqRemove l with
                | Some f => (Ret (Some (PathError "remove" path (Failure f))), w)
                | None => (Ret None, set_disk (tree_remove l (disk w)) w)
                end
            end
      | Missing => (Ret (Some (PathError "remove" path ENOENT)), w)
      | NotADirectory => (Ret (Some (PathError "remove" path ENOTDIR)), w)
      end
  end.

(** [os.MkdirAll]: creates the directory [path] with any necessary
    parents; nothing to do when it is a directory already. *)
Definition MkdirAll (path : string) : M (option error) := λ w0,
  let w := log_syscall (SysMkdirAll path) w0 in
  match locate w path with
  | None => (Ret (Some (PathError "mkdir" path ENOENT)), w)
  | Some l =>
      match tree_lookup l (disk w) with
      | Found (Dir _) => (Ret None, w)
      | Found (File _) | Found Socket | NotADirectory =>
          (Ret (Some (PathError "mkdir" path ENOTDIR)), w)
      | Missing =>
          match faults w ReqMkdir l with
          | Some f => (Ret (Some (PathError "mkdir" path (Failure f))), w)
          | None =>
              match tree_mkdir_all l (disk w) with
              | Some d => (Ret None, set_disk d w)
              | None => (Ret (Some (PathError "mkdir" path ENOTDIR)), w)
              end
          end
      end
  end.

End os.

Module ioutil.

(** [ioutil.WriteFile]: creates the file or truncates it, then writes
    [data]; the directory of the file must exist, and what is there
    already must be a regular file. *)
Definition WriteFile (filename : string) (data : list Byte.byte)
  : M (option error) := λ w0,
  let w := log_syscall (SysWriteFile filename data) w0 in
  match os.locate w filename with
  | None => (Ret (Some (PathError "open" filename ENOENT)), w)
  | Some l =>
      match tree_write l data (disk w) with
      | inr e => (Ret (Some (PathError "open" filename e)), w)
      | inl d =>
          match faults w ReqWrite l with
          | Some f => (Ret (Some (PathError "open" filename (Failure f))), w)
          | None => (Ret None, set_disk d w)
          end
      end
  end.

End ioutil.

(** ** Package path/filepath (Unix flavour: separator [/], no volume names) *)

Module filepath.

Definition Separator : ascii := os.PathSeparator.

(** The loop of [Clean], element by element.  [out] is the output buffer,
    most recent element first; [dotdot] is the number of leading [..]
    elements of the buffer, which a later [..] must not remove (the
    source keeps it as the buffer index where [..] must stop). *)
Fixpoint clean_loop (is_rooted : bool) (es out : list string) (dotdot : nat)
  : list string :=
  match es with
  | [] => out
  | e :: es' =>
      if String.eqb e "" then clean_loop is_rooted es' out dotdot
      else if String.eqb e "." then clean_loop is_rooted es' out dotdot
      else if String.eqb e ".." then
        if Nat.ltb dotdot (List.length out) then
          clean_loop is_rooted es' (tail out) dotdot
        else if negb is_rooted then
          clean_loop is_rooted es' (".." :: out) (S dotdot)
        else clean_loop is_rooted es' out dotdot
      else clean_loop is_rooted es' (e :: out) dotdot
  end.

(** [filepath.Clean]: the shortest path name equivalent to [path] by
    purely lexical processing. *)
Definition Clean (path : string) : string :=
  if String.eqb path "" then "."
  else
    let out := rev (clean_loop (os.rooted path) (os.elements path) [] 0) in
    if os.rooted path then String Separator (strings.Join out "/")
    else match out with
         | [] => "."
         | _ => strings.Join out "/"
         end.

(** [filepath.Join]: the first non-empty element and everything after it
    are joined with separators and the result is cleaned; empty when
    every element is empty. *)
Fixpoint Join (elem : list string) : string :=
  match elem with
  | [] => ""
  | e :: rest =>
      if String.eqb e "" then Join rest
      else Clean (strings.Join (e :: rest) "/")
  end.

(** The backwards scan of [Ext]: [rpath] is the path reversed, [acc] the
    bytes already passed. *)
Fixpoint ext_scan (rpath acc : list ascii) : list ascii :=
  match rpath with
  | [] => []
  | c :: rpath' =>
      if os.IsPathSeparator c then []
      else if Ascii.eqb c "."%char then c :: acc
      else ext_scan rpath' (c :: acc)
  end.

(** [filepath.Ext]: the suffix beginning at the final dot of the final
    element of [path]; empty if there is no dot. *)
Definition Ext (path : string) : string :=
  String.string_of_list_ascii (ext_scan (rev (String.list_ascii_of_string path)) []).

Fixpoint strip_separators (rpath : list ascii) : list ascii :=
  match rpath with
  | c :: rpath' => if os.IsPathSeparator c then strip_separators rpath' else rpath
  | [] => []
  end.

Fixpoint last_element (rpath acc : list ascii) : list ascii :=
  match rpath with
  | c :: rpath' => if os.IsPathSeparator c then acc else last_element rpath' (c :: acc)
  | [] => acc
  end.

(** [filepath.Base]: the last element of [path], trailing separators
    removed first. *)
Definition Base (path : string) : string :=
  if String.eqb path "" then "."
  else
    let stripped := strip_separators (rev (String.list_ascii_of_string path)) in
    match last_element stripped [] with
    | [] => String Separator ""
    | cs => String.string_of_list_ascii cs
    end.

(** [sort.Strings] orders names byte-wise. *)
Definition string_le (a b : string) : Prop := Is_true (String.leb a b).

#[global] Instance string_le_dec a b : Decision (string_le a b).
Proof. unfold string_le. apply _. Defined.

(** [readDirNames]: the entries of a directory, sorted. *)
Definition readDirNames (dirname : string) : M (list string + error) :=
  r ← os.Readdirnames dirname;
  match r with
  | inr e => mret (inr e)
  | inl names => mret (inl (merge_sort string_le names))
  end.

Definition WalkFunc : Type :=
  string → option FileInfo → option error → M (option error).

(** The loop of [walk] over the names of a directory; [rec] is the
    recursive call of [walk]. *)
Fixpoint walk_names (rec : string → FileInfo → M (option error))
    (walkFn : WalkFunc) (path : string) (names : list string)
  : M (option error) :=
  match names with
  | [] => mret None
  | name :: names' =>
      let filename := Join [path; name] in
      r ← os.Lstat filename;
      match r with
      | inr e =>
          err ← walkFn filename None (Some e);
          match err with
          | Some e' =>
              if bool_decide (e' ≠ SkipDir) then mret (Some e')
              else walk_names rec walkFn path names'
          | None => walk_names rec walkFn path names'
          end
      | inl fileInfo =>
          err ← rec filename fileInfo;
          match err with
          | Some e' =>
              if negb (IsDir fileInfo) || bool_decide (e' ≠ SkipDir)
              then mret (Some e')
              else walk_names rec walkFn path names'
          | None => walk_names rec walkFn path names'
          end
      end
  end.

(** [walk] recursively descends [path], calling [walkFn].  The recursion
    of the source is on the directory tree as it is found on disk; the
    model bounds its depth by [fuel]. *)
Fixpoint walk (fuel : nat) (path : string) (info : FileInfo)
    (walkFn : WalkFunc) : M (option error) :=
  match fuel with
  | 0 => no_return
  | S fuel' =>
      if negb (IsDir info) then walkFn path (Some info) None
      else
        r ← readDirNames path;
        match r with
        | inr e =>
            (* [walk] cannot enter this directory *)
            err1 ← walkFn path (Some info) (Some e);
            mret err1
        | inl names =>
            err1 ← walkFn path (Some info) None;
            match err1 with
            | Some _ => mret err1
            | None =>
                walk_names (λ p i, walk fuel' p i walkFn) walkFn path names
            end
        end
  end.

(** [filepath.Walk]: walks the file tree rooted at [root], calling
    [walkFn] for each file or directory in the tree, including [root].
    The fuel is the depth of the disk when the walk starts, which no
    walk that does not grow the tree can use up. *)
Definition Walk (root : string) (walkFn : WalkFunc) : M (option error) :=
  r ← os.Lstat root;
  err ← match r with
        | inr e => walkFn root None (Some e)
        | inl info =>
            fuel ← get (λ w, depth (disk w));
            walk fuel root info walkFn
        end;
  if bool_decide (err = Some SkipDir) then mret None else mret err.

End filepath.

(** ** Package afero: the file system interface handed to package fs *)

Module afero.

(** [afero.Fs], with the two methods the program calls. *)
Record Fs := {
  Stat : string → M (FileInfo + error);
  RemoveAll : string → M (option error)
}.

(** [afero.NewOsFs()]: the operating system's file system. *)
Definition NewOsFs : Fs := {| Stat := os.Stat; RemoveAll := os.RemoveAll |}.

End afero.

(** ** Package fs (fs/fs.go) *)

Module fs.

(** [MarkdownOnly] is a filter that only lets pass Markdown files. *)
Definition MarkdownOnly (file : string) : bool :=
  String.eqb (filepath.Ext file) ".md".

(** [NoUnderscores] is a predefined filter that doesn't let pass files
    starting with an underscore. *)
Definition NoUnderscores (file : string) : bool :=
  let filename := filepath.Base file in
  negb (strings.HasPrefix filename "_").

(** The loop over the filters in the walk function of [StreamFiles]:
    [false] as soon as a filter rejects the file. *)
Fixpoint passes (filters : list (string → bool)) (file : string) : bool :=
  match filters with
  | [] => true
  | filter :: filters' => if negb (filter file) then false else passes filters' file
  end.

(** The function [StreamFiles] hands to [filepath.Walk]. *)
Definition stream (path : string) (files : chan) (filters : list (string → bool))
  : filepath.WalkFunc := λ file info err,
  match err with
  | Some e => mret (Some e)
  | None =>
      match info with
      | None => panic "invalid memory address or nil pointer dereference"
      | Some info =>
          if IsDir info then mret None
          else if negb (passes filters file) then mret None
          else if String.eqb path "." then
            (* the filepath already is a relative path *)
            chan_send files file;; mret None
          else
            (* files <- file[len(path):] *)
            match slice_from file (String.length path) with
            | Some rel => chan_send files rel;; mret None
            | None => panic "slice bounds out of range"
            end
      end
  end.

(** [StreamFiles] sends all relative file paths inside a given path that
    match the given filters through the files channel. *)
Definition StreamFiles (path : string) (files : chan)
    (filters : list (string → bool)) : M (option error) :=
  r ← os.Stat path;
  if os.IsNotExist (os.err_of r) then
    chan_close files;; mret None
  else
    err ← filepath.Walk path (stream path files filters);
    modify (set_ErrStreaming err);;
    chan_close files;;
    get ErrStreaming.

(** [MkdirAll] creates one or more directories inside the given path. *)
Fixpoint MkdirAll (path : string) (dirs : list string) : M (option error) :=
  match dirs with
  | [] => mret None
  | dir :: dirs' =>
      err ← os.MkdirAll (filepath.Join [path; dir]);
      match err with
      | Some e => mret (Some e)
      | None => MkdirAll path dirs'
      end
  end.

(** [Rmdir] removes an entire directory along with its contents. *)
Definition Rmdir (fsys : afero.Fs) (path : string) : M (option error) :=
  r ← afero.Stat fsys path;
  match os.err_of r with
  | Some e =>
      if negb (os.IsNotExist (Some e)) then mret (Some e)
      else afero.RemoveAll fsys path
  | None => afero.RemoveAll fsys path
  end.

(** Modelled from the spec: [IsSafeToRemove] is called by
    [core.CreateProject] but its body is not in fs/fs.go.  The
    specification: "Safe to remove" is false whenever the target exists
    and overwrite was not explicitly requested; true if the target does
    not exist, or overwrite was requested.  Existence is tested as
    everywhere else in the program, by [Stat] and [os.IsNotExist]. *)
Definition IsSafeToRemove (fsys : afero.Fs) (path : string) (force : bool)
  : M bool :=
  r ← afero.Stat fsys path;
  mret (force || os.IsNotExist (os.err_of r)).

End fs.

(** ** The collaborators of package core that are not in the sources *)

(** Modelled from the spec: the constants of package config and the default
    file contents of package core.  The specification gives the directory
    names [content], [templates] and [css] and the file names
    [verless.yml], [.gitignore], [style.css] and [theme.yml]; the names
    it leaves open are fields. *)
Record Config := {
  ContentDir : string;
  DefaultTheme : string;
  ThemesDir : string;
  JsDirName : string;
  ListPageTpl : string;
  PageTpl : string;
  defaultConfig : list Byte.byte;
  defaultGitignore : list Byte.byte;
  defaultTpl : list Byte.byte;
  defaultCss : list Byte.byte;
  defaultThemeConfig : list Byte.byte
}.

Module theme.
Section layout.
Context (cfg : Config).

(** Modelled from the spec: the theme layout collaborator, which is not
    in the sources.  A theme is a named subdirectory of the project
    ([<theme-dir>]) that holds [templates], [css] and a script
    directory. *)
Definition Dir (path name : string) : string :=
  filepath.Join [path; ThemesDir cfg; name].
Definition TemplateDir (path name : string) : string :=
  filepath.Join [Dir path name; "templates"].
Definition CssDir (path name : string) : string :=
  filepath.Join [Dir path name; "css"].
Definition JsDir (path name : string) : string :=
  filepath.Join [Dir path name; JsDirName cfg].

(** Modelled from the spec: the existence check of the layout
    collaborator: the named theme's directory already exists under
    the project. *)
Definition Exists (path name : string) : M bool :=
  r ← os.Stat (Dir path name);
  mret (negb (os.IsNotExist (os.err_of r))).
End layout.
End theme.

(** ** Package core (core/create.go) *)

Module core.

(** [ErrProjectExists] states that the specified project already exists. *)
Definition ErrProjectExists : error :=
  errors.New "project already exists, use --overwrite to remove it".

(** [ErrProjectNotExists] states that the specified project doesn't exist. *)
Definition ErrProjectNotExists : error :=
  errors.New "project doesn't exist yet, create it first".

(** [ErrThemeExists] states that the specified theme already exists. *)
Definition ErrThemeExists : error :=
  errors.New "theme already exists, remove it first".

(** [CreateProjectOptions] represents options for creating a project. *)
Record CreateProjectOptions := { Overwrite : bool }.

(** [CreateThemeOptions] represents project path for creating new theme. *)
Record CreateThemeOptions := { Project : string }.

(** [for _, x := range xs { if err := f(x); err != nil { return err } }]:
    the first error stops the loop. *)
Fixpoint for_each {A} (xs : list A) (f : A → M (option error))
  : M (option error) :=
  match xs with
  | [] => mret None
  | x :: xs' =>
      err ← f x;
      match err with
      | Some e => mret (Some e)
      | None => for_each xs' f
      end
  end.

(** The function [CreateProject] hands to [filepath.Walk] when the
    project is the current directory. *)
Definition cleanup : filepath.WalkFunc := λ path info err,
  (* RemoveAll removes nested directory in first iteration which causes
     "no such file or directory" for next recursion of WalkFunc. *)
  if os.IsNotExist err then mret None
  else if negb (String.eqb path ".") then
    match info with
    | None => panic "invalid memory address or nil pointer dereference"
    | Some info =>
        if IsDir info then os.RemoveAll path else os.Remove path
    end
  else mret None.

Section create.
Context (cfg : Config).

(** The order in which [range] visits the entries of a map is chosen by
    the Go runtime. *)
Context (range_order : list (string * list Byte.byte) →
                       list (string * list Byte.byte)).

Definition createFiles (files : gmap string (list Byte.byte))
  : M (option error) :=
  for_each (range_order (map_to_list files))
           (λ '(path, content), ioutil.WriteFile path content).

(** [CreateProject] creates a new verless project.  If the specified
    project path already exists, [CreateProject] returns an error
    unless --overwrite has been used. *)
Definition CreateProject (path : string) (options : CreateProjectOptions)
  : M (option error) :=
  safe ← fs.IsSafeToRemove afero.NewOsFs path (Overwrite options);
  if negb safe then mret (Some ErrProjectExists)
  else
    err ← (if negb (String.eqb path ".") then os.RemoveAll path
           else
             err ← filepath.Walk path cleanup;
             match err with
             | Some _ =>
                 mret (Some (errors.New
                   "Cannot remove existing files from current directory."))
             | None => mret None
             end);
    match err with
    | Some e => mret (Some e)
    | None =>
        let dirs := [
          filepath.Join [path; ContentDir cfg];
          theme.TemplateDir cfg path (DefaultTheme cfg);
          theme.CssDir cfg path (DefaultTheme cfg)
        ] in
        err ← for_each dirs os.MkdirAll;
        match err with
        | Some e => mret (Some e)
        | None =>
            let files : gmap string (list Byte.byte) :=
              <[filepath.Join [theme.CssDir cfg path (DefaultTheme cfg); "style.css"] := defaultCss cfg]> (
              <[filepath.Join [theme.TemplateDir cfg path (DefaultTheme cfg); PageTpl cfg] := []]> (
              <[filepath.Join [theme.TemplateDir cfg path (DefaultTheme cfg); ListPageTpl cfg] := defaultTpl cfg]> (
              <[filepath.Join [path; ".gitignore"] := defaultGitignore cfg]> (
              <[filepath.Join [path; "verless.yml"] := defaultConfig cfg]> ∅)))) in
            createFiles files
        end
    end.

(** [CreateTheme] creates a new theme with the specified name inside
    the given path. *)
Definition CreateTheme (options : CreateThemeOptions) (name : string)
  : M (option error) :=
  r ← os.Stat (Project options);
  if os.IsNotExist (os.err_of r) then mret (Some ErrProjectNotExists)
  else
    exists_ ← theme.Exists cfg (Project options) name;
    if (exists_ : bool) then mret (Some ErrThemeExists)
    else
      let dirs := [
        theme.TemplateDir cfg (Project options) name;
        theme.CssDir cfg (Project options) name;
        theme.JsDir cfg (Project options) name
      ] in
      err ← for_each dirs os.MkdirAll;
      match err with
      | Some e => mret (Some e)
      | None =>
          let files : gmap string (list Byte.byte) :=
            <[filepath.Join [theme.Dir cfg (Project options) name; "theme.yml"] := defaultThemeConfig cfg]> (
            <[filepath.Join [theme.TemplateDir cfg (Project options) name; PageTpl cfg] := []]> (
            <[filepath.Join [theme.TemplateDir cfg (Project options) name; ListPageTpl cfg] := []]> ∅)) in
          createFiles files
      end.

End create.

End core.

(** ** Vocabulary of the properties *)

(** A path element without separator. *)
Fixpoint no_separator (s : string) : bool :=
  match s with
  | EmptyString => true
  | String c s' => negb (os.IsPathSeparator c) && no_separator s'
  end.

(** The names a directory can hold: not empty, not [.] or [..], and
    without separator. *)
Definition valid_name (name : string) : bool :=
  negb (String.eqb name "") && negb (String.eqb name ".")
  && negb (String.eqb name "..") && no_separator name.

(** A well-formed tree: every directory holds valid names, each once. *)
Fixpoint wf_node (n : node) : bool :=
  match n with
  | File _ | Socket => true
  | Dir es =>
      forallb valid_name (map fst es) && bool_decide (NoDup (map fst es))
      && (fix go (es : list (string * node)) : bool :=
            match es with
            | [] => true
            | (_, ch) :: es' => wf_node ch && go es'
            end) es
  end.

(** What went through the channel [ch] so far. *)
Definition chan_ops (w : World) (ch : chan) : list ChanOp :=
  default [] (chans w !! ch).

(** The channel [ch] was made and is open. *)
Definition chan_open (w : World) (ch : chan) : Prop :=
  ∃ ops, chans w !! ch = Some ops ∧ chan_closed ops = false.

(** [path] exists on disk, as the program tests it: [Stat] does not report
    "not exist". *)
Definition exists_on_disk (w : World) (path : string) : bool :=
  negb (os.IsNotExist (os.err_of (os.stat_of "stat" path w))).

(** The tree found at [path]. *)
Definition tree_at (w : World) (path : string) : option node :=
  match os.locate w path with
  | Some l => match tree_lookup l (disk w) with Found n => Some n | _ => None end
  | None => None
  end.

(** The traversal paths of the entries of the tree [n] found at [path]
    that are not directories, regular files and others alike: the names
    [filepath.Walk] gives them. *)
Fixpoint files_under (path : string) (n : node) : list string :=
  match n with
  | File _ | Socket => [path]
  | Dir es =>
      (fix go (es : list (string * node)) : list string :=
         match es with
         | [] => []
         | (name, ch) :: es' =>
             files_under (filepath.Join [path; name]) ch ++ go es'
         end) es
  end.



(** Nothing is found at [path]: no entry of the disk has this path. *)
Definition nothing_at (w : World) (path : string) : Prop := tree_at w path = None.

(** The path [StreamFiles] emits for the traversal path [file]; [None]
    when the slice is out of range. *)
Definition emitted_path (root file : string) : option string :=
  if String.eqb root "." then Some file
  else slice_from file (String.length root).

(** The slice of every file the filters let pass is in range. *)
Definition strip_in_range (root : string) (filters : list (string → bool))
    (n : node) : Prop :=
  ∀ f, f ∈ files_under root n → fs.passes filters f = true →
       is_Some (emitted_path root f).

(** No fault is injected on reading (neither [Lstat] nor the listing of a
    directory fails on an entry that exists). *)
Definition readable (w : World) : Prop :=
  ∀ l, faults w ReqStat l = None ∧ faults w ReqReadDir l = None.

(** An element that can appear in a cleaned path. *)
Definition proper (e : string) : Prop := e ≠ "" ∧ no_separator e = true.

(** The files below the entry [name] of the directory [es] at [path]. *)
Definition below (path : string) (es : list (string * node)) (name : string)
  : list string :=
  match entry_get name es with
  | Some ch => files_under (filepath.Join [path; name]) ch
  | None => []
  end.

(** The world after the paths [sent] went through the channel. *)
Definition add_sends (ch : chan) (sent : list string) (w : World) : World :=
  set_chans (<[ch := chan_ops w ch ++ map Send sent]> (chans w)) w.

(** What a walk with the function of [StreamFiles] does, [fs] being the
    traversal paths of the files it can meet: it sends paths and changes
    nothing else; what it sends comes from files that pass the filters; it
    panics only on a slice out of range; and when nothing fails it ends
    without error having sent the path of every file that passes. *)
Definition stream_post (root : string) (ch : chan) (filters : list (string → bool))
    (fs : list string) (w : World) (res : outcome (option error) * World)
  : Prop :=
  ∃ r sent,
    res = (r, add_sends ch sent w) ∧
    r ≠ NoReturn ∧
    (∀ s, s ∈ sent →
       ∃ f, f ∈ fs ∧ fs.passes filters f = true ∧ emitted_path root f = Some s) ∧
    (∀ msg, r = Panic msg →
       ∃ f, f ∈ fs ∧ fs.passes filters f = true ∧ emitted_path root f = None) ∧
    (readable w →
     (∀ f, f ∈ fs → fs.passes filters f = true → is_Some (emitted_path root f)) →
     r = Ret None ∧
     ∀ f s, f ∈ fs → fs.passes filters f = true → emitted_path root f = Some s →
            s ∈ sent).

(** The world after the channel [ch] was closed. *)
Definition closed (ch : chan) (w : World) : World :=
  set_chans (<[ch := chan_ops w ch ++ [Close]]> (chans w)) w.

(** The world when [StreamFiles] returns [err] after the walk sent [sent]. *)
Definition finished (ch : chan) (err : option error) (sent : list string)
    (w : World) : World :=
  set_chans (<[ch := chan_ops w ch ++ map Send sent ++ [Close]]> (chans w))
            (set_ErrStreaming err w).

(** [StreamFiles] up to, and without, its last statement.  The result
    tells what the last statement is to return: [None] for the nil of the
    early return, [Some err] for the package variable, in which the error
    [err] of the walk was just stored. *)
Definition StreamFiles_until_return (path : string) (files : chan)
    (filters : list (string → bool)) : M (option (option error)) :=
  r ← os.Stat path;
  if os.IsNotExist (os.err_of r) then
    chan_close files;; mret None
  else
    err ← filepath.Walk path (fs.stream path files filters);
    modify (set_ErrStreaming err);;
    chan_close files;;
    mret (Some err).

(** Number of times the channel was closed. *)
Definition closes (c : list ChanOp) : nat := length (filter (λ op, op = Close) c).

(** From [w] to [w'] nothing disappeared from the disk, and the working
    directory and the faults are the same. *)
Definition grows (w w' : World) : Prop :=
  cwd w' = cwd w ∧ faults w' = faults w ∧
  ∀ l, tree_lookup l (disk w) ≠ Missing → tree_lookup l (disk w') ≠ Missing.

(** The world after the entry [name] of the working directory was removed
    by the system call [c]. *)
Definition removed (name : string) (c : Syscall) (w : World) : World :=
  set_disk (tree_remove (cwd w ++ [name]) (disk w)) (log_syscall c w).

(** The cleanup of the current directory as the specification words it:
    enumerate the entries; remove a directory recursively and a plain file
    individually (as is every entry that is not a directory); the first
    error ends it.  [es] are the entries of the current directory. *)
Definition remove_entry (es : list (string * node)) (name : string)
  : M (option error) :=
  match entry_get name es with
  | Some (Dir _) => os.RemoveAll name
  | Some (File _) | Some Socket => os.Remove name
  | None => mret None
  end.

Definition iterative_cleanup (es : list (string * node)) : M (option error) :=
  core.for_each (merge_sort filepath.string_le (map fst es)) (remove_entry es).

(** The system calls that remove the root marker. *)
Definition removes_root_marker (c : Syscall) : Prop :=
  c = SysRemove "." ∨ c = SysRemoveAll ".".

(** From [w] to [w'] system calls were made, none of which removes the
    root marker. *)
Definition spares_root_marker (w w' : World) : Prop :=
  ∃ calls, syscalls w' = syscalls w ++ calls ∧
           Forall (λ c, ¬ removes_root_marker c) calls.

(** ** Vocabulary of the further properties *)

(** From [w] to [w'] only the channel [ch] and the variable [ErrStreaming]
    can differ. *)
Definition reads_only (ch : chan) (w w' : World) : Prop :=
  disk w' = disk w ∧ cwd w' = cwd w ∧ faults w' = faults w ∧
  syscalls w' = syscalls w ∧
  ∀ ch', ch' ≠ ch → chans w' !! ch' = chans w !! ch'.

(** From [w] to [w'] the channel [ch], if it was closed, is as it was. *)
Definition stays_closed (ch : chan) (w w' : World) : Prop :=
  ∀ ops, chans w !! ch = Some ops → chan_closed ops = true →
         chans w' !! ch = Some ops.

(** From [w] to [w'] the disk and the working directory are the same. *)
Definition same_disk (w w' : World) : Prop := disk w' = disk w ∧ cwd w' = cwd w.

(** The relation [R] between worlds, as long as [I] holds. *)
Definition while (I : World → Prop) (R : relation World) : relation World :=
  λ w w', I w → R w w' ∧ I w'.

(** From [w] to [w'] every entry is still there, a directory still a
    directory and a file still a file; the working directory and the
    faults are the same. *)
Definition entries_stay (w w' : World) : Prop :=
  cwd w' = cwd w ∧ faults w' = faults w ∧
  ∀ l n, tree_lookup l (disk w) = Found n →
         ∃ n', tree_lookup l (disk w') = Found n' ∧ os.info_of n' = os.info_of n.

(** [path] is a directory. *)
Definition is_directory (w : World) (path : string) : Prop :=
  ∃ es, tree_at w path = Some (Dir es).

(** [path] names an entry that is not a directory: a regular file or
    an entry of another kind. *)
Definition is_no_directory (w : World) (path : string) : Prop :=
  ∃ n, tree_at w path = Some n ∧ IsDir (os.info_of n) = false.

(** The order in which [range] visits a map: every entry once. *)
Definition visits_every_entry
    (range_order : list (string * list Byte.byte) → list (string * list Byte.byte))
  : Prop :=
  ∀ kvs, range_order kvs ≡ₚ kvs.

(** The loop of [createFiles] over the entries as they are visited. *)
Definition write_all (kvs : list (string * list Byte.byte)) : M (option error) :=
  core.for_each kvs (λ '(path, content), ioutil.WriteFile path content).

(** The names of the configuration are names of directory entries, and
    the two templates have different names. *)
Definition valid_config (cfg : Config) : Prop :=
  Forall (λ n, valid_name n = true)
         [ContentDir cfg; ThemesDir cfg; DefaultTheme cfg; JsDirName cfg;
          ListPageTpl cfg; PageTpl cfg] ∧
  ListPageTpl cfg ≠ PageTpl cfg.

(** [f] is [path] or a path below it. *)
Definition follows (path f : string) : Prop :=
  f = path ∨
  ∃ rest, f = path +:+ (if String.eqb path "/" then rest else String os.PathSeparator rest).

(** The traversal paths of the entries of the tree [n] found at [path]
    that are not directories, in the order [filepath.Walk] visits them:
    the entries of a directory by name.  [fuel] bounds the depth. *)
Fixpoint walk_order (fuel : nat) (path : string) (n : node) : list string :=
  match fuel with
  | 0 => []
  | S fuel' =>
      match n with
      | File _ | Socket => [path]
      | Dir es =>
          merge_sort filepath.string_le (map fst es) ≫= λ name,
            match entry_get name es with
            | Some ch => walk_order fuel' (filepath.Join [path; name]) ch
            | None => []
            end
      end
  end.

(** What [StreamFiles] sends for the traversal paths [fs], in order. *)
Definition sent_for (root : string) (filters : list (string → bool))
    (fs : list string) : list string :=
  omap (emitted_path root) (filter (λ f, fs.passes filters f = true) fs).

(** From [w] to [w'] nothing changed at the locations that are neither
    at or below [lp] nor above it; the working directory is the same. *)
Definition same_outside (lp : location) (w w' : World) : Prop :=
  cwd w' = cwd w ∧
  ∀ l0, ¬ lp `prefix_of` l0 → ¬ l0 `prefix_of` lp →
        tree_lookup l0 (disk w') = tree_lookup l0 (disk w).

(** [path] is a cleaned path whose last element is a name: it is not
    [.], [..], [/] or a path that ends in one of them. *)
Definition names_an_entry (path : string) : Prop :=
  filepath.Clean path = path ∧ valid_name (filepath.Base path) = true.

(** At and below [lp] there is nothing but what lies on the way to one of
    the locations [ls]. *)
Definition nothing_but (lp : location) (ls : list location) (w : World) : Prop :=
  ∀ l0 n, lp `prefix_of` l0 → tree_lookup l0 (disk w) = Found n →
          ∃ l, l ∈ ls ∧ l0 `prefix_of` l.

(** The locations of the layout of a project at [lp]. *)
Definition project_layout (cfg : Config) (lp : location) : list location :=
  [lp ++ [ContentDir cfg];
   lp ++ [ThemesDir cfg; DefaultTheme cfg; "templates"];
   lp ++ [ThemesDir cfg; DefaultTheme cfg; "css"];
   lp ++ ["verless.yml"];
   lp ++ [".gitignore"];
   lp ++ [ThemesDir cfg; DefaultTheme cfg; "templates"; ListPageTpl cfg];
   lp ++ [ThemesDir cfg; DefaultTheme cfg; "templates"; PageTpl cfg];
   lp ++ [ThemesDir cfg; DefaultTheme cfg; "css"; "style.css"]].

(** ** Worlds to run the program on *)

(** The channel of the examples. *)
Definition out : chan := 0.

(** A world without faults, with the channel [out] just made, and nothing
    logged. *)
Definition quiet (d : node) (wd : location) : World :=
  mkWorld d wd (λ _ _, None) {[out := []]} None [].

(** The scenario of the specification: the current directory holds
    notes.md, _draft.md and image.png. *)
Definition notes_world : World :=
  quiet (Dir [("srv", Dir [("notes.md", File []); ("_draft.md", File []);
                            ("image.png", File [])])]) ["srv"].


(** A project directory [site] with one page. *)
Definition site_world : World :=
  quiet (Dir [("srv", Dir [("site", Dir [("about.md", File []);
                                          ("posts", Dir [("one.md", File [])])])])])
        ["srv"].

(** The same disk, where listing the directory [site/posts] fails. *)
Definition failing_world : World :=
  mkWorld (disk site_world) (cwd site_world)
    (λ rq l, match rq with
             | ReqReadDir =>
                 if bool_decide (l = ["srv"; "site"; "posts"]) then Some EACCES else None
             | _ => None
             end)
    {[out := []]} None [].

(** Names for what the sources do not give: the layout verless uses. *)
Definition verless_config : Config := {|
  ContentDir := "content";
  DefaultTheme := "default";
  ThemesDir := "themes";
  JsDirName := "js";
  ListPageTpl := "list-page.html";
  PageTpl := "page.html";
  defaultConfig := String.list_byte_of_string "version: 1";
  defaultGitignore := String.list_byte_of_string "target/";
  defaultTpl := String.list_byte_of_string "<html></html>";
  defaultCss := String.list_byte_of_string "body {}";
  defaultThemeConfig := String.list_byte_of_string "version: 1"
|}.

(** A runtime that visits the entries of a map last to first. *)
Definition backwards (kvs : list (string * list Byte.byte))
  : list (string * list Byte.byte) := rev kvs.

(** The disk of [site_world], where the file site/about.md cannot be
    removed. *)
Definition protected_world : World :=
  mkWorld (disk site_world) ["srv"; "site"]
    (λ rq l, match rq with
             | ReqRemove =>
                 if bool_decide (l = ["srv"; "site"; "about.md"]) then Some EPERM else None
             | _ => None
             end)
    {[out := []]} None [].

(** * Properties *)

(** ** The path functions on examples *)

Example Clean_examples :
  map filepath.Clean ["a//b"; "./a/"; "a/.."; "../a/../.."; "/.."; "/a/./b/../c"; ""; "./notes.md"]
  = ["a/b"; "a"; "."; "../.."; "/"; "/a/c"; "."; "notes.md"].
Proof. reflexivity. Qed.

Example Join_examples :
  map filepath.Join [["."; "notes.md"]; ["site"; "about.md"]; ["site/"; "a"]; [""; "b"]; ["a"; ""]; [""; ""]]
  = ["notes.md"; "site/about.md"; "site/a"; "b"; "a"; ""].
Proof. reflexivity. Qed.

Example Ext_examples :
  map filepath.Ext ["notes.md"; "a.b/c"; "x.tar.gz"; ".md"; "a/"; "image.png"]
  = [".md"; ""; ".gz"; ".md"; ""; ".png"].
Proof. reflexivity. Qed.

Example Base_examples :
  map filepath.Base ["a/b/_c.md"; "a/b/"; "///"; ""; "x"]
  = ["_c.md"; "b"; "/"; "."; "x"].
Proof. reflexivity. Qed.

(** ** Paths: elements, cleaning and resolution *)

Section paths.

Lemma elements_nonempty s : os.elements s ≠ [].
Proof.
  destruct s as [|c s]; simpl; [done|].
  destruct (os.IsPathSeparator c); [done|].
  by destruct (os.elements s).
Qed.

Lemma elements_app_sep a b :
  os.elements (a +:+ String os.PathSeparator b) = os.elements a ++ os.elements b.
Proof.
  induction a as [|c a IH]; simpl.
  - done.
  - destruct (os.IsPathSeparator c); [by rewrite IH|].
    rewrite IH. pose proof (elements_nonempty a) as Ha.
    by destruct (os.elements a).
Qed.

Lemma elements_no_separator n : no_separator n = true → os.elements n = [n].
Proof.
  induction n as [|c n IH]; simpl; [done|].
  intros [Hc Hn]%andb_true_iff. apply negb_true_iff in Hc. rewrite Hc.
  by rewrite IH.
Qed.

Lemma elements_all_no_separator s :
  Forall (λ e, no_separator e = true) (os.elements s).
Proof.
  induction s as [|c s IH]; simpl.
  - by repeat constructor.
  - destruct (os.IsPathSeparator c) eqn:Hc.
    + by constructor.
    + destruct (os.elements s) as [|e es]; simpl.
      * repeat constructor. simpl. by rewrite Hc.
      * inversion IH; subst. constructor; [|done]. simpl. by rewrite Hc.
Qed.

Lemma elements_join xs :
  xs ≠ [] → Forall (λ e, no_separator e = true) xs →
  os.elements (strings.Join xs "/") = xs.
Proof.
  unfold strings.Join.
  induction xs as [|x xs IH]; [done|]. intros _ Hall.
  inversion Hall as [|? ? Hx Hxs]; subst.
  destruct xs as [|y ys].
  - simpl. by apply elements_no_separator.
  - change (String.concat "/" (x :: y :: ys))
      with (x +:+ String os.PathSeparator (String.concat "/" (y :: ys))).
    rewrite elements_app_sep, IH by done.
    by rewrite elements_no_separator.
Qed.

Lemma valid_name_spec n :
  valid_name n = true ↔
  n ≠ "" ∧ n ≠ "." ∧ n ≠ ".." ∧ no_separator n = true.
Proof.
  unfold valid_name. rewrite !andb_true_iff, !negb_true_iff, !String.eqb_neq.
  tauto.
Qed.

Lemma resolve_app a b st : os.resolve (a ++ b) st = os.resolve b (os.resolve a st).
Proof.
  revert st. induction a as [|e a IH]; intros st; simpl; [done|].
  repeat case_match; apply IH.
Qed.

Lemma resolve_valid n st : valid_name n = true → os.resolve [n] st = n :: st.
Proof.
  intros (H1 & H2 & H3 & _)%valid_name_spec. simpl.
  apply String.eqb_neq in H1, H2, H3. by rewrite H1, H2, H3.
Qed.

Lemma clean_loop_snoc r es out k n :
  valid_name n = true →
  filepath.clean_loop r (es ++ [n]) out k = n :: filepath.clean_loop r es out k.
Proof.
  intros (H1 & H2 & H3 & _)%valid_name_spec.
  apply String.eqb_neq in H1, H2, H3.
  revert out k. induction es as [|e es IH]; intros out k; simpl.
  - by rewrite H1, H2, H3.
  - repeat case_match; apply IH.
Qed.

Lemma clean_loop_proper r es out k :
  Forall (λ e, no_separator e = true) es → Forall proper out →
  Forall proper (filepath.clean_loop r es out k).
Proof.
  revert out k. induction es as [|e es IH]; intros out k Hes Hout; simpl; [done|].
  inversion Hes as [|? ? He Hes']; subst.
  destruct (String.eqb_spec e ""); [by apply IH|].
  destruct (String.eqb_spec e "."); [by apply IH|].
  destruct (String.eqb_spec e "..").
  - repeat case_match; apply IH; try done.
    + destruct out; simpl; [done|]. by inversion Hout.
    + constructor; [|done]. by subst.
  - apply IH; [done|]. by constructor.
Qed.

(** Cleaning a path does not change the location it resolves to.  [out]
    is the buffer of [Clean], whose first [k] elements are [..]. *)
Lemma resolve_clean_loop r base es top k :
  Forall (λ e, no_separator e = true) es →
  Forall (λ e, valid_name e = true) top →
  (r = true → k = 0 ∧ base = []) →
  os.resolve (rev (filepath.clean_loop r es (top ++ replicate k "..") k)) base
  = os.resolve es (os.resolve (rev (top ++ replicate k "..")) base).
Proof.
  revert top k. induction es as [|e es IH]; intros top k Hes Htop Hr; simpl; [done|].
  inversion Hes as [|? ? He Hes']; subst.
  destruct (String.eqb_spec e "") as [|Hne]; [by apply IH|].
  destruct (String.eqb_spec e ".") as [|Hnd]; [by apply IH|].
  destruct (String.eqb_spec e "..") as [->|Hdd].
  - rewrite length_app, length_replicate.
    destruct top as [|t top].
    + simpl. replace (k <? k)%nat with false by (symmetry; apply Nat.ltb_ge; lia).
      destruct r; simpl.
      * destruct Hr as [-> ->]; [done|]. apply (IH [] 0); by try constructor.
      * etrans; [apply (IH [] (S k)); by try constructor|]. f_equal.
        simpl. by rewrite resolve_app.
    + simpl. replace (k <? S (length top + k))%nat with true
        by (symmetry; apply Nat.ltb_lt; lia).
      inversion Htop as [|? ? Ht Htop']; subst.
      etrans; [by apply IH|]. f_equal.
      by rewrite resolve_app, resolve_valid.
  - etrans; [apply (IH (e :: top) k); [done| |done]|].
    + constructor; [|done]. by apply valid_name_spec.
    + f_equal. simpl. rewrite resolve_app. simpl.
      apply String.eqb_neq in Hne, Hnd, Hdd. by rewrite Hne, Hnd, Hdd.
Qed.

Lemma join_proper xs :
  xs ≠ [] → Forall proper xs →
  strings.Join xs "/" ≠ "" ∧ os.rooted (strings.Join xs "/") = false.
Proof.
  destruct xs as [|x xs]; [done|]. intros _ Hall.
  inversion Hall as [|? ? [Hx Hsep] _]; subst.
  destruct x as [|c x]; [done|]. simpl in Hsep.
  apply andb_true_iff in Hsep as [Hc%negb_true_iff _].
  unfold strings.Join. destruct xs; simpl; by rewrite ?Hc.
Qed.

Lemma proper_no_separator xs :
  Forall proper xs → Forall (λ e, no_separator e = true) xs.
Proof. intros H. eapply Forall_impl; [exact H|]. by intros ? [_ ?]. Qed.

Lemma valid_name_proper n : valid_name n = true → proper n.
Proof. intros (? & _ & _ & ?)%valid_name_spec. by split. Qed.

(** The location of [Join(path, name)] is the entry [name] of the
    location of [path]. *)
Lemma locate_Join w path name l :
  valid_name name = true →
  os.locate w path = Some l →
  os.locate w (filepath.Join [path; name]) = Some (l ++ [name]).
Proof.
  intros Hname Hloc. unfold os.locate in Hloc.
  destruct (String.eqb_spec path "") as [|Hpath]; [done|].
  injection Hloc as <-.
  pose proof (valid_name_proper _ Hname) as Hproper.
  pose proof (proj2 Hproper) as Hsep.
  set (base := if os.rooted path then [] else rev (cwd w)).
  apply String.eqb_neq in Hpath as Hpath'.
  assert (filepath.Join [path; name]
          = filepath.Clean (path +:+ String os.PathSeparator name)) as ->
    by (unfold filepath.Join; by rewrite Hpath').
  set (s := path +:+ String os.PathSeparator name).
  assert (s ≠ "") as Hs by (subst s; by destruct path).
  assert (os.rooted s = os.rooted path) as Hrooted
    by (subst s; by destruct path).
  unfold filepath.Clean. apply String.eqb_neq in Hs as Hs'. rewrite Hs', Hrooted.
  assert (os.elements s = os.elements path ++ [name]) as ->.
  { subst s. by rewrite elements_app_sep, (elements_no_separator name). }
  rewrite clean_loop_snoc by done.
  set (C := filepath.clean_loop (os.rooted path) (os.elements path) [] 0).
  assert (Forall proper C) as HC.
  { apply clean_loop_proper; [apply elements_all_no_separator|done]. }
  assert (Forall proper (rev C ++ [name])) as Hall.
  { apply Forall_app. split; [by apply Forall_rev|by constructor]. }
  assert (rev C ++ [name] ≠ []) as Hne by (by destruct (rev C)).
  destruct (join_proper _ Hne Hall) as [Hj1 Hj2].
  assert (os.resolve (rev C) base = os.resolve (os.elements path) base) as HR.
  { apply (resolve_clean_loop (os.rooted path) base (os.elements path) [] 0).
    - apply elements_all_no_separator.
    - done.
    - subst base. by intros ->. }
  simpl rev. unfold os.locate.
  destruct (os.rooted path) eqn:Hr.
  - simpl. f_equal.
    rewrite elements_join by (done || by apply proper_no_separator).
    simpl. rewrite resolve_app, (resolve_valid name) by done.
    fold base. rewrite HR. by rewrite rev_unit', rev_involutive || simpl.
  - assert (match rev C ++ [name] with
            | [] => "."
            | _ :: _ => strings.Join (rev C ++ [name]) "/"
            end = strings.Join (rev C ++ [name]) "/") as ->
      by (by destruct (rev C ++ [name])).
    apply String.eqb_neq in Hj1. rewrite Hj1, Hj2. f_equal.
    rewrite elements_join by (done || by apply proper_no_separator).
    rewrite resolve_app, (resolve_valid name) by done.
    fold base. rewrite HR. simpl. done.
Qed.

Lemma Clean_nonempty s : filepath.Clean s ≠ "".
Proof.
  unfold filepath.Clean. destruct (String.eqb s ""); [done|].
  destruct (os.rooted s); [done|].
  assert (Forall proper (rev (filepath.clean_loop false (os.elements s) [] 0))) as Hall.
  { apply Forall_rev, clean_loop_proper; [apply elements_all_no_separator|done]. }
  destruct (rev (filepath.clean_loop false (os.elements s) [] 0)) as [|x xs] eqn:Hout;
    [done|].
  by apply join_proper.
Qed.

Lemma Join_nonempty e rest : e ≠ "" → filepath.Join (e :: rest) ≠ "".
Proof.
  intros He%String.eqb_neq. unfold filepath.Join. rewrite He. apply Clean_nonempty.
Qed.

Lemma string_length_app a b :
  String.length (a +:+ b) = String.length a + String.length b.
Proof. induction a as [|c a IH]; simpl; [done|]. by rewrite IH. Qed.

Lemma clean_loop_shape r es top k :
  Forall (λ e, no_separator e = true) es →
  Forall (λ e, valid_name e = true) top →
  (r = true → k = 0) →
  ∃ top' k',
    filepath.clean_loop r es (top ++ replicate k "..") k = top' ++ replicate k' ".." ∧
    Forall (λ e, valid_name e = true) top' ∧ (r = true → k' = 0).
Proof.
  revert top k. induction es as [|e es IH]; intros top k Hes Htop Hr; simpl.
  { by exists top, k. }
  inversion Hes as [|? ? He Hes']; subst.
  destruct (String.eqb_spec e "") as [|Hne]; [by apply IH|].
  destruct (String.eqb_spec e ".") as [|Hnd]; [by apply IH|].
  destruct (String.eqb_spec e "..") as [->|Hdd].
  - rewrite length_app, length_replicate.
    destruct top as [|t top].
    + simpl. replace (k <? k)%nat with false by (symmetry; apply Nat.ltb_ge; lia).
      destruct r; simpl.
      * by apply (IH [] k).
      * apply (IH [] (S k)); by try constructor.
    + simpl. replace (k <? S (length top + k))%nat with true
        by (symmetry; apply Nat.ltb_lt; lia).
      inversion Htop; subst. by apply IH.
  - apply (IH (e :: top) k); try done.
    constructor; [|done]. by apply valid_name_spec.
Qed.

Lemma clean_loop_dots k rest j :
  filepath.clean_loop false (replicate k ".." ++ rest) (replicate j "..") j
  = filepath.clean_loop false rest (replicate (j + k) "..") (j + k).
Proof.
  revert j. induction k as [|k IH]; intros j; simpl.
  - by rewrite Nat.add_0_r.
  - rewrite length_replicate.
    replace (j <? j)%nat with false by (symmetry; apply Nat.ltb_ge; lia).
    simpl. etrans; [apply (IH (S j))|]. by rewrite Nat.add_succ_r.
Qed.

Lemma clean_loop_names r top out k :
  Forall (λ e, valid_name e = true) top →
  filepath.clean_loop r (rev top) out k = top ++ out.
Proof.
  induction 1 as [|t top Ht _ IH]; [done|].
  simpl. by rewrite clean_loop_snoc, IH.
Qed.

(** Cleaning what [Clean] built gives it back. *)
Lemma clean_loop_cleaned r top k :
  Forall (λ e, valid_name e = true) top → (r = true → k = 0) →
  filepath.clean_loop r (rev (top ++ replicate k "..")) [] 0 = top ++ replicate k "..".
Proof.
  intros Htop Hr. rewrite rev_app_distr.
  assert (rev (replicate k "..") = replicate k ("..":string)) as ->.
  { clear. induction k as [|k IH]; [done|]. simpl. by rewrite IH, <-replicate_cons_app. }
  destruct r.
  - rewrite Hr by done. simpl. by rewrite clean_loop_names, app_nil_r.
  - etrans; [apply (clean_loop_dots k (rev top) 0)|]. simpl. by apply clean_loop_names.
Qed.

Lemma valid_names_proper top k :
  Forall (λ e, valid_name e = true) top →
  Forall proper (rev (top ++ replicate k "..")).
Proof.
  intros Htop. apply Forall_rev, Forall_app. split.
  - eapply Forall_impl; [exact Htop|]. intros ?. apply valid_name_proper.
  - apply Forall_replicate. by split.
Qed.

(** [Clean] is idempotent. *)
Lemma Clean_idempotent s : filepath.Clean (filepath.Clean s) = filepath.Clean s.
Proof.
  unfold filepath.Clean at 2 3.
  destruct (String.eqb s ""); [done|].
  destruct (clean_loop_shape (os.rooted s) (os.elements s) [] 0)
    as (top & k & HC & Htop & Hk);
    [apply elements_all_no_separator|done|done|].
  simpl in HC. rewrite HC. clear HC.
  pose proof (valid_names_proper top k Htop) as Hproper.
  pose proof (clean_loop_cleaned (os.rooted s) top k Htop Hk) as Hclean.
  remember (rev (top ++ replicate k "..")) as xs eqn:Hdef.
  destruct (os.rooted s) eqn:Hr.
  - unfold filepath.Clean. simpl os.rooted. simpl String.eqb. cbn match.
    change (os.elements (String filepath.Separator (strings.Join xs "/")))
      with ("" :: os.elements (strings.Join xs "/")).
    destruct (decide (xs = [])) as [->|Hne]; [done|].
    rewrite elements_join by (done || by apply proper_no_separator).
    simpl filepath.clean_loop. by rewrite Hclean, <-Hdef.
  - destruct (decide (xs = [])) as [->|Hne]; [done|].
    assert (match xs with [] => "." | _ :: _ => strings.Join xs "/" end
            = strings.Join xs "/") as -> by (by destruct xs).
    destruct (join_proper xs Hne Hproper) as [Hj1%String.eqb_neq Hj2].
    unfold filepath.Clean. rewrite Hj1, Hj2.
    rewrite elements_join by (done || by apply proper_no_separator).
    rewrite Hclean, <-Hdef. by destruct xs.
Qed.

Lemma Join_clean path name :
  path ≠ "" → filepath.Clean (filepath.Join [path; name]) = filepath.Join [path; name].
Proof.
  intros Hpath%String.eqb_neq. unfold filepath.Join. rewrite Hpath.
  apply Clean_idempotent.
Qed.

End paths.

(** ** Directory entries and trees *)

Section trees.

Lemma entry_get_Some {A} name (es : list (string * A)) a :
  entry_get name es = Some a → (name, a) ∈ es.
Proof.
  induction es as [|[n b] es IH]; simpl; [done|].
  destruct (String.eqb_spec n name) as [->|_].
  - intros [= ->]. apply list_elem_of_here.
  - intros H. apply list_elem_of_further. auto.
Qed.

Lemma entry_get_None {A} name (es : list (string * A)) :
  entry_get name es = None ↔ name ∉ map fst es.
Proof.
  induction es as [|[n b] es IH]; simpl.
  - split; [intros _; apply not_elem_of_nil|done].
  - rewrite not_elem_of_cons. destruct (String.eqb_spec n name) as [->|Hne].
    + split; [done|]. by intros [? _].
    + rewrite IH. split; [by split|by intros [_ ?]].
Qed.

Lemma entry_get_head {A} name (a : A) es :
  entry_get name ((name, a) :: es) = Some a.
Proof. simpl. by rewrite String.eqb_refl. Qed.

Lemma entry_get_NoDup {A} name (a : A) es :
  NoDup (map fst es) → (name, a) ∈ es → entry_get name es = Some a.
Proof.
  induction es as [|[n b] es IH]; simpl.
  - intros _ H. by apply elem_of_nil in H.
  - intros [Hn Hnd]%NoDup_cons [Heq|Hin]%elem_of_cons.
    + injection Heq as -> ->. by rewrite String.eqb_refl.
    + destruct (String.eqb_spec n name) as [->|_]; [|by apply IH].
      exfalso. apply Hn. apply list_elem_of_fmap. by exists (name, a).
Qed.

Lemma tree_lookup_app l l' n :
  tree_lookup (l ++ l') n =
  match tree_lookup l n with
  | Found m => tree_lookup l' m
  | r => r
  end.
Proof.
  revert n. induction l as [|name l IH]; intros n; simpl; [done|].
  destruct n as [|es|]; [done| |done]. by destruct (entry_get name es).
Qed.

Lemma tree_lookup_child l name d es :
  tree_lookup l d = Found (Dir es) →
  tree_lookup (l ++ [name]) d =
  match entry_get name es with Some ch => Found ch | None => Missing end.
Proof. intros H. rewrite tree_lookup_app, H. simpl. by destruct (entry_get name es). Qed.

Lemma forallb_Forall {A} (f : A → bool) l :
  forallb f l = true ↔ Forall (λ x, f x = true) l.
Proof.
  induction l as [|x l IH]; simpl.
  - split; [by constructor|done].
  - by rewrite andb_true_iff, IH, Forall_cons.
Qed.

Lemma wf_node_Dir es :
  wf_node (Dir es) = true ↔
  Forall (λ n, valid_name n = true) (map fst es) ∧ NoDup (map fst es)
  ∧ Forall (λ e, wf_node e.2 = true) es.
Proof.
  simpl. rewrite !andb_true_iff, bool_decide_eq_true.
  rewrite forallb_Forall.
  assert ((fix go (es : list (string * node)) : bool :=
             match es with
             | [] => true
             | (_, ch) :: es' => wf_node ch && go es'
             end) es = true ↔ Forall (λ e, wf_node e.2 = true) es) as ->.
  { induction es as [|[n ch] es IH]; simpl.
    - split; [by constructor|done].
    - rewrite andb_true_iff, IH, Forall_cons. done. }
  tauto.
Qed.

Lemma wf_node_child es name ch :
  wf_node (Dir es) = true → entry_get name es = Some ch →
  valid_name name = true ∧ wf_node ch = true.
Proof.
  intros (Hv & _ & Hwf)%wf_node_Dir Hget%entry_get_Some. split.
  - rewrite Forall_forall in Hv. apply Hv. apply list_elem_of_fmap. by exists (name, ch).
  - rewrite Forall_forall in Hwf. by apply (Hwf (name, ch)).
Qed.

Lemma wf_node_lookup l d n :
  wf_node d = true → tree_lookup l d = Found n → wf_node n = true.
Proof.
  revert d. induction l as [|name l IH]; intros d Hwf; simpl.
  - by intros [= <-].
  - destruct d as [|es|]; [done| |done].
    destruct (entry_get name es) as [ch|] eqn:Hget; [|done].
    apply IH. by eapply wf_node_child.
Qed.

Lemma depth_Dir es :
  depth (Dir es) = S (foldr (λ e acc, Nat.max (depth e.2) acc) 0 es).
Proof.
  simpl. f_equal. induction es as [|[n ch] es IH]; simpl; [done|]. by rewrite IH.
Qed.

Lemma depth_child es name ch :
  entry_get name es = Some ch → depth ch < depth (Dir es).
Proof.
  intros Hget%entry_get_Some. rewrite depth_Dir.
  induction es as [|[n b] es IH]; [by apply elem_of_nil in Hget|].
  apply elem_of_cons in Hget as [[= <- <-]|Hin]; simpl; [lia|].
  specialize (IH Hin). lia.
Qed.

Lemma depth_lookup l d n : tree_lookup l d = Found n → depth n ≤ depth d.
Proof.
  revert d. induction l as [|name l IH]; intros d; simpl.
  - by intros [= <-].
  - destruct d as [|es|]; [done| |done].
    destruct (entry_get name es) as [ch|] eqn:Hget; [|done].
    intros H%IH. pose proof (depth_child _ _ _ Hget). lia.
Qed.

Lemma depth_pos n : 1 ≤ depth n.
Proof. destruct n; simpl; lia. Qed.

Lemma files_under_Dir path es :
  files_under path (Dir es) =
  es ≫= (λ e, files_under (filepath.Join [path; e.1]) e.2).
Proof.
  simpl. induction es as [|[n ch] es IH]; simpl; [done|]. by rewrite IH.
Qed.

End trees.

(** ** Computations *)

Lemma bind_unfold {A B} (m : M A) (f : A → M B) w :
  (m ≫= f) w =
  match m w with
  | (Ret a, w') => f a w'
  | (Panic msg, w') => (Panic msg, w')
  | (NoReturn, w') => (NoReturn, w')
  end.
Proof. reflexivity. Qed.

Lemma chan_ops_open w ch ops : chans w !! ch = Some ops → chan_ops w ch = ops.
Proof. unfold chan_ops. by intros ->. Qed.

Lemma add_sends_nil ch w : chan_open w ch → add_sends ch [] w = w.
Proof.
  intros (ops & Hops & _). destruct w. unfold add_sends, set_chans, chan_ops in *.
  simpl in *. by rewrite Hops, app_nil_r, insert_id.
Qed.

Lemma add_sends_app ch s1 s2 w :
  add_sends ch s2 (add_sends ch s1 w) = add_sends ch (s1 ++ s2) w.
Proof.
  unfold add_sends, set_chans, chan_ops. simpl.
  by rewrite lookup_insert_eq, insert_insert_eq, map_app, app_assoc.
Qed.

Lemma chan_closed_sends ops sent :
  chan_closed ops = false → chan_closed (ops ++ map Send sent) = false.
Proof.
  unfold chan_closed. rewrite !bool_decide_eq_false.
  intros Hw [H|H]%elem_of_app; [done|].
  apply list_elem_of_fmap in H as (? & ? & _). done.
Qed.

Lemma chan_open_add_sends ch s w : chan_open w ch → chan_open (add_sends ch s w) ch.
Proof.
  intros (ops & Hops & Hopen). exists (ops ++ map Send s).
  unfold add_sends, chan_ops. simpl. rewrite Hops, lookup_insert_eq.
  split; [done|]. by apply chan_closed_sends.
Qed.

Lemma chan_send_open ch s w :
  chan_open w ch → chan_send ch s w = (Ret (), add_sends ch [s] w).
Proof.
  intros (ops & Hops & Hopen). unfold chan_send, add_sends, chan_ops.
  by rewrite Hops, Hopen.
Qed.

(** ** Slices *)

Lemma slice_from_spec s n :
  slice_from s n =
  if decide (n ≤ String.length s)
  then Some (String.string_of_list_ascii (drop n (String.list_ascii_of_string s)))
  else None.
Proof.
  revert n. induction s as [|c s IH]; intros [|n]; simpl; try done.
  - by rewrite String.string_of_list_ascii_of_string.
  - rewrite IH. repeat case_decide; try done; lia.
Qed.

Lemma slice_from_app a b : slice_from (a +:+ b) (String.length a) = Some b.
Proof. induction a as [|c a IH]; simpl; [by destruct b|done]. Qed.

(** ** The filters *)

Lemma passes_spec filters file :
  fs.passes filters file = true ↔ ∀ p, p ∈ filters → p file = true.
Proof.
  induction filters as [|p filters IH]; simpl.
  - split; [|done]. intros _ ? H. by apply elem_of_nil in H.
  - destruct (p file) eqn:Hp; simpl.
    + rewrite IH. split.
      * intros H q [->|?]%elem_of_cons; auto.
      * intros H q ?. apply H. by apply list_elem_of_further.
    + split; [done|]. intros H. rewrite <-Hp. apply H, list_elem_of_here.
Qed.

Lemma passes_Permutation filters filters' file :
  filters ≡ₚ filters' → fs.passes filters file = fs.passes filters' file.
Proof.
  intros Hperm. apply eq_true_iff_eq. rewrite !passes_spec.
  by setoid_rewrite Hperm.
Qed.

(** ** Cleaned roots *)

Lemma join_snoc xs n :
  xs ≠ [] →
  strings.Join (xs ++ [n]) "/" = strings.Join xs "/" +:+ String os.PathSeparator n.
Proof.
  unfold strings.Join. induction xs as [|x xs IH]; [done|]. intros _.
  destruct xs as [|y ys]; [done|].
  change (String.concat "/" ((x :: y :: ys) ++ [n]))
    with (x +:+ String os.PathSeparator (String.concat "/" ((y :: ys) ++ [n]))).
  rewrite IH by done.
  change (String.concat "/" (x :: y :: ys))
    with (x +:+ String os.PathSeparator (String.concat "/" (y :: ys))).
  generalize (String.concat "/" (y :: ys)). intros t.
  clear. induction x as [|c x IH]; [done|].
  change (String c x +:+ ?s) with (String c (x +:+ s)). by rewrite IH.
Qed.

(** The path of an entry is at least as long as the path of its
    directory, when that one is clean. *)
Lemma Join_length path name :
  filepath.Clean path = path → valid_name name = true →
  String.length path ≤ String.length (filepath.Join [path; name]).
Proof.
  intros Hclean Hname.
  assert (path ≠ "") as Hpath by (rewrite <-Hclean; apply Clean_nonempty).
  apply String.eqb_neq in Hpath as Hpath'.
  pose proof Hname as (Hne & _ & _ & Hsep)%valid_name_spec.
  assert (1 ≤ String.length name) as Hlen by (destruct name; [done|simpl; lia]).
  assert (filepath.Join [path; name]
          = filepath.Clean (path +:+ String os.PathSeparator name)) as ->
    by (unfold filepath.Join; by rewrite Hpath').
  rewrite <-Hclean at 1. unfold filepath.Clean. rewrite Hpath'.
  assert (String.eqb (path +:+ String os.PathSeparator name) "" = false) as ->
    by (by destruct path).
  assert (os.rooted (path +:+ String os.PathSeparator name) = os.rooted path) as ->
    by (by destruct path).
  rewrite elements_app_sep, (elements_no_separator name), clean_loop_snoc by done.
  simpl rev.
  generalize (rev (filepath.clean_loop (os.rooted path) (os.elements path) [] 0)).
  intros xs. destruct (decide (xs = [])) as [->|Hxs].
  - destruct (os.rooted path); simpl; lia.
  - rewrite join_snoc by done.
    assert (match xs ++ [name] with
            | [] => "."
            | _ :: _ => strings.Join xs "/" +:+ String os.PathSeparator name
            end = strings.Join xs "/" +:+ String os.PathSeparator name) as ->
      by (by destruct xs).
    assert (match xs with [] => "." | _ :: _ => strings.Join xs "/" end
            = strings.Join xs "/") as -> by (by destruct xs).
    destruct (os.rooted path); simpl; rewrite string_length_app; simpl; lia.
Qed.

Lemma files_under_length n : ∀ T path,
  depth T ≤ n → filepath.Clean path = path → wf_node T = true →
  ∀ f, f ∈ files_under path T → String.length path ≤ String.length f.
Proof.
  induction n as [|n IH]; intros T path Hdepth Hclean Hwf f Hf.
  { pose proof (depth_pos T). lia. }
  destruct T as [c|es|].
  - apply list_elem_of_singleton in Hf as ->. done.
  - rewrite files_under_Dir in Hf.
    apply list_elem_of_bind in Hf as ([name ch] & Hf & Hin).
    pose proof Hwf as (_ & Hnd & _)%wf_node_Dir.
    pose proof (entry_get_NoDup _ _ _ Hnd Hin) as Hget.
    destruct (wf_node_child _ _ _ Hwf Hget) as [Hname Hwfch].
    pose proof (depth_child _ _ _ Hget).
    assert (path ≠ "") as Hpath by (rewrite <-Hclean; apply Clean_nonempty).
    etrans; [by apply (Join_length path name)|].
    apply (IH ch); try done; [lia|by apply Join_clean].
  - apply list_elem_of_singleton in Hf as ->. done.
Qed.

(** A root passed cleaned puts every slice in range. *)
Lemma clean_root_in_range root filters T :
  filepath.Clean root = root → wf_node T = true → strip_in_range root filters T.
Proof.
  intros Hclean Hwf f Hf _. unfold emitted_path.
  destruct (String.eqb root "."); [done|].
  rewrite slice_from_spec, decide_True; [done|].
  by eapply files_under_length.
Qed.

(** ** The walk of StreamFiles *)

Section stream.
Context (root : string) (files : chan) (filters : list (string → bool)).

Lemma stream_error file info e w :
  fs.stream root files filters file info (Some e) w = (Ret (Some e), w).
Proof. done. Qed.

Lemma stream_directory file w :
  fs.stream root files filters file (Some {| IsDir := true |}) None w = (Ret None, w).
Proof. done. Qed.

Lemma stream_file file w :
  chan_open w files →
  fs.stream root files filters file (Some {| IsDir := false |}) None w =
  if fs.passes filters file then
    match emitted_path root file with
    | Some s => (Ret None, add_sends files [s] w)
    | None => (Panic "slice bounds out of range", w)
    end
  else (Ret None, w).
Proof.
  intros Hopen. unfold fs.stream, emitted_path. simpl.
  destruct (fs.passes filters file); simpl; [|done].
  destruct (String.eqb root ".").
  - rewrite bind_unfold, chan_send_open by done. done.
  - destruct (slice_from file (String.length root)); [|done].
    rewrite bind_unfold, chan_send_open by done. done.
Qed.

Lemma stream_post_error fs w e :
  chan_open w files → ¬ readable w →
  stream_post root files filters fs w (Ret (Some e), w).
Proof.
  intros Hopen Hnr. exists (Ret (Some e)), []. rewrite add_sends_nil by done.
  split_and!; try done.
  intros ? H. by apply elem_of_nil in H.
Qed.

Lemma stream_post_nil w :
  chan_open w files → stream_post root files filters [] w (Ret None, w).
Proof.
  intros Hopen. exists (Ret None), []. rewrite add_sends_nil by done.
  split_and!; try done.
  - intros ? H. by apply elem_of_nil in H.
  - intros _ _. split; [done|]. intros ? ? H. by apply elem_of_nil in H.
Qed.

Lemma stream_post_file file w :
  chan_open w files →
  stream_post root files filters [file] w
    (fs.stream root files filters file (Some {| IsDir := false |}) None w).
Proof.
  intros Hopen. rewrite stream_file by done.
  destruct (fs.passes filters file) eqn:Hpass.
  - destruct (emitted_path root file) as [s|] eqn:Hem.
    + exists (Ret None), [s]. split_and!; try done.
      * intros s' ->%list_elem_of_singleton. exists file.
        by rewrite list_elem_of_singleton.
      * intros _ _. split; [done|].
        intros f s' ->%list_elem_of_singleton _ Hs.
        rewrite Hem in Hs. injection Hs as <-. by apply list_elem_of_singleton.
    + exists (Panic "slice bounds out of range"), []. rewrite add_sends_nil by done.
      split_and!; try done.
      * intros ? H. by apply elem_of_nil in H.
      * intros _ _. exists file. by rewrite list_elem_of_singleton.
      * intros _ Hrange. destruct (Hrange file) as [? Hs]; try done.
        -- by apply list_elem_of_singleton.
        -- by rewrite Hem in Hs.
  - exists (Ret None), []. rewrite add_sends_nil by done.
    split_and!; try done.
    + intros ? H. by apply elem_of_nil in H.
    + intros _ _. split; [done|].
      intros f s' ->%list_elem_of_singleton Hp. by rewrite Hpass in Hp.
Qed.

(** The files of the post-condition only matter as a set. *)
Lemma stream_post_equiv fs fs' w res :
  (∀ f, f ∈ fs ↔ f ∈ fs') →
  stream_post root files filters fs w res → stream_post root files filters fs' w res.
Proof.
  intros Heq (r & sent & -> & Hoof & Hsound & Hpanic & Hcomplete).
  exists r, sent. split_and!; try done.
  - intros s (f & ? & ?)%Hsound. exists f. by rewrite <-Heq.
  - intros msg (f & ? & ?)%Hpanic. exists f. by rewrite <-Heq.
  - intros Hr Hrange. destruct Hcomplete as [-> Hc]; [done| |].
    + intros f ?%Heq. by apply Hrange.
    + split; [done|]. intros f s ?%Heq. by apply Hc.
Qed.

(** Sequencing: a walk over [fs1], then, unless its error ends the
    walk, a walk over [fs2]. *)
Lemma stream_post_bind fs1 fs2 w (m : M (option error))
    (k : option error → M (option error)) :
  stream_post root files filters fs1 w (m w) →
  (∀ a s, m w = (Ret a, add_sends files s w) →
          (a ≠ None ∧ k a (add_sends files s w) = (Ret a, add_sends files s w)) ∨
          stream_post root files filters fs2 (add_sends files s w) (k a (add_sends files s w))) →
  stream_post root files filters (fs1 ++ fs2) w ((m ≫= k) w).
Proof.
  intros (r1 & s1 & Hm & Hoof1 & Hsound1 & Hpanic1 & Hcomplete1) Hk.
  rewrite bind_unfold, Hm.
  assert (∀ s, s ∈ s1 → ∃ f, f ∈ fs1 ++ fs2 ∧ fs.passes filters f = true
                             ∧ emitted_path root f = Some s) as Hsound1'.
  { intros s (f & ? & ?)%Hsound1. exists f. rewrite elem_of_app. auto. }
  assert (readable w →
          (∀ f, f ∈ fs1 ++ fs2 → fs.passes filters f = true →
                is_Some (emitted_path root f)) →
          r1 = Ret None ∧
          ∀ f s, f ∈ fs1 → fs.passes filters f = true →
                 emitted_path root f = Some s → s ∈ s1) as Hcomplete1'.
  { intros Hr Hrange. apply Hcomplete1; [done|].
    intros f Hf. apply Hrange. rewrite elem_of_app. auto. }
  destruct r1 as [a|msg|]; [|clear Hk|done].
  - destruct (Hk a s1 Hm) as [[Ha ->]|(r2 & s2 & -> & Hoof2 & Hsound2 & Hpanic2 & Hcomplete2)].
    + exists (Ret a), s1. split_and!; try done.
      intros Hr Hrange. destruct (Hcomplete1' Hr Hrange) as [[= ->] _]. done.
    + exists r2, (s1 ++ s2). rewrite add_sends_app. split_and!; try done.
      * intros s [?|(f & ? & ?)%Hsound2]%elem_of_app; [by apply Hsound1'|].
        exists f. rewrite elem_of_app. auto.
      * intros msg (f & ? & ?)%Hpanic2. exists f. rewrite elem_of_app. auto.
      * intros Hr Hrange. destruct (Hcomplete1' Hr Hrange) as [_ Hc1].
        destruct Hcomplete2 as [-> Hc2]; [done| |].
        { intros f Hf. apply Hrange. rewrite elem_of_app. auto. }
        split; [done|]. intros f s [Hf|Hf]%elem_of_app Hp He; rewrite elem_of_app.
        -- left. by eapply Hc1.
        -- right. by eapply Hc2.
  - exists (Panic msg), s1. split_and!; try done.
    + intros msg' _. destruct (Hpanic1 msg eq_refl) as (f & ? & ?).
      exists f. rewrite elem_of_app. auto.
    + intros Hr Hrange. by destruct (Hcomplete1' Hr Hrange) as [? _].
Qed.

Lemma Lstat_child w path l es name :
  os.locate w path = Some l →
  tree_lookup l (disk w) = Found (Dir es) →
  valid_name name = true →
  os.Lstat (filepath.Join [path; name]) w =
  (Ret match entry_get name es with
       | Some ch =>
           match faults w ReqStat (l ++ [name]) with
           | Some f => inr (PathError "lstat" (filepath.Join [path; name]) (Failure f))
           | None => inl (os.info_of ch)
           end
       | None => inr (PathError "lstat" (filepath.Join [path; name]) ENOENT)
       end, w).
Proof.
  intros Hloc Hdir Hname. unfold os.Lstat, get, os.stat_of.
  rewrite (locate_Join _ _ _ _ Hname Hloc), (tree_lookup_child _ _ _ _ Hdir).
  by destruct (entry_get name es).
Qed.

(** The loop of [walk] over the names of the directory [es] at [path],
    [rec] behaving on every entry as the post-condition says. *)
Lemma walk_names_stream rec w0 path l es :
  os.locate w0 path = Some l →
  tree_lookup l (disk w0) = Found (Dir es) →
  wf_node (Dir es) = true →
  chan_open w0 files →
  (∀ name ch s, entry_get name es = Some ch →
     stream_post root files filters (files_under (filepath.Join [path; name]) ch)
       (add_sends files s w0)
       (rec (filepath.Join [path; name]) (os.info_of ch) (add_sends files s w0))) →
  ∀ names s, names ⊆ map fst es →
    stream_post root files filters (names ≫= below path es) (add_sends files s w0)
      (filepath.walk_names rec (fs.stream root files filters) path names (add_sends files s w0)).
Proof.
  intros Hloc Hdir Hwf Hopen Hrec names.
  induction names as [|name names IH]; intros s Hsub.
  - by apply stream_post_nil, chan_open_add_sends.
  - assert (name ∈ map fst es) as Hname by (apply Hsub, list_elem_of_here).
    assert (names ⊆ map fst es) as Hsub'
      by (intros x Hx; apply Hsub; by apply list_elem_of_further).
    destruct (entry_get name es) as [ch|] eqn:Hget;
      [|by apply entry_get_None in Hget].
    destruct (wf_node_child _ _ _ Hwf Hget) as [Hvalid Hwfch].
    change ((name :: names) ≫= below path es)
      with (below path es name ++ (names ≫= below path es)).
    cbn [filepath.walk_names]. rewrite bind_unfold.
    rewrite (Lstat_child (add_sends files s w0) path l es name) by done.
    rewrite Hget. cbn [faults add_sends set_chans].
    destruct (faults w0 ReqStat (l ++ [name])) as [f|] eqn:Hfault.
    + rewrite bind_unfold, stream_error. simpl.
      apply stream_post_error; [by apply chan_open_add_sends|].
      intros Hr. destruct (Hr (l ++ [name])) as [Hr' _].
      simpl in Hr'. congruence.
    + unfold below at 1. rewrite Hget.
      apply stream_post_bind; [by apply Hrec|].
      intros a s1 _. rewrite add_sends_app.
      destruct a as [e'|]; [|right; by apply IH].
      destruct (negb (IsDir (os.info_of ch)) || bool_decide (e' ≠ SkipDir)).
      * left. done.
      * right. by apply IH.
Qed.

Lemma below_files_under path es f :
  NoDup (map fst es) →
  f ∈ map fst es ≫= below path es ↔ f ∈ files_under path (Dir es).
Proof.
  intros Hnd. rewrite files_under_Dir, !list_elem_of_bind.
  split.
  - intros (name & Hf & Hname). unfold below in Hf.
    destruct (entry_get name es) as [ch|] eqn:Hget;
      [|by apply elem_of_nil in Hf].
    exists (name, ch). split; [done|]. by apply entry_get_Some.
  - intros ([name ch] & Hf & Hin).
    exists name. split.
    + unfold below. by rewrite (entry_get_NoDup _ _ _ Hnd Hin).
    + apply list_elem_of_fmap. by exists (name, ch).
Qed.

Lemma readDirNames_dir w path l es :
  os.locate w path = Some l →
  tree_lookup l (disk w) = Found (Dir es) →
  filepath.readDirNames path w =
  (Ret match faults w ReqReadDir l with
       | Some f => inr (PathError "open" path (Failure f))
       | None => inl (merge_sort filepath.string_le (map fst es))
       end, w).
Proof.
  intros Hloc Hdir. unfold filepath.readDirNames.
  rewrite bind_unfold. unfold os.Readdirnames, get. rewrite Hloc, Hdir.
  by destruct (faults w ReqReadDir l).
Qed.

(** The walk of [StreamFiles] over the tree [n] found at [path]. *)
Lemma walk_stream fuel : ∀ path l n w,
  wf_node n = true →
  os.locate w path = Some l →
  tree_lookup l (disk w) = Found n →
  depth n ≤ fuel →
  chan_open w files →
  stream_post root files filters (files_under path n) w
    (filepath.walk fuel path (os.info_of n) (fs.stream root files filters) w).
Proof.
  induction fuel as [|fuel IH]; intros path l n w Hwf Hloc Hn Hfuel Hopen.
  { pose proof (depth_pos n). lia. }
  destruct n as [content|es|]; cbn [filepath.walk os.info_of IsDir negb].
  - by apply stream_post_file.
  - rewrite bind_unfold, (readDirNames_dir w path l es) by done.
    destruct (faults w ReqReadDir l) as [f|] eqn:Hfault.
    + rewrite bind_unfold, stream_error. apply stream_post_error; [done|].
      intros Hr. destruct (Hr l) as [_ Hr']. congruence.
    + rewrite bind_unfold, stream_directory.
      apply wf_node_Dir in Hwf as Hwf'. destruct Hwf' as (_ & Hnd & _).
      eapply stream_post_equiv; [intros f; by apply below_files_under|].
      apply (stream_post_equiv
               (merge_sort filepath.string_le (map fst es) ≫= below path es)).
      { intros f. rewrite !list_elem_of_bind.
        by setoid_rewrite (merge_sort_Permutation filepath.string_le (map fst es)). }
      rewrite <-(add_sends_nil files w) by done.
      eapply (walk_names_stream _ w path l es); try done.
      * intros name ch s Hget.
        destruct (wf_node_child _ _ _ Hwf Hget) as [Hvalid Hwfch].
        apply (IH _ (l ++ [name])); try done.
        -- by apply locate_Join.
        -- cbn [disk add_sends set_chans].
           by rewrite (tree_lookup_child _ _ _ _ Hn), Hget.
        -- pose proof (depth_child _ _ _ Hget). lia.
        -- by apply chan_open_add_sends.
      * intros x. by rewrite merge_sort_Permutation.
  - by apply stream_post_file.
Qed.

Lemma exists_on_disk_spec w path :
  exists_on_disk w path = true ↔
  ∃ l, os.locate w path = Some l ∧ tree_lookup l (disk w) ≠ Missing.
Proof.
  unfold exists_on_disk, os.stat_of.
  destruct (os.locate w path) as [l|]; simpl.
  - destruct (tree_lookup l (disk w)) eqn:Hl; simpl.
    + split; [intros _; exists l; by rewrite Hl|].
      intros _. by destruct (faults w ReqStat l).
    + split; [done|]. intros (? & [= <-] & ?). congruence.
    + split; [|done]. intros _. exists l. by rewrite Hl.
  - split; [done|]. by intros (? & ? & _).
Qed.

Lemma tree_at_exists w path n :
  tree_at w path = Some n → exists_on_disk w path = true.
Proof.
  unfold tree_at. intros H. apply exists_on_disk_spec.
  destruct (os.locate w path) as [l|]; [|done]. exists l. split; [done|].
  by destruct (tree_lookup l (disk w)).
Qed.

(** [filepath.Walk] with the function of [StreamFiles], from a root that
    is there. *)
Lemma Walk_stream w n :
  wf_node (disk w) = true → chan_open w files → tree_at w root = Some n →
  stream_post root files filters (files_under root n) w
    (filepath.Walk root (fs.stream root files filters) w).
Proof.
  intros Hwf Hopen Hat. unfold tree_at in Hat.
  destruct (os.locate w root) as [l|] eqn:Hloc; [|done].
  destruct (tree_lookup l (disk w)) as [n'| |] eqn:Hn; try done.
  injection Hat as ->.
  unfold filepath.Walk. rewrite bind_unfold.
  unfold os.Lstat, get, os.stat_of. rewrite Hloc, Hn.
  destruct (faults w ReqStat l) as [f|] eqn:Hfault.
  - rewrite bind_unfold, stream_error. simpl.
    apply stream_post_error; [done|].
    intros Hr. destruct (Hr l) as [Hr' _]. congruence.
  - rewrite !bind_unfold.
    pose proof (walk_stream (depth (disk w)) root l n w
                  (wf_node_lookup _ _ _ Hwf Hn) Hloc Hn (depth_lookup _ _ _ Hn) Hopen)
      as (r & sent & -> & Hoof & Hsound & Hpanic & Hcomplete).
    destruct r as [a|msg|]; [|by exists (Panic msg), sent|done].
    destruct (bool_decide (a = Some SkipDir)) eqn:Ha.
    + exists (Ret None), sent. split_and!; try done.
      intros Hr Hrange. by destruct (Hcomplete Hr Hrange) as [_ ?].
    + by exists (Ret a), sent.
Qed.

(** A root that exists without being a tree: a path through a file.
    The walk reports the error of [Lstat]. *)
Lemma Walk_stream_no_tree w :
  tree_at w root = None →
  ∃ e, filepath.Walk root (fs.stream root files filters) w = (Ret (Some e), w).
Proof.
  intros Hat. unfold tree_at in Hat.
  unfold filepath.Walk. rewrite bind_unfold.
  unfold os.Lstat, get, os.stat_of.
  destruct (os.locate w root) as [l|] eqn:Hloc.
  - destruct (tree_lookup l (disk w)) as [n'| |] eqn:Hn; try done;
      rewrite bind_unfold, stream_error; simpl; eauto.
  - rewrite bind_unfold, stream_error. simpl. eauto.
Qed.

Lemma chan_close_open w :
  chan_open w files → chan_close files w = (Ret (), closed files w).
Proof.
  intros (ops & Hops & Hopen). unfold chan_close, closed, chan_ops.
  by rewrite Hops, Hopen.
Qed.

(** [StreamFiles] on a root that does not exist. *)
Lemma StreamFiles_not_exist w :
  chan_open w files → exists_on_disk w root = false →
  fs.StreamFiles root files filters w = (Ret None, closed files w).
Proof.
  intros Hopen Hex. unfold fs.StreamFiles. rewrite bind_unfold.
  unfold os.Stat, get. unfold exists_on_disk in Hex.
  apply negb_false_iff in Hex. rewrite Hex.
  by rewrite bind_unfold, chan_close_open.
Qed.

(** [StreamFiles] on a root that exists, from the result of its walk. *)
Lemma StreamFiles_exists w r sent :
  chan_open w files → exists_on_disk w root = true →
  filepath.Walk root (fs.stream root files filters) w = (r, add_sends files sent w) →
  fs.StreamFiles root files filters w =
  match r with
  | Ret err => (Ret err, finished files err sent w)
  | Panic msg => (Panic msg, add_sends files sent w)
  | NoReturn => (NoReturn, add_sends files sent w)
  end.
Proof.
  intros Hopen Hex HWalk. unfold fs.StreamFiles. rewrite bind_unfold.
  unfold os.Stat, get. unfold exists_on_disk in Hex.
  apply negb_true_iff in Hex. rewrite Hex.
  rewrite bind_unfold, HWalk. destruct r as [err|msg|]; try done.
  rewrite bind_unfold. unfold modify. rewrite bind_unfold.
  rewrite chan_close_open.
  - unfold finished, closed, add_sends, set_chans, set_ErrStreaming, chan_ops.
    simpl. rewrite lookup_insert_eq, insert_insert_eq. simpl.
    by rewrite <-app_assoc.
  - apply (chan_open_add_sends files sent) in Hopen. exact Hopen.
Qed.

End stream.

(** ** StreamFiles *)

Lemma chan_ops_add_sends ch sent w :
  chan_ops (add_sends ch sent w) ch = chan_ops w ch ++ map Send sent.
Proof. unfold chan_ops at 1, add_sends. simpl. by rewrite lookup_insert_eq. Qed.

Lemma chan_ops_closed ch w : chan_ops (closed ch w) ch = chan_ops w ch ++ [Close].
Proof. unfold chan_ops at 1, closed. simpl. by rewrite lookup_insert_eq. Qed.

Lemma chan_ops_finished ch err sent w :
  chan_ops (finished ch err sent w) ch = chan_ops w ch ++ map Send sent ++ [Close].
Proof. unfold chan_ops at 1, finished. simpl. by rewrite lookup_insert_eq. Qed.

Lemma chan_open_ops w ch : chan_open w ch → chan_closed (chan_ops w ch) = false.
Proof. intros (ops & Hops & Hopen). by rewrite (chan_ops_open _ _ _ Hops). Qed.

Lemma closes_open_sends c sent :
  chan_closed c = false → closes (c ++ map Send sent ++ [Close]) = 1.
Proof.
  unfold chan_closed, closes. rewrite bool_decide_eq_false. intros Hc.
  rewrite !filter_app, !length_app.
  assert (filter (λ op, op = Close) c = []) as ->.
  { induction c as [|op c IH]; [done|].
    rewrite filter_cons. apply not_elem_of_cons in Hc as [? ?].
    rewrite decide_False by done. auto. }
  assert (filter (λ op, op = Close) (map Send sent) = []) as ->.
  { induction sent as [|s sent IH]; [done|]. simpl.
    rewrite filter_cons, decide_False by done. auto. }
  done.
Qed.

(** C4 as the specification states it, for every root that does not
    exist, fails on a root that is missing behind a regular file: nothing
    is at site/about.md/comments, but [Stat] fails there with ENOTDIR,
    which is not the error [os.IsNotExist] accepts, so the walk is started
    and the error of its [Lstat] is returned. *)
Lemma missing_root_behind_a_file_is_an_error :
  nothing_at site_world "site/about.md/comments" ∧
  os.Stat "site/about.md/comments" site_world
  = (Ret (inr (PathError "stat" "site/about.md/comments" ENOTDIR)), site_world) ∧
  fs.StreamFiles "site/about.md/comments" out [] site_world
  = (Ret (Some (PathError "lstat" "site/about.md/comments" ENOTDIR)),
     finished out (Some (PathError "lstat" "site/about.md/comments" ENOTDIR)) []
       site_world).
Proof. by vm_compute. Qed.

(** C4, amended: for every root of which [Stat] reports that it does not
    exist (with the error [os.IsNotExist] accepts, the test of fs.go),
    [StreamFiles] emits zero paths, closes the channel and returns a nil
    error; nothing else changes. *)
Theorem root_reported_missing_is_empty_result w root files filters e :
  chan_open w files →
  os.Stat root w = (Ret (inr e), w) → os.IsNotExist (Some e) = true →
  fs.StreamFiles root files filters w = (Ret None, closed files w).
Proof.
  intros Hopen Hstat He. unfold fs.StreamFiles.
  rewrite bind_unfold, Hstat. cbn [os.err_of]. rewrite He.
  by rewrite bind_unfold, chan_close_open.
Qed.

Lemma root_reported_missing_is_empty_result_witness :
  fs.StreamFiles "drafts" out [fs.MarkdownOnly] notes_world
  = (Ret None, closed out notes_world).
Proof.
  apply (root_reported_missing_is_empty_result notes_world "drafts" out
           [fs.MarkdownOnly] (PathError "stat" "drafts" ENOENT));
    [by exists []|reflexivity..].
Defined.

(** What [StreamFiles] does in every case: it always comes to an end; when
    it returns it has sent paths of files that pass and then closed the
    channel; it panics only on a slice out of range, having sent paths
    without closing. *)
Lemma StreamFiles_cases w root files filters :
  wf_node (disk w) = true → chan_open w files →
  ∃ r sent w',
    fs.StreamFiles root files filters w = (r, w') ∧
    r ≠ NoReturn ∧
    (∀ s, s ∈ sent → ∃ T f, tree_at w root = Some T ∧ f ∈ files_under root T ∧
                             fs.passes filters f = true ∧ emitted_path root f = Some s) ∧
    (∀ err, r = Ret err →
       chan_ops w' files = chan_ops w files ++ map Send sent ++ [Close]) ∧
    (∀ msg, r = Panic msg →
       chan_ops w' files = chan_ops w files ++ map Send sent ∧
       ∃ T f, tree_at w root = Some T ∧ f ∈ files_under root T ∧
              fs.passes filters f = true ∧ emitted_path root f = None).
Proof.
  intros Hwf Hopen.
  destruct (exists_on_disk w root) eqn:Hex.
  - destruct (tree_at w root) as [T|] eqn:Hat.
    + destruct (Walk_stream root files filters w T Hwf Hopen Hat)
        as (r & sent & HWalk & Hoof & Hsound & Hpanic & _).
      exists r, sent. rewrite (StreamFiles_exists _ _ _ _ _ _ Hopen Hex HWalk).
      destruct r as [err|msg|]; [| |done].
      * exists (finished files err sent w). split_and!; try done.
        -- intros s (f & ?)%Hsound. by exists T, f.
        -- intros _ _. apply chan_ops_finished.
      * exists (add_sends files sent w). split_and!; try done.
        -- intros s (f & ?)%Hsound. by exists T, f.
        -- intros msg' [= <-]. split; [apply chan_ops_add_sends|].
           destruct (Hpanic msg eq_refl) as (f & ?). by exists T, f.
    + destruct (Walk_stream_no_tree root files filters w Hat) as [e HWalk].
      rewrite <-(add_sends_nil files w) in HWalk at 2 by done.
      exists (Ret (Some e)), [], (finished files (Some e) [] w).
      rewrite (StreamFiles_exists _ _ _ _ _ _ Hopen Hex HWalk).
      split_and!; try done.
      * intros ? H. by apply elem_of_nil in H.
      * intros _ _. apply chan_ops_finished.
  - exists (Ret None), [], (closed files w).
    rewrite StreamFiles_not_exist by done.
    split_and!; try done.
    + intros ? H. by apply elem_of_nil in H.
    + intros _ _. apply chan_ops_closed.
Qed.

(** C2: on every path on which [StreamFiles] returns (the root does not
    exist, the walk succeeds, the walk fails) the channel has been closed
    exactly once, as the last operation before the return, and all that
    went through it are paths: an error is the returned value.  The call
    always comes to an end, and it returns whenever the slice of every
    passing file is in range, as it is for every root passed cleaned. *)
Theorem channel_closed_exactly_once w root files filters :
  wf_node (disk w) = true → chan_open w files →
  (fs.StreamFiles root files filters w).1 ≠ NoReturn ∧
  (∀ err w', fs.StreamFiles root files filters w = (Ret err, w') →
     (∃ sent, chan_ops w' files = chan_ops w files ++ map Send sent ++ [Close]) ∧
     closes (chan_ops w' files) = 1 ∧ last (chan_ops w' files) = Some Close) ∧
  ((∀ T, tree_at w root = Some T → strip_in_range root filters T) →
   ∃ err w', fs.StreamFiles root files filters w = (Ret err, w')) ∧
  (filepath.Clean root = root →
   ∃ err w', fs.StreamFiles root files filters w = (Ret err, w')).
Proof.
  intros Hwf Hopen.
  destruct (StreamFiles_cases w root files filters Hwf Hopen)
    as (r & sent & w' & Hrun & Hoof & _ & Hret & Hpanic).
  rewrite Hrun.
  assert ((∀ T, tree_at w root = Some T → strip_in_range root filters T) →
          ∃ err w'', (r, w') = (Ret err, w'')) as Hreturns.
  { intros Hrange. destruct r as [err|msg|]; [by exists err, w'| |done].
    destruct (Hpanic msg eq_refl) as (_ & T & f & Hat & Hf & Hp & Hem).
    destruct (Hrange T Hat f Hf Hp) as [? Hs]. congruence. }
  split_and!; [done| |done|].
  - intros err w'' [= -> <-]. specialize (Hret err eq_refl). rewrite Hret.
    split_and!.
    + by exists sent.
    + by apply closes_open_sends, chan_open_ops.
    + by rewrite app_assoc, last_snoc.
  - intros Hclean. apply Hreturns. intros T Hat.
    apply clean_root_in_range; [done|].
    unfold tree_at in Hat. destruct (os.locate w root) as [l|]; [|done].
    destruct (tree_lookup l (disk w)) eqn:Hl; try done.
    injection Hat as ->. by eapply wf_node_lookup.
Qed.

Lemma channel_closed_exactly_once_witness :
  (fs.StreamFiles "site" out [fs.MarkdownOnly] failing_world).1 ≠ NoReturn ∧
  (∀ err w', fs.StreamFiles "site" out [fs.MarkdownOnly] failing_world = (Ret err, w') →
     (∃ sent, chan_ops w' out = chan_ops failing_world out ++ map Send sent ++ [Close]) ∧
     closes (chan_ops w' out) = 1 ∧ last (chan_ops w' out) = Some Close) ∧
  ((∀ T, tree_at failing_world "site" = Some T →
         strip_in_range "site" [fs.MarkdownOnly] T) →
   ∃ err w', fs.StreamFiles "site" out [fs.MarkdownOnly] failing_world = (Ret err, w')) ∧
  (filepath.Clean "site" = "site" →
   ∃ err w', fs.StreamFiles "site" out [fs.MarkdownOnly] failing_world = (Ret err, w')).
Proof. apply channel_closed_exactly_once; [reflexivity|by exists []]. Defined.

Example failing_walk_closes_then_reports :
  let res := fs.StreamFiles "site" out [fs.MarkdownOnly] failing_world in
  res.1 = Ret (Some (PathError "open" "site/posts" (Failure EACCES))) ∧
  chan_ops res.2 out = [Send "/about.md"; Close].
Proof. by vm_compute. Qed.

Example short_name_below_dot_slash_panics :
  let res := fs.StreamFiles "./" out [] (quiet (Dir [("a", File [])]) []) in
  res.1 = Panic "slice bounds out of range" ∧ chan_ops res.2 out = [].
Proof. by vm_compute. Qed.






(** C5: for a file that passes all filters, the walk function sends the
    traversal path itself when the root is [.], and otherwise the
    traversal path without its first [len(root)] bytes, whatever those
    bytes are; when the traversal path is shorter than the root, the slice
    panics and nothing is sent. *)
Theorem emitted_path_is_byte_strip w root files filters file info :
  chan_open w files → IsDir info = false → fs.passes filters file = true →
  (root = "." →
   fs.stream root files filters file (Some info) None w
   = (Ret None, add_sends files [file] w)) ∧
  (root ≠ "." → String.length root ≤ String.length file →
   fs.stream root files filters file (Some info) None w
   = (Ret None,
      add_sends files
        [String.string_of_list_ascii
           (drop (String.length root) (String.list_ascii_of_string file))] w)) ∧
  (root ≠ "." → String.length file < String.length root →
   fs.stream root files filters file (Some info) None w
   = (Panic "slice bounds out of range", w)).
Proof.
  intros Hopen Hinfo Hpass. destruct info as [[|]]; [done|].
  rewrite stream_file, Hpass by done. unfold emitted_path.
  split_and!.
  - by intros ->.
  - intros Hroot%String.eqb_neq Hlen. rewrite Hroot, slice_from_spec.
    by rewrite decide_True.
  - intros Hroot%String.eqb_neq Hlen. rewrite Hroot, slice_from_spec.
    rewrite decide_False by lia. done.
Qed.

Lemma emitted_path_is_byte_strip_witness :
  fs.stream "content" out [fs.MarkdownOnly] "content/blog/post.md"
    (Some {| IsDir := false |}) None notes_world
  = (Ret None, add_sends out ["/blog/post.md"] notes_world).
Proof.
  apply (emitted_path_is_byte_strip notes_world "content" out [fs.MarkdownOnly]
           "content/blog/post.md" {| IsDir := false |}).
  - by exists [].
  - reflexivity.
  - reflexivity.
  - by intros [=].
  - vm_compute. lia.
Defined.

(** C9: for a root other than [.], a matched file whose traversal path is
    the root, a separator and a remainder is emitted as the separator
    followed by the remainder: the strip leaves the separator in place.
    With root [site], the file site/about.md is emitted as /about.md. *)
Theorem emitted_path_keeps_separator :
  (∀ w root rest files filters info,
     chan_open w files → IsDir info = false → root ≠ "." →
     fs.passes filters (root +:+ String filepath.Separator rest) = true →
     fs.stream root files filters (root +:+ String filepath.Separator rest)
       (Some info) None w
     = (Ret None, add_sends files [String filepath.Separator rest] w)) ∧
  fs.StreamFiles "site" out [] (quiet (Dir [("site", Dir [("about.md", File [])])]) [])
  = (Ret None,
     finished out None ["/about.md"]
       (quiet (Dir [("site", Dir [("about.md", File [])])]) [])).
Proof.
  split; [|by vm_compute].
  intros w root rest files filters [[|]] Hopen Hinfo Hroot%String.eqb_neq Hpass; [done|].
  rewrite stream_file, Hpass by done. unfold emitted_path.
  by rewrite Hroot, slice_from_app.
Qed.

Lemma emitted_path_keeps_separator_witness :
  fs.stream "site" out [fs.MarkdownOnly] ("site" +:+ String filepath.Separator "about.md")
    (Some {| IsDir := false |}) None site_world
  = (Ret None, add_sends out [String filepath.Separator "about.md"] site_world).
Proof.
  apply (proj1 emitted_path_keeps_separator site_world "site" "about.md" out
           [fs.MarkdownOnly] {| IsDir := false |});
    [by exists []|reflexivity| |reflexivity].
  by intros [=].
Defined.

(** [StreamFiles] is the part before its last statement, followed by the
    return of the package variable or of nil. *)
Lemma StreamFiles_until_return_spec path files filters w :
  fs.StreamFiles path files filters w =
  (stored ← StreamFiles_until_return path files filters;
   match stored with
   | Some _ => get ErrStreaming
   | None => mret None
   end) w.
Proof.
  unfold fs.StreamFiles, StreamFiles_until_return. rewrite !bind_unfold.
  unfold os.Stat, get.
  destruct (os.IsNotExist (os.err_of (os.stat_of "stat" path w))).
  - rewrite !bind_unfold. by destruct (chan_close files w) as [[[]|msg|] w'].
  - rewrite !bind_unfold.
    destruct (filepath.Walk path (fs.stream path files filters) w) as [[err|msg|] wk];
      [|done|done].
    rewrite !bind_unfold. unfold modify. rewrite !bind_unfold.
    by destruct (chan_close files (set_ErrStreaming err wk)) as [[[]|msg|] w'].
Qed.

(** A call whose root exists returns the error of its own walk and leaves
    it in [ErrStreaming]. *)
Lemma StreamFiles_stores_its_error w root files filters err w' :
  exists_on_disk w root = true →
  fs.StreamFiles root files filters w = (Ret err, w') →
  ErrStreaming w' = err ∧
  ∃ w'', filepath.Walk root (fs.stream root files filters) w = (Ret err, w'').
Proof.
  intros Hex. unfold fs.StreamFiles. rewrite bind_unfold.
  unfold os.Stat, get. unfold exists_on_disk in Hex.
  apply negb_true_iff in Hex. rewrite Hex. rewrite bind_unfold.
  destruct (filepath.Walk root (fs.stream root files filters) w) as [[err'|msg|] wk];
    [|done|done].
  rewrite bind_unfold. unfold modify. rewrite bind_unfold.
  unfold chan_close. cbn [chans set_ErrStreaming].
  destruct (chans wk !! files) as [ops|]; [|done].
  destruct (chan_closed ops); [done|].
  intros [= <- <-]. split; [done|]. by exists wk.
Qed.

(** C10: [StreamFiles] keeps the result of its walk in the package
    variable [ErrStreaming] and returns that variable.  A call whose root
    exists returns the error of its own walk and leaves it in the
    variable, whatever the variable held; a call whose root does not exist
    leaves the variable as it was.  So after a failed walk a later call on
    a missing root returns nil while the variable still holds the error of
    the earlier walk.  There is one variable for all calls: a call that
    is about to return, when another call runs in between, returns the
    error of that other call's walk and not its own. *)
Theorem ErrStreaming_is_shared_state :
  (∀ w root files filters err w',
     exists_on_disk w root = true →
     fs.StreamFiles root files filters w = (Ret err, w') →
     ErrStreaming w' = err ∧
     ∃ w'', filepath.Walk root (fs.stream root files filters) w = (Ret err, w'')) ∧
  (∀ w root files filters,
     chan_open w files → exists_on_disk w root = false →
     ∃ w', fs.StreamFiles root files filters w = (Ret None, w') ∧
           ErrStreaming w' = ErrStreaming w) ∧
  (∀ w root files filters e w1 root' files' filters',
     fs.StreamFiles root files filters w = (Ret (Some e), w1) →
     exists_on_disk w1 root' = false → chan_open w1 files' →
     ∃ w2, fs.StreamFiles root' files' filters' w1 = (Ret None, w2) ∧
           ErrStreaming w2 = Some e) ∧
  (∀ w root files filters own w1 root' files' filters' other w2,
     StreamFiles_until_return root files filters w = (Ret (Some own), w1) →
     exists_on_disk w1 root' = true →
     fs.StreamFiles root' files' filters' w1 = (Ret other, w2) →
     get ErrStreaming w2 = (Ret other, w2)).
Proof.
  split_and!.
  - apply StreamFiles_stores_its_error.
  - intros w root files filters Hopen Hex. eexists.
    by rewrite StreamFiles_not_exist.
  - intros w root files filters e w1 root' files' filters' Hrun Hex' Hopen'.
    assert (ErrStreaming w1 = Some e) as He.
    { destruct (exists_on_disk w root) eqn:Hex;
        [by eapply StreamFiles_stores_its_error|].
      revert Hrun. unfold fs.StreamFiles. rewrite bind_unfold.
      unfold os.Stat, get. unfold exists_on_disk in Hex.
      apply negb_false_iff in Hex. rewrite Hex. rewrite bind_unfold.
      by destruct (chan_close files w) as [[[]|msg|] w']. }
    eexists. by rewrite StreamFiles_not_exist.
  - intros w root files filters own w1 root' files' filters' other w2 _ Hex Hrun.
    destruct (StreamFiles_stores_its_error _ _ _ _ _ _ Hex Hrun) as [<- _].
    done.
Qed.

Lemma ErrStreaming_is_shared_state_witness :
  ∃ e w1 w2,
    fs.StreamFiles "site" out [] (make_chan 1 failing_world) = (Ret (Some e), w1) ∧
    fs.StreamFiles "drafts" 1 [] w1 = (Ret None, w2) ∧
    ErrStreaming w2 = Some e.
Proof.
  pose (e := PathError "open" "site/posts" (Failure EACCES)).
  pose (w1 := finished out (Some e) ["/about.md"] (make_chan 1 failing_world)).
  destruct (proj1 (proj2 (proj2 ErrStreaming_is_shared_state))
              (make_chan 1 failing_world) "site" out [] e w1 "drafts" 1 [])
    as (w2 & Hrun & He); [by vm_compute|reflexivity|by exists []|].
  exists e, w1, w2. split_and!; [by vm_compute|exact Hrun|exact He].
Defined.

Example a_call_returns_the_error_of_another_call :
  let w := make_chan 1 failing_world in
  ∃ own w1 w2,
    StreamFiles_until_return "site" out [] w = (Ret (Some (Some own)), w1) ∧
    fs.StreamFiles "site/about.md" 1 [] w1 = (Ret None, w2) ∧
    get ErrStreaming w2 = (Ret None, w2).
Proof. eexists _, _, _. split_and!; by vm_compute. Qed.

(** ** Creating directories and files *)

Section growing.

Lemma entry_get_set {A} name n (a : A) es :
  entry_get n (entry_set name a es) =
  if decide (n = name) then Some a else entry_get n es.
Proof.
  induction es as [|[m b] es IH]; simpl.
  - destruct (String.eqb_spec name n); case_decide; congruence.
  - destruct (String.eqb_spec m name) as [->|Hm]; simpl.
    + destruct (String.eqb_spec name n); case_decide; congruence.
    + destruct (String.eqb_spec m n) as [->|Hn].
      * by rewrite decide_False.
      * done.
Qed.

Lemma tree_lookup_chain l : tree_lookup l (chain l) = Found (Dir []).
Proof. induction l as [|n l IH]; simpl; [done|]. by rewrite String.eqb_refl. Qed.

Lemma tree_mkdir_all_lookup l d d' :
  tree_mkdir_all l d = Some d' → ∃ es, tree_lookup l d' = Found (Dir es).
Proof.
  revert d d'. induction l as [|name l IH]; intros [c|es|] d'; simpl; try done.
  - intros [= <-]. by exists es.
  - destruct (entry_get name es) as [ch|] eqn:Hget.
    + destruct (tree_mkdir_all l ch) as [ch'|] eqn:Hch; [|done].
      intros [= <-]. simpl. rewrite entry_get_set, decide_True by done.
      by eapply IH.
    + intros [= <-]. simpl. rewrite entry_get_set, decide_True by done.
      exists []. apply tree_lookup_chain.
Qed.

Lemma tree_mkdir_all_grows l d d' l0 :
  tree_mkdir_all l d = Some d' →
  tree_lookup l0 d ≠ Missing → tree_lookup l0 d' ≠ Missing.
Proof.
  revert d d' l0. induction l as [|name l IH]; intros [c|es|] d' l0; simpl; try done.
  - by intros [= <-].
  - destruct (entry_get name es) as [ch|] eqn:Hget.
    + destruct (tree_mkdir_all l ch) as [ch'|] eqn:Hch; [|done].
      intros [= <-]. destruct l0 as [|n0 l0]; simpl; [done|].
      rewrite entry_get_set. case_decide as Hn; [subst; rewrite Hget|done].
      by eapply IH.
    + intros [= <-]. destruct l0 as [|n0 l0]; simpl; [done|].
      rewrite entry_get_set. case_decide as Hn; [subst; by rewrite Hget|done].
Qed.

Lemma tree_write_grows l data d d' l0 :
  tree_write l data d = inl d' →
  tree_lookup l0 d ≠ Missing → tree_lookup l0 d' ≠ Missing.
Proof.
  revert d d' l0. induction l as [|name l IH]; intros [c|es|] d' l0; simpl; try done.
  - intros [= <-]. by destruct l0.
  - destruct (entry_get name es) as [ch|] eqn:Hget.
    + destruct (tree_write l data ch) as [ch'|] eqn:Hch; [|done].
      intros [= <-]. destruct l0 as [|n0 l0]; simpl; [done|].
      rewrite entry_get_set. case_decide as Hn; [subst; rewrite Hget|done].
      by eapply IH.
    + destruct l; [|done].
      intros [= <-]. destruct l0 as [|n0 l0]; simpl; [done|].
      rewrite entry_get_set. case_decide as Hn; [subst; by rewrite Hget|done].
Qed.

Lemma grows_preorder : PreOrder grows.
Proof.
  split.
  - by intros w.
  - intros w1 w2 w3 (Hc1 & Hf1 & H1) (Hc2 & Hf2 & H2). split_and!; [congruence..|auto].
Qed.

#[global] Existing Instance grows_preorder.

Lemma grows_log c w : grows w (log_syscall c w).
Proof. done. Qed.

Lemma MkdirAll_grows path w r w' : os.MkdirAll path w = (r, w') → grows w w'.
Proof.
  unfold os.MkdirAll. intros H.
  repeat case_match; injection H as <- <-; try apply grows_log.
  split_and!; try done. simpl. intros l0. by eapply tree_mkdir_all_grows.
Qed.

Lemma WriteFile_grows path data w r w' :
  ioutil.WriteFile path data w = (r, w') → grows w w'.
Proof.
  unfold ioutil.WriteFile. intros H.
  repeat case_match; injection H as <- <-; try apply grows_log.
  split_and!; try done. simpl. intros l0. by eapply tree_write_grows.
Qed.

(** A successful [MkdirAll] leaves a directory at the path. *)
Lemma MkdirAll_success path w w' :
  os.MkdirAll path w = (Ret None, w') →
  ∃ l es, os.locate w path = Some l ∧ tree_lookup l (disk w') = Found (Dir es).
Proof.
  unfold os.MkdirAll. intros H.
  change (os.locate (log_syscall (SysMkdirAll path) w) path)
    with (os.locate w path) in H.
  destruct (os.locate w path) as [l|]; [|done]. exists l.
  cbn [disk faults log_syscall] in H.
  destruct (tree_lookup l (disk w)) as [[c|es|]| |] eqn:Hl; try done.
  - injection H as <-. exists es. split; [done|exact Hl].
  - destruct (faults w ReqMkdir l); [done|].
    destruct (tree_mkdir_all l (disk w)) as [d|] eqn:Hd; [|done].
    injection H as <-. simpl.
    destruct (tree_mkdir_all_lookup _ _ _ Hd) as [es' ?]. exists es'. by split.
Qed.

Lemma for_each_grows {A} (f : A → M (option error)) xs w r w' :
  (∀ x w r w', f x w = (r, w') → grows w w') →
  core.for_each xs f w = (r, w') → grows w w'.
Proof.
  intros Hf. revert w. induction xs as [|x xs IH]; intros w; simpl.
  - by intros [= <- <-].
  - rewrite bind_unfold. destruct (f x w) as [[[e|]|msg|] wa] eqn:Hx;
      intros H; try (injection H as <- <-; by eapply Hf).
    etrans; [by eapply Hf|by eapply IH].
Qed.

Lemma for_each_cons_success {A} (f : A → M (option error)) x xs w w' :
  core.for_each (x :: xs) f w = (Ret None, w') →
  ∃ wa, f x w = (Ret None, wa) ∧ core.for_each xs f wa = (Ret None, w').
Proof.
  simpl. rewrite bind_unfold.
  destruct (f x w) as [[[e|]|msg|] wa] eqn:Hx; try done. by exists wa.
Qed.

End growing.

Lemma locate_Some w path : path ≠ "" → is_Some (os.locate w path).
Proof. intros H%String.eqb_neq. unfold os.locate. by rewrite H. Qed.

Lemma locate_grows w w' path : grows w w' → os.locate w' path = os.locate w path.
Proof. intros (Hc & _). unfold os.locate. by rewrite Hc. Qed.

Lemma exists_on_disk_grows w w' path :
  grows w w' → exists_on_disk w path = true → exists_on_disk w' path = true.
Proof.
  intros Hg. rewrite !exists_on_disk_spec. intros (l & Hl & Hin).
  exists l. rewrite (locate_grows _ _ _ Hg). split; [done|].
  destruct Hg as (_ & _ & Hg). auto.
Qed.

Lemma exists_on_disk_nonempty w path : exists_on_disk w path = true → path ≠ "".
Proof. intros (l & Hl & _)%exists_on_disk_spec ->. done. Qed.

(** ** CreateProject and CreateTheme *)

Section create.
Context (cfg : Config).
Context (range_order : list (string * list Byte.byte) → list (string * list Byte.byte)).

(** C3: [CreateProject] without overwrite on a path that exists returns
    [ErrProjectExists] and leaves the world as it was: no removal, no
    directory creation and no file write was asked of the system. *)
Theorem existing_project_is_refused w path :
  exists_on_disk w path = true →
  core.CreateProject cfg range_order path {| core.Overwrite := false |} w
  = (Ret (Some core.ErrProjectExists), w).
Proof.
  intros Hex. unfold exists_on_disk in Hex. apply negb_true_iff in Hex.
  unfold core.CreateProject, fs.IsSafeToRemove. rewrite !bind_unfold.
  simpl. unfold get. by rewrite Hex.
Qed.

(** C7, amended: for every project of which [Stat] reports that it does not
    exist (with the error [os.IsNotExist] accepts, the test of
    create.go), and every theme name, [CreateTheme] returns
    [ErrProjectNotExists] and leaves the world as it was: no directory and
    no file is created. *)
Theorem theme_needs_project w project name e :
  os.Stat project w = (Ret (inr e), w) → os.IsNotExist (Some e) = true →
  core.CreateTheme cfg range_order {| core.Project := project |} name w
  = (Ret (Some core.ErrProjectNotExists), w).
Proof.
  intros Hstat He.
  unfold core.CreateTheme. rewrite bind_unfold. cbn [core.Project].
  rewrite Hstat. cbn [os.err_of]. by rewrite He.
Qed.

Lemma theme_Exists_true w project name :
  exists_on_disk w (theme.Dir cfg project name) = true →
  theme.Exists cfg project name w = (Ret true, w).
Proof.
  intros Hex. unfold exists_on_disk in Hex. unfold theme.Exists.
  rewrite bind_unfold. unfold os.Stat, get. by rewrite Hex.
Qed.

Lemma createFiles_grows files w r w' :
  core.createFiles range_order files w = (r, w') → grows w w'.
Proof.
  apply for_each_grows. intros [path content] ? ? ?. apply WriteFile_grows.
Qed.

(** After a successful [CreateTheme] the project and the directory of the
    theme exist. *)
Lemma CreateTheme_success w project name w' :
  core.CreateTheme cfg range_order {| core.Project := project |} name w
  = (Ret None, w') →
  exists_on_disk w' project = true ∧
  exists_on_disk w' (theme.Dir cfg project name) = true.
Proof.
  unfold core.CreateTheme. rewrite bind_unfold. cbn [core.Project].
  unfold os.Stat at 1, get at 1.
  destruct (os.IsNotExist (os.err_of (os.stat_of "stat" project w))) eqn:Hproject;
    [done|].
  assert (exists_on_disk w project = true) as Hex
    by (unfold exists_on_disk; by rewrite Hproject).
  rewrite bind_unfold.
  destruct (theme.Exists cfg project name w) as [[[|]|msg|] w0] eqn:Hexists;
    try done.
  assert (w0 = w) as ->.
  { revert Hexists. unfold theme.Exists. rewrite bind_unfold.
    unfold os.Stat, get. by intros [= _ <-]. }
  rewrite bind_unfold.
  destruct (core.for_each _ os.MkdirAll w) as [[[e|]|msg|] w1] eqn:Hdirs; try done.
  intros Hfiles%createFiles_grows.
  apply for_each_cons_success in Hdirs as (wa & Hfirst & Hrest).
  assert (grows w wa) as Hg1 by (by eapply MkdirAll_grows).
  assert (grows wa w1) as Hg2
    by (eapply for_each_grows; [|exact Hrest]; intros ? ? ? ?; apply MkdirAll_grows).
  assert (grows w w') as Hg by (by do 2 (etrans; [eassumption|])).
  split; [by eapply exists_on_disk_grows|].
  apply (exists_on_disk_grows wa); [by etrans|].
  apply MkdirAll_success in Hfirst as (l & es & Hloc & Hl).
  assert (theme.Dir cfg project name ≠ "") as Hdir
    by (apply Join_nonempty; by eapply exists_on_disk_nonempty).
  destruct (locate_Some w _ Hdir) as [lD HlD].
  unfold theme.TemplateDir in Hloc.
  rewrite (locate_Join w _ "templates" lD) in Hloc by done.
  injection Hloc as <-. rewrite tree_lookup_app in Hl.
  apply exists_on_disk_spec. exists lD.
  rewrite (locate_grows _ _ _ Hg1). split; [done|].
  by destruct (tree_lookup lD (disk wa)).
Qed.

(** C8: when [CreateTheme] has succeeded, a second call for the same
    project and theme returns [ErrThemeExists] and leaves everything as
    the first call left it; in what order the runtime visits the files
    to write does not matter. *)
Theorem second_CreateTheme_is_refused w project name w1 range_order' :
  core.CreateTheme cfg range_order {| core.Project := project |} name w
  = (Ret None, w1) →
  core.CreateTheme cfg range_order' {| core.Project := project |} name w1
  = (Ret (Some core.ErrThemeExists), w1).
Proof.
  intros [Hproject Htheme]%CreateTheme_success.
  unfold core.CreateTheme. rewrite bind_unfold. cbn [core.Project].
  unfold os.Stat at 1, get at 1. unfold exists_on_disk in Hproject.
  apply negb_true_iff in Hproject. rewrite Hproject.
  by rewrite bind_unfold, theme_Exists_true.
Qed.

End create.

(** ** Walks in general *)

(** What every call of the walk function preserves, the walk preserves. *)
Lemma walk_preserves (R : relation World) `{!PreOrder R} (walkFn : filepath.WalkFunc) :
  (∀ path info err w r w', walkFn path info err w = (r, w') → R w w') →
  ∀ fuel path info w r w',
    filepath.walk fuel path info walkFn w = (r, w') → R w w'.
Proof.
  intros Hfn. induction fuel as [|fuel IH]; intros path info w r w'.
  { by intros [= _ <-]. }
  cbn [filepath.walk]. destruct (negb (IsDir info)); [by apply Hfn|].
  rewrite bind_unfold. unfold filepath.readDirNames at 1.
  rewrite bind_unfold. unfold os.Readdirnames, get.
  match goal with |- context [match ?x with inl _ => _ | inr _ => _ end] =>
    destruct x as [names|e] end; cbn [mret M_ret].
  2:{ rewrite bind_unfold.
      destruct (walkFn path (Some info) (Some e) w) as [[a|msg|] wa] eqn:Hcall;
        intros [= <- <-]; by eapply Hfn. }
  rewrite bind_unfold.
  destruct (walkFn path (Some info) None w) as [[[e|]|msg|] wa] eqn:Hcall;
    try (intros [= <- <-]; by eapply Hfn).
  apply Hfn in Hcall. intros Hloop. etrans; [exact Hcall|]. clear Hcall.
  revert wa Hloop. generalize (merge_sort filepath.string_le names). clear names.
  intros names. induction names as [|name names IHn]; intros wa; cbn [filepath.walk_names].
  { by intros [= _ <-]. }
  rewrite bind_unfold. unfold os.Lstat at 1, get at 1.
  destruct (os.stat_of "lstat" (filepath.Join [path; name]) wa) as [fi|e].
  - rewrite bind_unfold.
    destruct (filepath.walk fuel _ fi walkFn wa) as [[[e'|]|msg|] wb] eqn:Hrec;
      apply IH in Hrec.
    + destruct (negb (IsDir fi) || bool_decide (e' ≠ SkipDir)).
      * by intros [= _ <-].
      * intros ?%IHn. by etrans.
    + intros ?%IHn. by etrans.
    + by intros [= _ <-].
    + by intros [= _ <-].
  - rewrite bind_unfold.
    destruct (walkFn _ None (Some e) wa) as [[[e'|]|msg|] wb] eqn:Hcall;
      apply Hfn in Hcall.
    + destruct (bool_decide (e' ≠ SkipDir)).
      * by intros [= _ <-].
      * intros ?%IHn. by etrans.
    + intros ?%IHn. by etrans.
    + by intros [= _ <-].
    + by intros [= _ <-].
Qed.

Lemma Walk_preserves (R : relation World) `{!PreOrder R} (walkFn : filepath.WalkFunc) :
  (∀ path info err w r w', walkFn path info err w = (r, w') → R w w') →
  ∀ root w r w', filepath.Walk root walkFn w = (r, w') → R w w'.
Proof.
  intros Hfn root w r w'. unfold filepath.Walk. rewrite bind_unfold.
  unfold os.Lstat, get.
  assert (∀ (m : M (option error)),
            (∀ r w', m w = (r, w') → R w w') →
            (m ≫= λ err, if bool_decide (err = Some SkipDir) then mret None else mret err) w
            = (r, w') → R w w') as Hpost.
  { intros m Hm. rewrite bind_unfold.
    destruct (m w) as [[a|msg|] wa]; specialize (Hm _ _ eq_refl).
    - destruct (bool_decide (a = Some SkipDir)); by intros [= _ <-].
    - by intros [= _ <-].
    - by intros [= _ <-]. }
  destruct (os.stat_of "lstat" root w) as [info|e]; apply Hpost.
  - intros r0 w0. rewrite bind_unfold. unfold get. by apply walk_preserves.
  - intros r0 w0. by apply Hfn.
Qed.

(** ** The cleanup of the current directory *)

Lemma cleanup_not_exist path info err w :
  os.IsNotExist err = true → core.cleanup path info err w = (Ret None, w).
Proof. intros H. unfold core.cleanup. by rewrite H. Qed.

Lemma cleanup_root_marker info err w : core.cleanup "." info err w = (Ret None, w).
Proof. unfold core.cleanup. by destruct (os.IsNotExist err). Qed.

Lemma cleanup_entry path is_dir err w :
  path ≠ "." → os.IsNotExist err = false →
  core.cleanup path (Some {| IsDir := is_dir |}) err w
  = if is_dir then os.RemoveAll path w else os.Remove path w.
Proof.
  intros Hpath%String.eqb_neq Herr. unfold core.cleanup. rewrite Herr, Hpath.
  by destruct is_dir.
Qed.

Lemma spares_root_marker_preorder : PreOrder spares_root_marker.
Proof.
  split.
  - intros w. exists []. by rewrite app_nil_r.
  - intros w1 w2 w3 (c1 & H1 & Hc1) (c2 & H2 & Hc2). exists (c1 ++ c2).
    rewrite H2, H1, app_assoc. split; [done|]. by apply Forall_app.
Qed.

#[global] Existing Instance spares_root_marker_preorder.





Lemma RemoveAll_not_SkipDir path w e w' :
  os.RemoveAll path w = (Ret (Some e), w') → e ≠ SkipDir.
Proof. unfold os.RemoveAll. intros H. repeat case_match; by simplify_eq. Qed.

Lemma Remove_not_SkipDir path w e w' :
  os.Remove path w = (Ret (Some e), w') → e ≠ SkipDir.
Proof. unfold os.Remove. intros H. repeat case_match; by simplify_eq. Qed.

Lemma RemoveAll_returns path w : ∃ r w', os.RemoveAll path w = (Ret r, w').
Proof. unfold os.RemoveAll. repeat case_match; eauto. Qed.

Lemma Remove_returns path w : ∃ r w', os.Remove path w = (Ret r, w').
Proof. unfold os.Remove. repeat case_match; eauto. Qed.

Lemma Join_dot name : valid_name name = true → filepath.Join ["."; name] = name.
Proof.
  intros Hname. pose proof Hname as (H1 & H2 & H3 & Hsep)%valid_name_spec.
  change (filepath.Join ["."; name])
    with (filepath.Clean ("." +:+ String os.PathSeparator name)).
  unfold filepath.Clean.
  change (os.rooted ("." +:+ String os.PathSeparator name)) with false.
  change (String.eqb ("." +:+ String os.PathSeparator name) "") with false.
  cbn match.
  rewrite (elements_app_sep "." name), (elements_no_separator name) by done.
  change (os.elements "." ++ [name]) with ([("." : string)] ++ [name]).
  rewrite clean_loop_snoc by done. done.
Qed.

Lemma locate_dot w : os.locate w "." = Some (cwd w).
Proof. unfold os.locate. simpl. by rewrite rev_involutive. Qed.

Lemma locate_child w name :
  valid_name name = true → os.locate w name = Some (cwd w ++ [name]).
Proof.
  intros Hname. rewrite <-(Join_dot name) at 1 by done.
  apply locate_Join; [done|apply locate_dot].
Qed.

Lemma valid_name_endsWithDot name : valid_name name = true → os.endsWithDot name = false.
Proof.
  intros (H1 & H2 & H3 & Hsep)%valid_name_spec. unfold os.endsWithDot.
  apply String.eqb_neq in H2. rewrite H2.
  assert (Forall (λ c, os.IsPathSeparator c = false) (String.list_ascii_of_string name))
    as Hall.
  { clear H1 H2 H3. induction name as [|c name IH]; simpl in *; [done|].
    apply andb_true_iff in Hsep as [Hc%negb_true_iff ?]. constructor; auto. }
  apply Forall_rev in Hall.
  destruct (rev (String.list_ascii_of_string name)) as [|c1 [|c2 cs]]; try done.
  inversion Hall as [|? ? _ Hall']; subst. inversion Hall' as [|? ? Hc2 _]; subst.
  rewrite Hc2. apply andb_false_r.
Qed.

Lemma entry_get_del {A} name n (es : list (string * A)) :
  entry_get n (entry_del name es) = if decide (n = name) then None else entry_get n es.
Proof.
  induction es as [|[m b] es IH]; simpl; [by case_decide|].
  destruct (String.eqb_spec m name) as [->|Hm]; simpl.
  - rewrite IH. case_decide; [done|].
    destruct (String.eqb_spec name n); congruence.
  - destruct (String.eqb_spec m n) as [->|Hn]; [by rewrite decide_False|done].
Qed.

Lemma tree_remove_cons n l es :
  l ≠ [] →
  tree_remove (n :: l) (Dir es) =
  match entry_get n es with
  | Some ch => Dir (entry_set n (tree_remove l ch) es)
  | None => Dir es
  end.
Proof. by destruct l. Qed.

Lemma tree_remove_parent l name d es :
  tree_lookup l d = Found (Dir es) →
  tree_lookup l (tree_remove (l ++ [name]) d) = Found (Dir (entry_del name es)).
Proof.
  revert d. induction l as [|n l IH]; intros d.
  - simpl. by intros [= ->].
  - destruct d as [c|es0|]; [done| |done]. cbn [tree_lookup].
    destruct (entry_get n es0) as [ch|] eqn:Hget; [|done]. intros Hl.
    rewrite <-app_comm_cons, tree_remove_cons, Hget by (by destruct l).
    cbn [tree_lookup]. rewrite entry_get_set, decide_True by done. by apply IH.
Qed.

Lemma tree_remove_below l name rest d es :
  tree_lookup l d = Found (Dir es) →
  tree_lookup (l ++ name :: rest) (tree_remove (l ++ [name]) d) = Missing.
Proof.
  intros Hl. rewrite tree_lookup_app, (tree_remove_parent _ _ _ _ Hl). simpl.
  by rewrite entry_get_del, decide_True.
Qed.

Lemma Remove_file w name n :
  valid_name name = true →
  tree_lookup (cwd w ++ [name]) (disk w) = Found n →
  IsDir (os.info_of n) = false →
  os.Remove name w =
  match faults w ReqRemove (cwd w ++ [name]) with
  | Some f => (Ret (Some (PathError "remove" name (Failure f))),
               log_syscall (SysRemove name) w)
  | None => (Ret None, removed name (SysRemove name) w)
  end.
Proof.
  intros Hname Hl Hn. unfold os.Remove.
  change (os.locate (log_syscall (SysRemove name) w) name) with (os.locate w name).
  rewrite (locate_child w name Hname). cbn [disk faults log_syscall].
  rewrite Hl, (valid_name_endsWithDot name Hname).
  destruct (cwd w ++ [name]) as [|x xs] eqn:Hx; [by destruct (cwd w)|].
  rewrite <-Hx. by destruct n.
Qed.

Lemma RemoveAll_entry w name ch :
  valid_name name = true →
  tree_lookup (cwd w ++ [name]) (disk w) = Found ch →
  os.RemoveAll name w =
  match faults w ReqRemove (cwd w ++ [name]) with
  | Some f => (Ret (Some (PathError "unlinkat" name (Failure f))),
               log_syscall (SysRemoveAll name) w)
  | None => (Ret None, removed name (SysRemoveAll name) w)
  end.
Proof.
  intros Hname Hl. unfold os.RemoveAll.
  pose proof Hname as (Hne%String.eqb_neq & _)%valid_name_spec. rewrite Hne.
  rewrite (valid_name_endsWithDot name Hname).
  change (os.locate (log_syscall (SysRemoveAll name) w) name) with (os.locate w name).
  rewrite (locate_child w name Hname). cbn [disk faults log_syscall].
  rewrite Hl.
  destruct (cwd w ++ [name]) as [|x xs] eqn:Hx; [by destruct (cwd w)|].
  by rewrite <-Hx.
Qed.

(** Below a directory that is gone the walk finds nothing and goes on. *)
Lemma walk_names_gone rec w path l names :
  os.locate w path = Some l →
  tree_lookup l (disk w) = Missing →
  Forall (λ n, valid_name n = true) names →
  filepath.walk_names rec core.cleanup path names w = (Ret None, w).
Proof.
  intros Hloc Hl. induction 1 as [|name names Hname _ IH]; [done|].
  cbn [filepath.walk_names]. rewrite bind_unfold.
  unfold os.Lstat, get, os.stat_of.
  rewrite (locate_Join _ _ _ _ Hname Hloc), tree_lookup_app, Hl.
  by rewrite bind_unfold, cleanup_not_exist.
Qed.

(** The walk over one entry of the working directory does what the
    iterative cleanup does with it. *)
Lemma walk_cleanup_entry fuel w es name ch :
  readable w →
  valid_name name = true → wf_node ch = true →
  entry_get name es = Some ch →
  tree_lookup (cwd w ++ [name]) (disk w) = Found ch →
  ∀ parent, tree_lookup (cwd w) (disk w) = Found (Dir parent) →
  filepath.walk (S fuel) name (os.info_of ch) core.cleanup w = remove_entry es name w.
Proof.
  intros Hread Hname Hwf Hget Hl parent Hparent.
  pose proof Hname as (_ & Hdot & _)%valid_name_spec.
  unfold remove_entry. rewrite Hget.
  destruct ch as [content|esc|]; cbn [filepath.walk os.info_of IsDir negb].
  - by rewrite (cleanup_entry name false).
  - rewrite bind_unfold.
    rewrite (readDirNames_dir w name (cwd w ++ [name]) esc)
      by (done || by apply locate_child).
    destruct (Hread (cwd w ++ [name])) as [_ ->].
    rewrite bind_unfold, (cleanup_entry name true) by done.
    rewrite (RemoveAll_entry w name (Dir esc)) by done.
    destruct (faults w ReqRemove (cwd w ++ [name])); [done|].
    apply (walk_names_gone _ _ name (cwd w ++ [name])).
    + exact (locate_child (removed name (SysRemoveAll name) w) name Hname).
    + unfold removed. cbn [disk set_disk log_syscall cwd].
      rewrite <-(app_nil_r (cwd w ++ [name])) at 1. rewrite <-app_assoc.
      by eapply tree_remove_below.
    + apply wf_node_Dir in Hwf as (Hvalid & _).
      by rewrite merge_sort_Permutation.
  - by rewrite (cleanup_entry name false).
Qed.

Lemma remove_entry_cases w es es_w name ch :
  valid_name name = true →
  entry_get name es = Some ch →
  tree_lookup (cwd w) (disk w) = Found (Dir es_w) →
  entry_get name es_w = Some ch →
  (∃ e c, e ≠ SkipDir ∧ remove_entry es name w = (Ret (Some e), log_syscall c w)) ∨
  (∃ c, remove_entry es name w = (Ret None, removed name c w)).
Proof.
  intros Hname Hget Hparent Hget_w.
  assert (tree_lookup (cwd w ++ [name]) (disk w) = Found ch) as Hl
    by (by rewrite (tree_lookup_child _ _ _ _ Hparent), Hget_w).
  unfold remove_entry. rewrite Hget. destruct ch as [content|esc|].
  - rewrite (Remove_file w name (File content)) by done.
    destruct (faults w ReqRemove (cwd w ++ [name]));
      [left; eexists _, _; split; [|reflexivity]; done|right; by eexists].
  - rewrite (RemoveAll_entry w name (Dir esc)) by done.
    destruct (faults w ReqRemove (cwd w ++ [name]));
      [left; eexists _, _; split; [|reflexivity]; done|right; by eexists].
  - rewrite (Remove_file w name Socket) by done.
    destruct (faults w ReqRemove (cwd w ++ [name]));
      [left; eexists _, _; split; [|reflexivity]; done|right; by eexists].
Qed.

(** The loop of the walk over the entries of the working directory is the
    iterative cleanup. *)
Lemma walk_names_cleanup fuel es :
  wf_node (Dir es) = true →
  ∀ names w es_w,
    NoDup names → names ⊆ map fst es →
    readable w →
    tree_lookup (cwd w) (disk w) = Found (Dir es_w) →
    (∀ name, name ∈ names → entry_get name es_w = entry_get name es) →
    filepath.walk_names (λ p i, filepath.walk (S fuel) p i core.cleanup)
      core.cleanup "." names w
    = core.for_each names (remove_entry es) w.
Proof.
  intros Hwf names.
  induction names as [|name names IH]; intros w es_w Hnd Hsub Hread Hparent Hsame;
    [done|].
  apply NoDup_cons in Hnd as [Hfresh Hnd].
  assert (name ∈ map fst es) as Hin by (apply Hsub, list_elem_of_here).
  destruct (entry_get name es) as [ch|] eqn:Hget; [|by apply entry_get_None in Hget].
  destruct (wf_node_child _ _ _ Hwf Hget) as [Hname Hwfch].
  assert (entry_get name es_w = Some ch) as Hget_w
    by (rewrite Hsame, Hget; [done|apply list_elem_of_here]).
  assert (tree_lookup (cwd w ++ [name]) (disk w) = Found ch) as Hl
    by (by rewrite (tree_lookup_child _ _ _ _ Hparent), Hget_w).
  cbn [filepath.walk_names core.for_each].
  rewrite (Join_dot name Hname), !bind_unfold.
  unfold os.Lstat, get, os.stat_of.
  rewrite (locate_child w name Hname), Hl.
  destruct (Hread (cwd w ++ [name])) as [-> _]. rewrite bind_unfold.
  rewrite (walk_cleanup_entry fuel w es name ch Hread Hname Hwfch Hget Hl es_w Hparent).
  destruct (remove_entry_cases w es es_w name ch Hname Hget Hparent Hget_w)
    as [(e & c & He & ->)|(c & ->)].
  - rewrite (bool_decide_eq_true_2 _ He). by rewrite orb_true_r.
  - apply (IH _ (entry_del name es_w)); try done.
    + intros x Hx. apply Hsub. by apply list_elem_of_further.
    + unfold removed. cbn [cwd disk set_disk log_syscall].
      by apply tree_remove_parent.
    + intros n Hn. rewrite entry_get_del, decide_False by (by intros ->).
      apply Hsame. by apply list_elem_of_further.
Qed.

Lemma iterative_cleanup_not_SkipDir es names w e w' :
  core.for_each names (remove_entry es) w = (Ret (Some e), w') → e ≠ SkipDir.
Proof.
  revert w. induction names as [|name names IH]; intros w; simpl; [done|].
  rewrite bind_unfold.
  destruct (remove_entry es name w) as [[[e0|]|msg|] wa] eqn:Hentry; try done.
  - intros [= <- <-]. revert Hentry. unfold remove_entry.
    destruct (entry_get name es) as [[c|esc|]|]; [| | |done].
    + apply Remove_not_SkipDir.
    + apply RemoveAll_not_SkipDir.
    + apply Remove_not_SkipDir.
  - apply IH.
Qed.

Lemma tree_at_dot w n :
  tree_at w "." = Some n → tree_lookup (cwd w) (disk w) = Found n.
Proof.
  unfold tree_at. rewrite locate_dot.
  destruct (tree_lookup (cwd w) (disk w)); by intros [= ->].
Qed.

(** The walk [CreateProject] starts on the current directory is the
    iterative cleanup of its entries. *)
Lemma Walk_cleanup w es :
  wf_node (disk w) = true → readable w → tree_at w "." = Some (Dir es) →
  filepath.Walk "." core.cleanup w = iterative_cleanup es w.
Proof.
  intros Hwf Hread Hat%tree_at_dot.
  pose proof (wf_node_lookup _ _ _ Hwf Hat) as Hwfes.
  pose proof (depth_lookup _ _ _ Hat) as Hdepth.
  unfold filepath.Walk. rewrite bind_unfold.
  unfold os.Lstat, get, os.stat_of. rewrite locate_dot, Hat.
  destruct (Hread (cwd w)) as [-> Hrd]. rewrite !bind_unfold.
  assert (filepath.walk (depth (disk w)) "." (os.info_of (Dir es)) core.cleanup w
          = iterative_cleanup es w) as ->.
  { destruct (depth (disk w)) as [|fuel] eqn:Hfuel;
      [pose proof (depth_pos (Dir es)); lia|].
    cbn [filepath.walk os.info_of IsDir negb].
    rewrite bind_unfold, (readDirNames_dir w "." (cwd w) es), Hrd
      by (done || apply locate_dot).
    rewrite bind_unfold, cleanup_root_marker. unfold iterative_cleanup.
    destruct es as [|[n ch] es'] eqn:Hes; [done|]. rewrite <-Hes in *.
    destruct fuel as [|fuel].
    { rewrite Hes, depth_Dir in Hdepth. simpl in Hdepth.
      pose proof (depth_pos ch). lia. }
    apply wf_node_Dir in Hwfes as Hparts. destruct Hparts as (_ & Hnd & _).
    apply (walk_names_cleanup fuel es Hwfes _ w es); try done.
    - by rewrite merge_sort_Permutation.
    - intros x. by rewrite merge_sort_Permutation. }
  destruct (iterative_cleanup es w) as [[[e|]|msg|] w'] eqn:Hrun; try done.
  apply iterative_cleanup_not_SkipDir in Hrun.
  rewrite bool_decide_eq_false_2; [done|]. by intros [= ->].
Qed.


Lemma existing_project_is_refused_witness :
  core.CreateProject verless_config backwards "site" {| core.Overwrite := false |} site_world
  = (Ret (Some core.ErrProjectExists), site_world).
Proof. apply existing_project_is_refused. reflexivity. Defined.

Lemma theme_needs_project_witness :
  core.CreateTheme verless_config backwards {| core.Project := "blog" |} "dark" site_world
  = (Ret (Some core.ErrProjectNotExists), site_world).
Proof.
  apply (theme_needs_project verless_config backwards site_world "blog" "dark"
           (PathError "stat" "blog" ENOENT)); reflexivity.
Defined.

(** C7 as the specification states it, for every project that does not
    exist on disk, fails on a project that is missing behind a regular
    file: nothing is at site/about.md/blog, but [Stat] fails there with
    ENOTDIR, which is not the error [os.IsNotExist] accepts, so the guard
    of the project is passed and [ErrProjectNotExists] is not what
    [CreateTheme] returns. *)
Lemma missing_project_behind_a_file_passes_the_guard :
  nothing_at site_world "site/about.md/blog" ∧
  os.Stat "site/about.md/blog" site_world
  = (Ret (inr (PathError "stat" "site/about.md/blog" ENOTDIR)), site_world) ∧
  core.CreateTheme verless_config backwards {| core.Project := "site/about.md/blog" |}
    "dark" site_world
  = (Ret (Some core.ErrThemeExists), site_world).
Proof. by vm_compute. Qed.

Lemma second_CreateTheme_is_refused_witness :
  ∃ w1,
    core.CreateTheme verless_config id {| core.Project := "site" |} "dark" site_world
    = (Ret None, w1) ∧
    core.CreateTheme verless_config backwards {| core.Project := "site" |} "dark" w1
    = (Ret (Some core.ErrThemeExists), w1).
Proof.
  exists (core.CreateTheme verless_config id {| core.Project := "site" |} "dark"
            site_world).2.
  split; [by vm_compute|].
  apply (second_CreateTheme_is_refused verless_config id site_world). by vm_compute.
Defined.


Example CreateProject_cleans_the_current_directory :
  let res := core.CreateProject verless_config id "." {| core.Overwrite := true |}
               (quiet (Dir [("srv", Dir [("old.md", File []);
                                         ("drafts", Dir [("a.md", File []);
                                                         ("deep", Dir [("b.md", File [])])])])])
                      ["srv"]) in
  res.1 = Ret None ∧
  take 2 (syscalls res.2) = [SysRemoveAll "drafts"; SysRemove "old.md"] ∧
  tree_at res.2 "drafts" = None ∧ tree_at res.2 "old.md" = None ∧
  tree_at res.2 "verless.yml" = Some (File (defaultConfig verless_config)).
Proof. by vm_compute. Qed.

Example CreateProject_stops_at_a_failed_removal :
  core.CreateProject verless_config id "." {| core.Overwrite := true |} protected_world
  = (Ret (Some (errors.New "Cannot remove existing files from current directory.")),
     log_syscall (SysRemove "about.md") protected_world).
Proof. reflexivity. Qed.

Example CreateProject_of_a_new_site :
  let res := core.CreateProject verless_config id "site" {| core.Overwrite := false |}
               notes_world in
  res.1 = Ret None ∧
  tree_at res.2 "site/verless.yml" = Some (File (defaultConfig verless_config)).
Proof. by vm_compute. Qed.

(** * Further properties of the code *)

(** ** The two filters *)

Lemma list_ascii_app a b :
  String.list_ascii_of_string (a +:+ b)
  = String.list_ascii_of_string a ++ String.list_ascii_of_string b.
Proof. induction a as [|c a IH]; simpl; [done|]. by rewrite IH. Qed.

Lemma string_of_list_app xs ys :
  String.string_of_list_ascii (xs ++ ys)
  = String.string_of_list_ascii xs +:+ String.string_of_list_ascii ys.
Proof. induction xs as [|c xs IH]; simpl; [done|]. by rewrite IH. Qed.

(** The scan of [Ext] returns nothing or a suffix of what it is given. *)
Lemma ext_scan_suffix rpath acc :
  filepath.ext_scan rpath acc = [] ∨
  ∃ pre, rev rpath ++ acc = pre ++ filepath.ext_scan rpath acc.
Proof.
  revert acc. induction rpath as [|c rpath IH]; intros acc; simpl; [by left|].
  destruct (os.IsPathSeparator c); [by left|].
  destruct (Ascii.eqb c "."%char).
  - right. exists (rev rpath). by rewrite <-app_assoc.
  - destruct (IH (c :: acc)) as [->|[pre Hpre]]; [by left|].
    right. exists pre. by rewrite <-app_assoc.
Qed.

(** X1: [MarkdownOnly] accepts exactly the paths that end in [.md]: also a
    file named [.md], and no file reached through a directory named so. *)
Theorem MarkdownOnly_accepts_the_md_suffix file :
  fs.MarkdownOnly file = true ↔ ∃ s, file = s +:+ ".md".
Proof.
  unfold fs.MarkdownOnly, filepath.Ext. rewrite String.eqb_eq. split.
  - intros Hext.
    destruct (ext_scan_suffix (rev (String.list_ascii_of_string file)) [])
      as [Hnil|[pre Hpre]].
    { by rewrite Hnil in Hext. }
    rewrite rev_involutive, app_nil_r in Hpre.
    exists (String.string_of_list_ascii pre).
    rewrite <-Hext, <-string_of_list_app, <-Hpre.
    by rewrite String.string_of_list_ascii_of_string.
  - intros [s ->]. rewrite list_ascii_app, rev_app_distr. done.
Qed.

Lemma no_separator_chars name :
  no_separator name = true →
  Forall (λ c, os.IsPathSeparator c = false) (String.list_ascii_of_string name).
Proof.
  induction name as [|c name IH]; simpl; [done|].
  intros [Hc Hname]%andb_true_iff. constructor; [|by apply IH].
  by apply negb_true_iff.
Qed.

(** The scan of [Base] over a last element [cs] (reversed) that holds no
    separator stops at the separator before it, or at the start. *)
Lemma last_element_name cs rest acc :
  Forall (λ c, os.IsPathSeparator c = false) cs →
  match rest with [] => True | c :: _ => os.IsPathSeparator c = true end →
  filepath.last_element (cs ++ rest) acc = rev cs ++ acc.
Proof.
  intros Hcs Hrest. revert acc.
  induction Hcs as [|c cs Hc _ IH]; intros acc; simpl.
  - destruct rest as [|c rest]; [done|]. simpl. by rewrite Hrest.
  - by rewrite Hc, IH, <-app_assoc.
Qed.

Lemma Base_last_element pre name :
  name ≠ "" → no_separator name = true →
  pre = "" ∨ (∃ dir, pre = dir +:+ "/") →
  filepath.Base (pre +:+ name) = name.
Proof.
  intros Hne Hns Hpre. unfold filepath.Base.
  assert (String.eqb (pre +:+ name) "" = false) as ->.
  { apply String.eqb_neq. destruct pre; [done|]. by destruct Hpre as [?|[? ?]]. }
  pose proof (no_separator_chars _ Hns) as Hcs.
  rewrite list_ascii_app, rev_app_distr.
  assert (rev (String.list_ascii_of_string name) ≠ []) as Hrev.
  { destruct name; [done|]. simpl. by intros ?%app_eq_nil%proj2. }
  apply Forall_rev in Hcs.
  assert (filepath.strip_separators
            (rev (String.list_ascii_of_string name) ++ rev (String.list_ascii_of_string pre))
          = rev (String.list_ascii_of_string name) ++ rev (String.list_ascii_of_string pre))
    as ->.
  { destruct Hcs as [|c cs Hc _]; [done|]. simpl. by rewrite Hc. }
  rewrite last_element_name; [|done|].
  - rewrite rev_involutive, app_nil_r.
    destruct name as [|c name]; [done|]. simpl.
    by rewrite String.string_of_list_ascii_of_string.
  - destruct Hpre as [->|[dir ->]]; [done|].
    rewrite list_ascii_app, rev_app_distr. done.
Qed.

(** X2: [NoUnderscores] looks at the last element of the path only: a file
    is rejected when its own name starts with an underscore, whatever the
    directories above it are called. *)
Theorem NoUnderscores_looks_at_the_last_element dir name :
  name ≠ "" → no_separator name = true →
  fs.NoUnderscores name = negb (strings.HasPrefix name "_") ∧
  fs.NoUnderscores (dir +:+ "/" +:+ name) = negb (strings.HasPrefix name "_").
Proof.
  intros Hne Hns. unfold fs.NoUnderscores. split.
  - pose proof (Base_last_element "" name Hne Hns (or_introl eq_refl)) as HBase.
    change ("" +:+ name) with name in HBase. by rewrite HBase.
  - replace (dir +:+ "/" +:+ name) with ((dir +:+ "/") +:+ name).
    + rewrite Base_last_element; eauto.
    + induction dir as [|c dir IH]; [done|]. exact (f_equal (String c) IH).
Qed.

Lemma NoUnderscores_looks_at_the_last_element_witness :
  fs.NoUnderscores "post.md" = true ∧
  fs.NoUnderscores "_archive/2020/post.md" = true.
Proof. by apply (NoUnderscores_looks_at_the_last_element "_archive/2020" "post.md"). Defined.

(** ** StreamFiles: what it leaves alone *)

Lemma reads_only_preorder ch : PreOrder (reads_only ch).
Proof.
  split.
  - by intros w.
  - intros w1 w2 w3 (Hd & Hc & Hf & Hs & Hch) (Hd' & Hc' & Hf' & Hs' & Hch').
    split_and!; try congruence. intros ch' Hne. by rewrite Hch', Hch.
Qed.
#[global] Existing Instance reads_only_preorder.

Lemma stays_closed_preorder ch : PreOrder (stays_closed ch).
Proof.
  split.
  - by intros w ops.
  - intros w1 w2 w3 H12 H23 ops Hops Hclosed. apply H23; [by apply H12|done].
Qed.
#[global] Existing Instance stays_closed_preorder.

Lemma chan_send_reads_only ch s w r w' :
  chan_send ch s w = (r, w') → reads_only ch w w'.
Proof.
  unfold chan_send. destruct (chans w !! ch) as [ops|]; [|by intros [= _ <-]].
  destruct (chan_closed ops); intros [= _ <-]; [done|].
  split_and!; try done. intros ch' Hne. simpl. by rewrite lookup_insert_ne.
Qed.

Lemma chan_close_reads_only ch w r w' :
  chan_close ch w = (r, w') → reads_only ch w w'.
Proof.
  unfold chan_close. destruct (chans w !! ch) as [ops|]; [|by intros [= _ <-]].
  destruct (chan_closed ops); intros [= _ <-]; [done|].
  split_and!; try done. intros ch' Hne. simpl. by rewrite lookup_insert_ne.
Qed.

Lemma chan_send_stays_closed ch s w r w' :
  chan_send ch s w = (r, w') → stays_closed ch w w'.
Proof.
  unfold chan_send. intros Hsend ops Hops Hclosed. rewrite Hops, Hclosed in Hsend.
  by injection Hsend as _ <-.
Qed.

(** What the walk function of [StreamFiles] changes is what its one send
    changes. *)
Lemma stream_send path files filters file info err w r w' :
  fs.stream path files filters file info err w = (r, w') →
  w' = w ∨ ∃ s r', chan_send files s w = (r', w').
Proof.
  unfold fs.stream. destruct err as [e|]; [intros [= _ <-]; by left|].
  destruct info as [info|]; [|intros [= _ <-]; by left].
  destruct (IsDir info); [intros [= _ <-]; by left|].
  destruct (negb (fs.passes filters file)); [intros [= _ <-]; by left|].
  destruct (String.eqb path ".").
  - rewrite bind_unfold. destruct (chan_send files file w) as [[[]|msg|] w1] eqn:Hsend;
      intros [= _ <-]; right; eauto.
  - destruct (slice_from file (String.length path)) as [rel|]; [|intros [= _ <-]; by left].
    rewrite bind_unfold. destruct (chan_send files rel w) as [[[]|msg|] w1] eqn:Hsend;
      intros [= _ <-]; right; eauto.
Qed.

Lemma StreamFiles_steps (R : relation World) `{!PreOrder R} path files filters :
  (∀ s w r w', chan_send files s w = (r, w') → R w w') →
  (∀ w r w', chan_close files w = (r, w') → R w w') →
  (∀ e w, R w (set_ErrStreaming e w)) →
  ∀ w r w', fs.StreamFiles path files filters w = (r, w') → R w w'.
Proof.
  intros Hsend Hclose Hset w r w'.
  unfold fs.StreamFiles. rewrite bind_unfold. unfold os.Stat, get.
  destruct (os.IsNotExist _).
  - rewrite bind_unfold.
    destruct (chan_close files w) as [[[]|msg|] w1] eqn:Hc; intros [= _ <-];
      by eapply Hclose.
  - rewrite bind_unfold.
    destruct (filepath.Walk path (fs.stream path files filters) w) as [rw w1] eqn:HWalk.
    assert (R w w1) as Hw1.
    { eapply (Walk_preserves R); [|exact HWalk].
      intros file info err wa ra wb [->|(s & r' & Hs)]%stream_send; [done|].
      by eapply Hsend. }
    destruct rw as [err|msg|]; [|by intros [= _ <-]..].
    rewrite bind_unfold. unfold modify. rewrite bind_unfold.
    destruct (chan_close files (set_ErrStreaming err w1)) as [[[]|msg|] w2] eqn:Hc;
      intros [= _ <-]; (etrans; [exact Hw1|]); (etrans; [apply Hset|]);
      by eapply Hclose.
Qed.

Lemma StreamFiles_reads_only path files filters w r w' :
  fs.StreamFiles path files filters w = (r, w') → reads_only files w w'.
Proof.
  apply StreamFiles_steps.
  - apply _.
  - apply chan_send_reads_only.
  - apply chan_close_reads_only.
  - done.
Qed.

(** X3: however [StreamFiles] ends, it has left the disk, the working
    directory and every other channel as they were, and has made no
    mutating system call. *)
Theorem StreamFiles_only_reads_the_disk path files filters w :
  reads_only files w (fs.StreamFiles path files filters w).2.
Proof.
  destruct (fs.StreamFiles path files filters w) as [r w'] eqn:Hrun.
  by eapply StreamFiles_reads_only.
Qed.

Lemma chan_close_stays_closed ch w r w' :
  chan_close ch w = (r, w') → stays_closed ch w w'.
Proof.
  unfold chan_close. intros Hclose ops Hops Hclosed. rewrite Hops, Hclosed in Hclose.
  by injection Hclose as _ <-.
Qed.

(** When [StreamFiles] returns, its last channel operation was the close. *)
Lemma StreamFiles_returns_closed path files filters w err w' :
  fs.StreamFiles path files filters w = (Ret err, w') →
  ∃ ops, chans w' !! files = Some ops ∧ chan_closed ops = true.
Proof.
  assert (∀ w0 w1, chan_close files w0 = (Ret (), w1) →
            ∃ ops, chans w1 !! files = Some ops ∧ chan_closed ops = true) as Hclose.
  { intros w0 w1. unfold chan_close.
    destruct (chans w0 !! files) as [ops|]; [|done].
    destruct (chan_closed ops); [done|]. intros [= <-].
    exists (ops ++ [Close]). simpl. rewrite lookup_insert_eq. split; [done|].
    unfold chan_closed. apply bool_decide_eq_true. set_solver. }
  unfold fs.StreamFiles. rewrite bind_unfold. unfold os.Stat, get.
  destruct (os.IsNotExist _).
  - rewrite bind_unfold.
    destruct (chan_close files w) as [[[]|msg|] w1] eqn:Hc; intros [= _ <-].
    by eapply Hclose.
  - rewrite bind_unfold.
    destruct (filepath.Walk path (fs.stream path files filters) w) as [[e|msg|] w1];
      [|done..].
    rewrite bind_unfold. unfold modify. rewrite bind_unfold.
    destruct (chan_close files (set_ErrStreaming e w1)) as [[[]|msg|] w2] eqn:Hc;
      intros [= _ <-].
    by eapply Hclose.
Qed.

(** On a closed channel [StreamFiles] does not return: its close panics,
    if a send has not before. *)
Lemma StreamFiles_on_closed path files filters w ops err w' :
  chans w !! files = Some ops → chan_closed ops = true →
  fs.StreamFiles path files filters w ≠ (Ret err, w').
Proof.
  intros Hops Hclosed Hrun.
  assert (∀ w0, chans w0 !! files = Some ops →
                ∀ w1, chan_close files w0 ≠ (Ret (), w1)) as Hclose.
  { intros w0 H0 w1. unfold chan_close. by rewrite H0, Hclosed. }
  revert Hrun.
  unfold fs.StreamFiles. rewrite bind_unfold. unfold os.Stat, get.
  destruct (os.IsNotExist _).
  - rewrite bind_unfold.
    destruct (chan_close files w) as [[[]|msg|] w1] eqn:Hc; [|done..].
    by apply Hclose in Hc.
  - rewrite bind_unfold.
    destruct (filepath.Walk path (fs.stream path files filters) w) as [rw w1] eqn:HWalk.
    assert (stays_closed files w w1) as Hw1.
    { eapply (Walk_preserves (stays_closed files)); [|exact HWalk].
      intros file info e wa ra wb [->|(s & r' & Hs)]%stream_send; [done|].
      by eapply chan_send_stays_closed. }
    destruct rw as [e|msg|]; [|done..].
    rewrite bind_unfold. unfold modify. rewrite bind_unfold.
    destruct (chan_close files (set_ErrStreaming e w1)) as [[[]|msg|] w2] eqn:Hc;
      [|done..].
    apply Hclose in Hc; [done|]. simpl. by apply Hw1.
Qed.

(** ** StreamFiles: roots that are files, roots it cannot read *)

Lemma slice_from_all s : slice_from s (String.length s) = Some "".
Proof. induction s as [|c s IH]; [done|]. exact IH. Qed.

(** X4: when the root, passed cleaned and other than [.], is not a
    directory but a regular file (or a socket) that passes the filters,
    [StreamFiles] sends the empty string for it: the whole traversal path
    is the prefix that is cut off. *)
Theorem StreamFiles_of_a_file_sends_the_empty_path w root files filters n :
  chan_open w files → readable w →
  filepath.Clean root = root → root ≠ "." →
  tree_at w root = Some n → IsDir (os.info_of n) = false →
  fs.passes filters root = true →
  fs.StreamFiles root files filters w = (Ret None, finished files None [""] w).
Proof.
  intros Hopen Hread _ Hroot Hat Hn Hpass.
  pose proof (tree_at_exists _ _ _ Hat) as Hex.
  rewrite (StreamFiles_exists root files filters w (Ret None) [""]); try done.
  unfold tree_at in Hat.
  destruct (os.locate w root) as [l|] eqn:Hloc; [|done].
  destruct (tree_lookup l (disk w)) as [n'| |] eqn:Hl; try done.
  injection Hat as ->.
  unfold filepath.Walk. rewrite bind_unfold.
  unfold os.Lstat, get, os.stat_of. rewrite Hloc, Hl.
  destruct (Hread l) as [-> _]. rewrite !bind_unfold.
  pose proof (depth_pos (disk w)) as Hdepth.
  destruct (depth (disk w)) as [|fuel]; [lia|].
  cbn [filepath.walk]. rewrite Hn. cbn [negb].
  assert (os.info_of n = {| IsDir := false |}) as -> by (by destruct n).
  rewrite stream_file, Hpass by done. unfold emitted_path.
  apply String.eqb_neq in Hroot. by rewrite Hroot, slice_from_all.
Qed.

Lemma StreamFiles_of_a_file_sends_the_empty_path_witness :
  fs.StreamFiles "site/about.md" out [fs.MarkdownOnly] site_world
  = (Ret None, finished out None [""] site_world).
Proof.
  apply (StreamFiles_of_a_file_sends_the_empty_path site_world "site/about.md" out
           [fs.MarkdownOnly] (File [])).
  - by exists [].
  - intros l. split; reflexivity.
  - reflexivity.
  - by intros [=].
  - reflexivity.
  - reflexivity.
  - reflexivity.
Defined.

Lemma stat_of_op op op' path w e :
  os.stat_of op path w = inr e →
  ∃ errno, e = PathError op path errno ∧
           os.stat_of op' path w = inr (PathError op' path errno).
Proof.
  unfold os.stat_of. destruct (os.locate w path) as [l|]; [|intros [= <-]; eauto].
  destruct (tree_lookup l (disk w)); [|intros [= <-]; eauto..].
  destruct (faults w ReqStat l); [intros [= <-]; eauto|done].
Qed.

(** X5: when [Lstat] of the root fails with another error than not-exist (a
    path through a file, a permission), [StreamFiles] sends nothing,
    closes the channel, and stores and returns that error. *)
Theorem StreamFiles_reports_a_root_it_cannot_stat w root files filters e :
  chan_open w files →
  os.Lstat root w = (Ret (inr e), w) → os.IsNotExist (Some e) = false →
  fs.StreamFiles root files filters w
  = (Ret (Some e), finished files (Some e) [] w).
Proof.
  intros Hopen HLstat Hnot.
  unfold os.Lstat, get in HLstat.
  assert (os.stat_of "lstat" root w = inr e) as Hstat by congruence.
  destruct (stat_of_op _ "stat" _ _ _ Hstat) as (errno & -> & Hstat').
  rewrite (StreamFiles_exists root files filters w (Ret (Some (PathError "lstat" root errno))) []);
    try done.
  - unfold exists_on_disk. rewrite Hstat'. simpl. simpl in Hnot.
    by rewrite Hnot.
  - rewrite add_sends_nil by done.
    unfold filepath.Walk. rewrite bind_unfold. unfold os.Lstat, get. rewrite Hstat.
    by rewrite bind_unfold, stream_error.
Qed.

Lemma StreamFiles_reports_a_root_it_cannot_stat_witness :
  fs.StreamFiles "site/about.md/comments" out [] site_world
  = (Ret (Some (PathError "lstat" "site/about.md/comments" ENOTDIR)),
     finished out (Some (PathError "lstat" "site/about.md/comments" ENOTDIR)) []
       site_world).
Proof.
  apply StreamFiles_reports_a_root_it_cannot_stat; [by exists []|reflexivity..].
Defined.

(** ** Walks that come to an end *)

Lemma while_preorder (I : World → Prop) (R : relation World) `{!PreOrder R} :
  PreOrder (while I R).
Proof.
  split.
  - by intros w Hw.
  - intros w1 w2 w3 H12 H23 H1. destruct (H12 H1) as [? H2].
    destruct (H23 H2) as [? H3]. split; [by etrans|done].
Qed.
#[global] Existing Instance while_preorder.

Lemma same_disk_preorder : PreOrder same_disk.
Proof.
  split.
  - by intros w.
  - intros w1 w2 w3 [? ?] [? ?]. split; congruence.
Qed.
#[global] Existing Instance same_disk_preorder.

Lemma same_disk_locate w w' path : same_disk w w' → os.locate w' path = os.locate w path.
Proof. intros [_ Hc]. unfold os.locate. by rewrite Hc. Qed.

Section walk_ends.
Context (I : World → Prop) (walkFn : filepath.WalkFunc).
Context (Hends : ∀ path info err w, I w → (walkFn path info err w).1 ≠ NoReturn).
Context (Hsame : ∀ path info err w r w',
           walkFn path info err w = (r, w') → while I same_disk w w').

Lemma walk_ends fuel : ∀ path l n w,
  I w → wf_node n = true →
  os.locate w path = Some l → tree_lookup l (disk w) = Found n →
  depth n ≤ fuel →
  (filepath.walk fuel path (os.info_of n) walkFn w).1 ≠ NoReturn.
Proof.
  induction fuel as [|fuel IH]; intros path l n w HI Hwf Hloc Hn Hfuel.
  { pose proof (depth_pos n). lia. }
  destruct n as [content|es|]; cbn [filepath.walk os.info_of IsDir negb];
    [by apply Hends| |by apply Hends].
  rewrite bind_unfold, (readDirNames_dir w path l es) by done.
  destruct (faults w ReqReadDir l) as [f|].
  { rewrite bind_unfold.
    pose proof (Hends path (Some (os.info_of (Dir es))) (Some (PathError "open" path (Failure f))) w HI).
    by destruct (walkFn _ _ _ w) as [[a|msg|] wa]. }
  rewrite bind_unfold.
  pose proof (Hends path (Some (os.info_of (Dir es))) None w HI) as Hcall.
  destruct (walkFn path (Some (os.info_of (Dir es))) None w) as [[[e|]|msg|] wa] eqn:Hfn;
    try done.
  destruct (Hsame _ _ _ _ _ _ Hfn HI) as [Hwa HIa]. clear Hcall Hfn.
  assert (merge_sort filepath.string_le (map fst es) ⊆ map fst es) as Hsub
    by (intros x; by rewrite merge_sort_Permutation).
  revert wa Hwa HIa Hsub. generalize (merge_sort filepath.string_le (map fst es)).
  intros names. induction names as [|name names IHn]; intros wa Hwa HIa Hsub;
    cbn [filepath.walk_names]; [done|].
  assert (name ∈ map fst es) as Hname by (apply Hsub, list_elem_of_here).
  assert (names ⊆ map fst es) as Hsub'
    by (intros x Hx; apply Hsub; by apply list_elem_of_further).
  destruct (entry_get name es) as [ch|] eqn:Hget; [|by apply entry_get_None in Hget].
  destruct (wf_node_child _ _ _ Hwf Hget) as [Hvalid Hwfch].
  assert (os.locate wa path = Some l) as Hloca by (by rewrite (same_disk_locate w)).
  assert (tree_lookup l (disk wa) = Found (Dir es)) as Hna
    by (destruct Hwa as [-> _]; done).
  rewrite bind_unfold, (Lstat_child wa path l es name) by done.
  rewrite Hget.
  destruct (faults wa ReqStat (l ++ [name])) as [f|].
  - rewrite bind_unfold.
    pose proof (Hends (filepath.Join [path; name]) None
                  (Some (PathError "lstat" (filepath.Join [path; name]) (Failure f))) wa HIa)
      as Hcall.
    destruct (walkFn _ None _ wa) as [[[e'|]|msg|] wb] eqn:Hfn; try done.
    + destruct (bool_decide (e' ≠ SkipDir)); [done|].
      destruct (Hsame _ _ _ _ _ _ Hfn HIa) as [Hwb HIb].
      apply IHn; [by etrans|done..].
    + destruct (Hsame _ _ _ _ _ _ Hfn HIa) as [Hwb HIb].
      apply IHn; [by etrans|done..].
  - rewrite bind_unfold.
    assert ((filepath.walk fuel (filepath.Join [path; name]) (os.info_of ch) walkFn wa).1
            ≠ NoReturn) as Hrec.
    { apply (IH _ (l ++ [name])); try done.
      - by apply locate_Join.
      - by rewrite (tree_lookup_child _ _ _ _ Hna), Hget.
      - pose proof (depth_child _ _ _ Hget). lia. }
    destruct (filepath.walk fuel _ (os.info_of ch) walkFn wa) as [[[e'|]|msg|] wb] eqn:Hwalk;
      try done.
    + destruct (negb (IsDir (os.info_of ch)) || bool_decide (e' ≠ SkipDir)); [done|].
      destruct (walk_preserves (while I same_disk) walkFn Hsame _ _ _ _ _ _ Hwalk HIa)
        as [Hwb HIb].
      apply IHn; [by etrans|done..].
    + destruct (walk_preserves (while I same_disk) walkFn Hsame _ _ _ _ _ _ Hwalk HIa)
        as [Hwb HIb].
      apply IHn; [by etrans|done..].
Qed.

Lemma Walk_ends root w :
  I w → wf_node (disk w) = true → (filepath.Walk root walkFn w).1 ≠ NoReturn.
Proof.
  intros HI Hwf. unfold filepath.Walk. rewrite bind_unfold.
  unfold os.Lstat, get, os.stat_of.
  assert (∀ e, ((walkFn root None (Some e) ≫=
                 λ err : option error,
                   if bool_decide (err = Some SkipDir) then mret None else mret err) w).1
               ≠ NoReturn) as Herr.
  { intros e. rewrite bind_unfold. pose proof (Hends root None (Some e) w HI).
    destruct (walkFn root None (Some e) w) as [[a|msg|] wa]; try done.
    by destruct (bool_decide (a = Some SkipDir)). }
  destruct (os.locate w root) as [l|] eqn:Hloc; [|apply Herr].
  destruct (tree_lookup l (disk w)) as [n| |] eqn:Hn; [|apply Herr..].
  destruct (faults w ReqStat l); [apply Herr|].
  rewrite !bind_unfold. unfold get.
  pose proof (walk_ends (depth (disk w)) root l n w HI
                (wf_node_lookup _ _ _ Hwf Hn) Hloc Hn (depth_lookup _ _ _ Hn)) as Hwalk.
  destruct (filepath.walk _ root (os.info_of n) walkFn w) as [[a|msg|] wa]; try done.
  by destruct (bool_decide (a = Some SkipDir)).
Qed.

End walk_ends.

(** ** fs.MkdirAll *)

Lemma tree_mkdir_all_stays l d d' l0 n :
  tree_mkdir_all l d = Some d' → tree_lookup l0 d = Found n →
  ∃ n', tree_lookup l0 d' = Found n' ∧ os.info_of n' = os.info_of n.
Proof.
  revert d d' l0 n. induction l as [|name l IH]; intros [c|es|] d' l0 n; simpl; try done.
  - intros [= <-]. eauto.
  - destruct (entry_get name es) as [ch|] eqn:Hget.
    + destruct (tree_mkdir_all l ch) as [ch'|] eqn:Hch; [|done].
      intros [= <-]. destruct l0 as [|n0 l0]; simpl.
      { intros [= <-]. eauto. }
      rewrite entry_get_set. case_decide as Hn; [subst; rewrite Hget|eauto].
      by eapply IH.
    + intros [= <-]. destruct l0 as [|n0 l0]; simpl.
      { intros [= <-]. eauto. }
      rewrite entry_get_set. case_decide as Hn; [subst; by rewrite Hget|eauto].
Qed.

Lemma tree_write_stays l data d d' l0 n :
  tree_write l data d = inl d' → tree_lookup l0 d = Found n →
  ∃ n', tree_lookup l0 d' = Found n' ∧ os.info_of n' = os.info_of n.
Proof.
  revert d d' l0 n. induction l as [|name l IH]; intros [c|es|] d' l0 n; simpl; try done.
  - intros [= <-]. destruct l0; [|done]. intros [= <-]. eauto.
  - destruct (entry_get name es) as [ch|] eqn:Hget.
    + destruct (tree_write l data ch) as [ch'|] eqn:Hch; [|done].
      intros [= <-]. destruct l0 as [|n0 l0]; simpl.
      { intros [= <-]. eauto. }
      rewrite entry_get_set. case_decide as Hn; [subst; rewrite Hget|eauto].
      by eapply IH.
    + destruct l; [|done].
      intros [= <-]. destruct l0 as [|n0 l0]; simpl.
      { intros [= <-]. eauto. }
      rewrite entry_get_set. case_decide as Hn; [subst; by rewrite Hget|eauto].
Qed.

Lemma entries_stay_preorder : PreOrder entries_stay.
Proof.
  split.
  - intros w. split_and!; eauto.
  - intros w1 w2 w3 (Hc1 & Hf1 & H1) (Hc2 & Hf2 & H2). split_and!; [congruence..|].
    intros l n (n' & Hn' & Hk)%H1. destruct (H2 _ _ Hn') as (n'' & ? & ?).
    exists n''. split; [done|congruence].
Qed.
#[global] Existing Instance entries_stay_preorder.

Lemma entries_stay_log c w : entries_stay w (log_syscall c w).
Proof. split_and!; eauto. Qed.

Lemma MkdirAll_entries_stay path w r w' :
  os.MkdirAll path w = (r, w') → entries_stay w w'.
Proof.
  unfold os.MkdirAll. intros H.
  repeat case_match; injection H as <- <-; try apply entries_stay_log.
  split_and!; try done. simpl. intros l0 ?. by eapply tree_mkdir_all_stays.
Qed.

Lemma WriteFile_entries_stay path data w r w' :
  ioutil.WriteFile path data w = (r, w') → entries_stay w w'.
Proof.
  unfold ioutil.WriteFile. intros H.
  repeat case_match; injection H as <- <-; try apply entries_stay_log.
  split_and!; try done. simpl. intros l0 ?. by eapply tree_write_stays.
Qed.

Lemma for_each_preserves {A} (R : relation World) `{!PreOrder R}
    (f : A → M (option error)) xs w r w' :
  (∀ x w r w', f x w = (r, w') → R w w') →
  core.for_each xs f w = (r, w') → R w w'.
Proof.
  intros Hf. revert w. induction xs as [|x xs IH]; intros w; simpl.
  - by intros [= <- <-].
  - rewrite bind_unfold. destruct (f x w) as [[[e|]|msg|] wa] eqn:Hx;
      intros H; try (injection H as <- <-; by eapply Hf).
    etrans; [by eapply Hf|by eapply IH].
Qed.

(** [fs.MkdirAll] is the loop over its directories. *)
Lemma fs_MkdirAll_for_each path dirs :
  fs.MkdirAll path dirs
  = core.for_each dirs (λ dir, os.MkdirAll (filepath.Join [path; dir])).
Proof. induction dirs as [|dir dirs IH]; simpl; [done|]. by rewrite IH. Qed.

Lemma for_each_app {A} (f : A → M (option error)) xs ys w :
  core.for_each (xs ++ ys) f w =
  match core.for_each xs f w with
  | (Ret None, w1) => core.for_each ys f w1
  | other => other
  end.
Proof.
  revert w. induction xs as [|x xs IH]; intros w; simpl.
  - done.
  - rewrite !bind_unfold. by destruct (f x w) as [[[e|]|msg|] wa].
Qed.

Lemma is_directory_stays w w' path :
  entries_stay w w' → is_directory w path → is_directory w' path.
Proof.
  intros (Hc & _ & Hstay) [es Hat]. unfold is_directory, tree_at in *.
  assert (os.locate w' path = os.locate w path) as ->
    by (unfold os.locate; by rewrite Hc).
  destruct (os.locate w path) as [l|]; [|done].
  destruct (tree_lookup l (disk w)) as [n| |] eqn:Hl; try done.
  injection Hat as ->. destruct (Hstay _ _ Hl) as ([c|es'|] & -> & Hk); [done|eauto|done].
Qed.

Lemma MkdirAll_is_directory path w w' :
  os.MkdirAll path w = (Ret None, w') → is_directory w' path.
Proof.
  intros Hrun. pose proof (MkdirAll_entries_stay _ _ _ _ Hrun) as (Hc & _).
  apply MkdirAll_success in Hrun as (l & es & Hloc & Hl).
  exists es. unfold tree_at.
  assert (os.locate w' path = os.locate w path) as ->
    by (unfold os.locate; by rewrite Hc).
  by rewrite Hloc, Hl.
Qed.

(** When a loop of [os.MkdirAll] succeeds every path is a directory. *)
Lemma for_each_MkdirAll_success paths : ∀ w w',
  core.for_each paths os.MkdirAll w = (Ret None, w') →
  ∀ p, p ∈ paths → is_directory w' p.
Proof.
  induction paths as [|p0 paths IH]; intros w w' Hrun p Hp.
  { by apply elem_of_nil in Hp. }
  apply for_each_cons_success in Hrun as (wa & Hfirst & Hrest).
  apply elem_of_cons in Hp as [->|Hp]; [|by eapply IH].
  apply (is_directory_stays wa).
  - eapply (for_each_preserves entries_stay); [|exact Hrest].
    intros ? ? ? ?. apply MkdirAll_entries_stay.
  - by eapply MkdirAll_is_directory.
Qed.

Lemma for_each_map {A B} (g : A → B) (f : B → M (option error)) xs :
  core.for_each (map g xs) f = core.for_each xs (λ x, f (g x)).
Proof. induction xs as [|x xs IH]; simpl; [done|]. by rewrite IH. Qed.

(** On a directory [os.MkdirAll] has nothing to do. *)
Lemma MkdirAll_of_a_directory path w :
  is_directory w path →
  os.MkdirAll path w = (Ret None, log_syscall (SysMkdirAll path) w).
Proof.
  intros [es Hat]. unfold tree_at in Hat. unfold os.MkdirAll.
  change (os.locate (log_syscall (SysMkdirAll path) w) path)
    with (os.locate w path).
  destruct (os.locate w path) as [l|]; [|done]. cbn [disk log_syscall].
  by destruct (tree_lookup l (disk w)) as [[c|es'|]| |].
Qed.

Lemma for_each_MkdirAll_again paths : ∀ w,
  (∀ p, p ∈ paths → is_directory w p) →
  ∃ w', core.for_each paths os.MkdirAll w = (Ret None, w') ∧ disk w' = disk w.
Proof.
  induction paths as [|p0 paths IH]; intros w Hdirs; simpl; [by exists w|].
  rewrite bind_unfold, MkdirAll_of_a_directory by (apply Hdirs; by left).
  destruct (IH (log_syscall (SysMkdirAll p0) w)) as (w' & Hrun & Hdisk).
  { intros p Hp. apply (is_directory_stays w); [apply entries_stay_log|].
    apply Hdirs. by right. }
  by exists w'.
Qed.

(** X6: when [fs.MkdirAll] returns nil, every directory asked for is there,
    as a directory, under the path. *)
Theorem fs_MkdirAll_makes_every_directory path dirs w w' :
  fs.MkdirAll path dirs w = (Ret None, w') →
  Forall (λ dir, is_directory w' (filepath.Join [path; dir])) dirs.
Proof.
  rewrite fs_MkdirAll_for_each.
  rewrite <-(for_each_map (λ dir, filepath.Join [path; dir]) os.MkdirAll).
  intros Hrun. apply Forall_forall. intros dir Hdir.
  eapply for_each_MkdirAll_success; [exact Hrun|].
  apply list_elem_of_fmap. eauto.
Qed.

Lemma fs_MkdirAll_makes_every_directory_witness :
  Forall (λ dir, is_directory (fs.MkdirAll "site/theme" ["css"; "js/vendor"] site_world).2
                   (filepath.Join ["site/theme"; dir]))
         ["css"; "js/vendor"].
Proof.
  apply (fs_MkdirAll_makes_every_directory "site/theme" ["css"; "js/vendor"] site_world).
  reflexivity.
Defined.

(** X7: [fs.MkdirAll] of two lists in a row is [fs.MkdirAll] of the first
    followed, when that returned nil, by [fs.MkdirAll] of the second: after
    the first error no further directory is attempted. *)
Theorem fs_MkdirAll_stops_at_the_first_error path dirs dirs' w :
  fs.MkdirAll path (dirs ++ dirs') w =
  match fs.MkdirAll path dirs w with
  | (Ret None, w1) => fs.MkdirAll path dirs' w1
  | failed => failed
  end.
Proof. rewrite !fs_MkdirAll_for_each. apply for_each_app. Qed.

(** X8: after [fs.MkdirAll] returned nil, the same call again returns nil and
    leaves the disk as it is. *)
Theorem fs_MkdirAll_again_changes_nothing path dirs w w' :
  fs.MkdirAll path dirs w = (Ret None, w') →
  ∃ w'', fs.MkdirAll path dirs w' = (Ret None, w'') ∧ disk w'' = disk w'.
Proof.
  rewrite !fs_MkdirAll_for_each.
  rewrite <-!(for_each_map (λ dir, filepath.Join [path; dir]) os.MkdirAll).
  intros Hrun. apply for_each_MkdirAll_again.
  by eapply for_each_MkdirAll_success.
Qed.

Lemma fs_MkdirAll_again_changes_nothing_witness :
  ∃ w'', fs.MkdirAll "site/theme" ["css"; "js/vendor"]
           (fs.MkdirAll "site/theme" ["css"; "js/vendor"] site_world).2
         = (Ret None, w'') ∧
         disk w'' = disk (fs.MkdirAll "site/theme" ["css"; "js/vendor"] site_world).2.
Proof.
  apply (fs_MkdirAll_again_changes_nothing "site/theme" ["css"; "js/vendor"] site_world).
  reflexivity.
Defined.

(** ** StreamFiles: one call per channel *)

Lemma stream_ends path files filters file info err w :
  is_Some (chans w !! files) →
  (fs.stream path files filters file info err w).1 ≠ NoReturn.
Proof.
  intros [ops Hops]. unfold fs.stream.
  assert (∀ s, (chan_send files s w).1 ≠ NoReturn) as Hsend.
  { intros s. unfold chan_send. rewrite Hops. by destruct (chan_closed ops). }
  destruct err as [e|]; [done|]. destruct info as [info|]; [|done].
  destruct (IsDir info); [done|].
  destruct (negb (fs.passes filters file)); [done|].
  destruct (String.eqb path ".").
  - rewrite bind_unfold. specialize (Hsend file).
    by destruct (chan_send files file w) as [[[]|msg|] w1].
  - destruct (slice_from file (String.length path)) as [rel|]; [|done].
    rewrite bind_unfold. specialize (Hsend rel).
    by destruct (chan_send files rel w) as [[[]|msg|] w1].
Qed.

Lemma chan_send_made ch s w r w' :
  chan_send ch s w = (r, w') → is_Some (chans w !! ch) → is_Some (chans w' !! ch).
Proof.
  unfold chan_send. intros Hsend [ops Hops]. rewrite Hops in Hsend.
  destruct (chan_closed ops); injection Hsend as _ <-; [by exists ops|].
  simpl. rewrite lookup_insert_eq. eauto.
Qed.

Lemma stream_same_disk path files filters file info err w r w' :
  fs.stream path files filters file info err w = (r, w') →
  while (λ w, is_Some (chans w !! files)) same_disk w w'.
Proof.
  intros [->|(s & r' & Hs)]%stream_send Hmade; [done|]. split.
  - apply chan_send_reads_only in Hs as (? & ? & _). by split.
  - by eapply chan_send_made.
Qed.

(** On a channel that was made, and a disk that is well formed,
    [StreamFiles] comes to an end. *)
Lemma StreamFiles_ends path files filters w :
  is_Some (chans w !! files) → wf_node (disk w) = true →
  (fs.StreamFiles path files filters w).1 ≠ NoReturn.
Proof.
  intros Hmade Hwf.
  assert (∀ w0, is_Some (chans w0 !! files) → (chan_close files w0).1 ≠ NoReturn)
    as Hclose.
  { intros w0 [ops Hops]. unfold chan_close. rewrite Hops. by destruct (chan_closed ops). }
  unfold fs.StreamFiles. rewrite bind_unfold. unfold os.Stat, get.
  destruct (os.IsNotExist _).
  - rewrite bind_unfold. specialize (Hclose w Hmade).
    by destruct (chan_close files w) as [[[]|msg|] w1].
  - rewrite bind_unfold.
    pose proof (Walk_ends (λ w, is_Some (chans w !! files))
                  (fs.stream path files filters)
                  (stream_ends path files filters)
                  (stream_same_disk path files filters) path w Hmade Hwf) as HWalk.
    destruct (filepath.Walk path (fs.stream path files filters) w) as [[e|msg|] w1] eqn:Hrun;
      try done.
    destruct (Walk_preserves (while (λ w, is_Some (chans w !! files)) same_disk)
                (fs.stream path files filters) (stream_same_disk path files filters)
                _ _ _ _ Hrun Hmade) as [_ Hmade1].
    rewrite bind_unfold. unfold modify. rewrite bind_unfold.
    specialize (Hclose (set_ErrStreaming e w1) Hmade1).
    by destruct (chan_close files (set_ErrStreaming e w1)) as [[[]|msg|] w2].
Qed.

(** X9: a channel serves one call: after [StreamFiles] returned, every
    further call on the same channel panics (on its close, or on a send
    before it). *)
Theorem StreamFiles_panics_on_a_channel_it_closed path files filters w err w1 :
  wf_node (disk w) = true →
  fs.StreamFiles path files filters w = (Ret err, w1) →
  ∀ path' filters', ∃ msg w2,
    fs.StreamFiles path' files filters' w1 = (Panic msg, w2).
Proof.
  intros Hwf Hrun path' filters'.
  pose proof (StreamFiles_returns_closed _ _ _ _ _ _ Hrun) as (ops & Hops & Hclosed).
  pose proof (StreamFiles_reads_only _ _ _ _ _ _ Hrun) as (Hdisk & _).
  pose proof (StreamFiles_ends path' files filters' w1) as Hends.
  pose proof (StreamFiles_on_closed path' files filters' w1 ops) as Hnot.
  destruct (fs.StreamFiles path' files filters' w1) as [[e|msg|] w2].
  - by destruct (Hnot e w2).
  - eauto.
  - destruct Hends; [by rewrite Hops|by rewrite Hdisk|done].
Qed.

Lemma StreamFiles_panics_on_a_channel_it_closed_witness :
  ∃ msg w2,
    fs.StreamFiles "drafts" out [] (fs.StreamFiles "site" out [] site_world).2
    = (Panic msg, w2).
Proof.
  apply (StreamFiles_panics_on_a_channel_it_closed "site" out [] site_world None);
    reflexivity.
Defined.

(** ** fs.Rmdir *)

Lemma tree_remove_gone l d n :
  l ≠ [] → tree_lookup l d = Found n → tree_lookup l (tree_remove l d) = Missing.
Proof.
  destruct l as [|x l0] using rev_ind; [done|]. clear IHl0. intros _.
  rewrite tree_lookup_app.
  destruct (tree_lookup l0 d) as [[c|es|]| |] eqn:Hparent; try done.
  intros _. rewrite <-(app_nil_r (l0 ++ [x])), <-app_assoc.
  by eapply tree_remove_below.
Qed.

(** Removing the entry at [l] changes nothing at a location that is
    neither above [l] nor at or below it. *)
Lemma tree_remove_elsewhere l : ∀ d l0,
  ¬ l `prefix_of` l0 → ¬ l0 `prefix_of` l →
  tree_lookup l0 (tree_remove l d) = tree_lookup l0 d.
Proof.
  induction l as [|name l IH]; intros d l0 Hbelow Habove; [done|].
  destruct l0 as [|n0 l0]; [destruct Habove; apply prefix_nil|].
  destruct d as [c|es|]; [done| |done].
  destruct (decide (l = [])) as [->|Hl].
  - simpl. rewrite entry_get_del. case_decide as Hn; [|done].
    subst. destruct Hbelow. by apply prefix_cons, prefix_nil.
  - rewrite tree_remove_cons by done.
    destruct (entry_get name es) as [ch|] eqn:Hget; [|done].
    simpl. rewrite entry_get_set. case_decide as Hn; [|done].
    subst. rewrite Hget. apply IH.
    + intros ?. apply Hbelow. by apply prefix_cons.
    + intros ?. apply Habove. by apply prefix_cons.
Qed.

Lemma exists_on_disk_false w path :
  exists_on_disk w path = false ↔
  match os.locate w path with
  | Some l => tree_lookup l (disk w) = Missing
  | None => True
  end.
Proof.
  unfold exists_on_disk, os.stat_of.
  destruct (os.locate w path) as [l|]; [|done].
  destruct (tree_lookup l (disk w)); [|done..].
  by destruct (faults w ReqStat l).
Qed.

(** [os.RemoveAll] of a path that does not exist. *)
Lemma RemoveAll_missing path w :
  exists_on_disk w path = false →
  os.RemoveAll path w
  = (Ret (if os.endsWithDot path then Some (PathError "RemoveAll" path EINVAL) else None),
     log_syscall (SysRemoveAll path) w).
Proof.
  intros Hex%exists_on_disk_false. unfold os.RemoveAll.
  change (os.locate (log_syscall (SysRemoveAll path) w) path) with (os.locate w path).
  cbn [disk log_syscall].
  destruct (String.eqb_spec path "") as [->|Hpath]; [done|].
  destruct (os.endsWithDot path); [done|].
  destruct (os.locate w path) as [l|]; [|done]. by rewrite Hex.
Qed.

Lemma Rmdir_missing path w :
  exists_on_disk w path = false →
  fs.Rmdir afero.NewOsFs path w
  = (Ret (if os.endsWithDot path then Some (PathError "RemoveAll" path EINVAL) else None),
     log_syscall (SysRemoveAll path) w).
Proof.
  intros Hex. unfold fs.Rmdir. rewrite bind_unfold.
  cbn [afero.Stat afero.RemoveAll afero.NewOsFs]. unfold os.Stat, get.
  pose proof Hex as Hex'. unfold exists_on_disk in Hex'.
  apply negb_false_iff in Hex'.
  destruct (os.err_of (os.stat_of "stat" path w)) as [e|]; [|done].
  rewrite Hex'. cbn [negb]. by apply RemoveAll_missing.
Qed.

(** X10: when [Stat] fails on the path, [Rmdir] looks at the error.  If it
    is the error [os.IsNotExist] accepts, the path is handed to
    [RemoveAll], which changes nothing on disk and returns nil, unless the
    path ends in a [.] element, which [RemoveAll] refuses.  If it is
    another error (a regular file on the way, a permission), [Rmdir]
    returns it and asks for no removal. *)
Theorem Rmdir_of_a_path_Stat_fails_on path w e :
  os.Stat path w = (Ret (inr e), w) →
  fs.Rmdir afero.NewOsFs path w
  = if os.IsNotExist (Some e)
    then (Ret (if os.endsWithDot path
               then Some (PathError "RemoveAll" path EINVAL) else None),
          log_syscall (SysRemoveAll path) w)
    else (Ret (Some e), w).
Proof.
  intros Hstat. destruct (os.IsNotExist (Some e)) eqn:He.
  - apply Rmdir_missing. unfold exists_on_disk.
    unfold os.Stat, get in Hstat. injection Hstat as ->.
    cbn [os.err_of]. by rewrite He.
  - unfold fs.Rmdir. rewrite bind_unfold.
    cbn [afero.Stat afero.RemoveAll afero.NewOsFs]. rewrite Hstat.
    cbn [os.err_of]. by rewrite He.
Qed.

Lemma Rmdir_of_a_path_Stat_fails_on_witness :
  fs.Rmdir afero.NewOsFs "site/about.md/comments" site_world
  = (Ret (Some (PathError "stat" "site/about.md/comments" ENOTDIR)), site_world).
Proof.
  apply (Rmdir_of_a_path_Stat_fails_on "site/about.md/comments" site_world
           (PathError "stat" "site/about.md/comments" ENOTDIR)).
  reflexivity.
Defined.

Example Rmdir_of_a_missing_path :
  fs.Rmdir afero.NewOsFs "site/target" site_world
  = (Ret None, log_syscall (SysRemoveAll "site/target") site_world).
Proof. reflexivity. Qed.

(** [fs.Rmdir] of an entry that is there. *)
Lemma Rmdir_found path w l n :
  os.locate w path = Some l → tree_lookup l (disk w) = Found n →
  fs.Rmdir afero.NewOsFs path w =
  match faults w ReqStat l with
  | Some f => (Ret (Some (PathError "stat" path (Failure f))), w)
  | None => os.RemoveAll path w
  end.
Proof.
  intros Hloc Hl. unfold fs.Rmdir. rewrite bind_unfold.
  cbn [afero.Stat afero.RemoveAll afero.NewOsFs]. unfold os.Stat, get, os.stat_of.
  rewrite Hloc, Hl. by destruct (faults w ReqStat l).
Qed.

Lemma RemoveAll_found path w l n :
  os.locate w path = Some l → tree_lookup l (disk w) = Found n →
  os.endsWithDot path = false → l ≠ [] → faults w ReqRemove l = None →
  os.RemoveAll path w
  = (Ret None, set_disk (tree_remove l (disk w)) (log_syscall (SysRemoveAll path) w)).
Proof.
  intros Hloc Hl Hdot Hroot Hfault. unfold os.RemoveAll.
  change (os.locate (log_syscall (SysRemoveAll path) w) path) with (os.locate w path).
  cbn [disk faults log_syscall].
  destruct (String.eqb_spec path "") as [->|Hpath]; [done|].
  rewrite Hdot, Hloc, Hl, Hfault. by destruct l.
Qed.

Lemma endsWithDot_Base path : os.endsWithDot path = true → filepath.Base path = ".".
Proof.
  unfold os.endsWithDot, filepath.Base.
  destruct (String.eqb_spec path ".") as [->|_]; [done|].
  destruct (String.eqb_spec path "") as [->|_]; [done|].
  destruct (rev (String.list_ascii_of_string path)) as [|c1 [|c2 r]]; try done.
  intros [Hc1%Ascii.eqb_eq Hc2]%andb_true_iff. subst c1. simpl. by rewrite Hc2.
Qed.

Lemma names_an_entry_endsWithDot path :
  names_an_entry path → os.endsWithDot path = false.
Proof.
  intros [_ Hbase]. destruct (os.endsWithDot path) eqn:Hdot; [|done].
  by rewrite (endsWithDot_Base _ Hdot) in Hbase.
Qed.

(** X11: [Rmdir] of an entry that is there, under a cleaned path that ends
    in its name, when [Stat] does not fail on it and no removal at or
    below it fails, returns nil; afterwards the path does not exist, and
    what is neither below nor above it is as before. *)
Theorem Rmdir_removes_the_tree_and_nothing_else path w l n :
  names_an_entry path →
  os.locate w path = Some l → tree_lookup l (disk w) = Found n → l ≠ [] →
  faults w ReqStat l = None →
  (∀ l0, l `prefix_of` l0 → faults w ReqRemove l0 = None) →
  ∃ w', fs.Rmdir afero.NewOsFs path w = (Ret None, w') ∧
        exists_on_disk w' path = false ∧
        ∀ l0, ¬ l `prefix_of` l0 → ¬ l0 `prefix_of` l →
              tree_lookup l0 (disk w') = tree_lookup l0 (disk w).
Proof.
  intros Hdot%names_an_entry_endsWithDot Hloc Hl Hroot Hstat Hremove.
  specialize (Hremove l (reflexivity l)).
  rewrite (Rmdir_found path w l n), Hstat by done.
  rewrite (RemoveAll_found path w l n) by done.
  eexists. split; [done|]. split.
  - apply exists_on_disk_false.
    change (os.locate (set_disk _ (log_syscall _ w)) path) with (os.locate w path).
    rewrite Hloc. cbn [disk set_disk]. by eapply tree_remove_gone.
  - intros l0 ? ?. cbn [disk set_disk]. by apply tree_remove_elsewhere.
Qed.

Lemma Rmdir_removes_the_tree_and_nothing_else_witness :
  ∃ w', fs.Rmdir afero.NewOsFs "site/posts" site_world = (Ret None, w') ∧
        exists_on_disk w' "site/posts" = false ∧
        ∀ l0, ¬ ["srv"; "site"; "posts"] `prefix_of` l0 →
              ¬ l0 `prefix_of` ["srv"; "site"; "posts"] →
              tree_lookup l0 (disk w') = tree_lookup l0 (disk site_world).
Proof.
  apply (Rmdir_removes_the_tree_and_nothing_else "site/posts" site_world
           ["srv"; "site"; "posts"] (Dir [("one.md", File [])]));
    [by split|reflexivity|reflexivity|done|reflexivity|intros l0 _; reflexivity].
Defined.

(** X12: after [Rmdir] returned nil, the same call again returns nil and
    leaves the disk as it is. *)
Theorem Rmdir_twice path w w1 :
  fs.Rmdir afero.NewOsFs path w = (Ret None, w1) →
  ∃ w2, fs.Rmdir afero.NewOsFs path w1 = (Ret None, w2) ∧ disk w2 = disk w1.
Proof.
  intros Hrun.
  assert (exists_on_disk w1 path = false ∧ os.endsWithDot path = false) as [Hgone Hdot].
  { destruct (exists_on_disk w path) eqn:Hex.
    - apply exists_on_disk_spec in Hex as (l & Hloc & Hl).
      destruct (tree_lookup l (disk w)) as [n| |] eqn:Hn; [|done|].
      + rewrite (Rmdir_found path w l n) in Hrun by done.
        destruct (faults w ReqStat l); [done|].
        revert Hrun. unfold os.RemoveAll.
        change (os.locate (log_syscall (SysRemoveAll path) w) path) with (os.locate w path).
        cbn [disk faults log_syscall].
        destruct (String.eqb_spec path "") as [->|Hpath]; [done|].
        destruct (os.endsWithDot path); [done|]. rewrite Hloc, Hn.
        destruct l as [|x l]; [done|].
        destruct (faults w ReqRemove (x :: l)); [done|]. intros [= <-].
        split; [|done]. apply exists_on_disk_false.
        change (os.locate (set_disk _ (log_syscall _ w)) path) with (os.locate w path).
        rewrite Hloc. exact (tree_remove_gone (x :: l) (disk w) n ltac:(done) Hn).
      + revert Hrun. unfold fs.Rmdir. rewrite bind_unfold.
        cbn [afero.Stat afero.RemoveAll afero.NewOsFs]. unfold os.Stat, get, os.stat_of.
        by rewrite Hloc, Hn.
    - rewrite Rmdir_missing in Hrun by done.
      destruct (os.endsWithDot path); [done|]. by injection Hrun as <-. }
  rewrite Rmdir_missing, Hdot by done. by eexists.
Qed.

Lemma Rmdir_twice_witness :
  ∃ w2, fs.Rmdir afero.NewOsFs "site/posts"
          (fs.Rmdir afero.NewOsFs "site/posts" site_world).2 = (Ret None, w2) ∧
        disk w2 = disk (fs.Rmdir afero.NewOsFs "site/posts" site_world).2.
Proof. by apply (Rmdir_twice "site/posts" site_world). Defined.

(** ** createFiles *)

Lemma tree_write_lookup l data d d' :
  tree_write l data d = inl d' → tree_lookup l d' = Found (File data).
Proof.
  revert d d'. induction l as [|name l IH]; intros [c|es|] d'; simpl; try done.
  - by intros [= <-].
  - destruct (entry_get name es) as [ch|] eqn:Hget.
    + destruct (tree_write l data ch) as [ch'|] eqn:Hch; [|done].
      intros [= <-]. simpl. rewrite entry_get_set, decide_True by done. by eapply IH.
    + destruct l; [|done]. intros [= <-]. simpl.
      by rewrite entry_get_set, decide_True.
Qed.

(** Writing the file at [l] leaves every other file as it is. *)
Lemma tree_write_elsewhere l data d d' l0 c :
  tree_write l data d = inl d' → l0 ≠ l →
  tree_lookup l0 d = Found (File c) → tree_lookup l0 d' = Found (File c).
Proof.
  revert d d' l0. induction l as [|name l IH]; intros [c'|es|] d' l0; simpl; try done.
  - intros [= <-] Hne. by destruct l0.
  - destruct (entry_get name es) as [ch|] eqn:Hget.
    + destruct (tree_write l data ch) as [ch'|] eqn:Hch; [|done].
      intros [= <-] Hne. destruct l0 as [|n0 l0]; simpl; [done|].
      rewrite entry_get_set. case_decide as Hn; [subst; rewrite Hget|done].
      eapply IH; [done|]. by intros ->.
    + destruct l; [|done].
      intros [= <-] Hne. destruct l0 as [|n0 l0]; simpl; [done|].
      rewrite entry_get_set. case_decide as Hn; [subst; by rewrite Hget|done].
Qed.

(** Writing a file makes no directory. *)
Lemma tree_write_no_directory l data d d' l0 es' :
  tree_write l data d = inl d' → tree_lookup l0 d' = Found (Dir es') →
  ∃ es, tree_lookup l0 d = Found (Dir es).
Proof.
  revert d d' l0. induction l as [|name l IH]; intros [c|es|] d' l0; simpl; try done.
  - intros [= <-]. by destruct l0.
  - destruct (entry_get name es) as [ch|] eqn:Hget.
    + destruct (tree_write l data ch) as [ch'|] eqn:Hch; [|done].
      intros [= <-]. destruct l0 as [|n0 l0]; simpl; [eauto|].
      rewrite entry_get_set. case_decide as Hn; [subst; rewrite Hget|eauto].
      by eapply IH.
    + destruct l; [|done].
      intros [= <-]. destruct l0 as [|n0 l0]; simpl; [eauto|].
      rewrite entry_get_set. case_decide as Hn; [subst|eauto]. by destruct l0.
Qed.

(** A file is written into a directory that is there. *)
Lemma tree_write_directory l name data d d' :
  tree_write (l ++ [name]) data d = inl d' → ∃ es, tree_lookup l d = Found (Dir es).
Proof.
  revert d d'. induction l as [|x l IH]; intros [c|es|] d'; simpl; try done.
  - eauto.
  - destruct (entry_get x es) as [ch|] eqn:Hget.
    + destruct (tree_write (l ++ [name]) data ch) as [ch'|] eqn:Hch; [|done].
      intros _. by eapply IH.
    + by destruct l.
Qed.

Lemma WriteFile_cases path data w :
  ∃ r, ioutil.WriteFile path data w = (Ret r, (ioutil.WriteFile path data w).2).
Proof. unfold ioutil.WriteFile. repeat case_match; eauto. Qed.

Lemma WriteFile_success path data w w' :
  ioutil.WriteFile path data w = (Ret None, w') →
  ∃ l d, os.locate w path = Some l ∧ tree_write l data (disk w) = inl d ∧
         w' = set_disk d (log_syscall (SysWriteFile path data) w).
Proof.
  unfold ioutil.WriteFile.
  change (os.locate (log_syscall (SysWriteFile path data) w) path)
    with (os.locate w path).
  cbn [disk faults log_syscall].
  destruct (os.locate w path) as [l|]; [|done].
  destruct (tree_write l data (disk w)) as [d|e] eqn:Hd; [|done].
  destruct (faults w ReqWrite l); [done|]. intros [= <-]. eauto.
Qed.

Lemma WriteFile_failure path data w e w' :
  ioutil.WriteFile path data w = (Ret (Some e), w') →
  w' = log_syscall (SysWriteFile path data) w.
Proof. unfold ioutil.WriteFile. intros H. by repeat case_match; simplify_eq. Qed.

Lemma write_all_same_cwd kvs w r w' : write_all kvs w = (r, w') → cwd w' = cwd w.
Proof.
  intros Hrun. eapply (for_each_preserves entries_stay) in Hrun as [? _]; [done|].
  intros [p c] ? ? ?. apply WriteFile_entries_stay.
Qed.

(** The loop of [createFiles] leaves a file at [l] as it is when it
    writes elsewhere. *)
Lemma write_all_elsewhere kvs l c : ∀ w r w',
  write_all kvs w = (r, w') →
  Forall (λ kv, os.locate w kv.1 ≠ Some l) kvs →
  tree_lookup l (disk w) = Found (File c) → tree_lookup l (disk w') = Found (File c).
Proof.
  induction kvs as [|[p0 c0] kvs IH]; intros w r w'; unfold write_all; simpl.
  { by intros [= _ <-]. }
  rewrite bind_unfold. intros Hrun [Hp0 Hrest]%Forall_cons Hl. simpl in Hp0.
  destruct (WriteFile_cases p0 c0 w) as [[e|] Hw]; rewrite Hw in Hrun.
  - injection Hrun as _ <-. apply WriteFile_failure in Hw. by rewrite Hw.
  - pose proof Hw as (l0 & d & Hloc & Hd & Hw')%WriteFile_success.
    eapply (IH _ _ _ Hrun).
    + eapply Forall_impl; [exact Hrest|]. intros [p c'] Hp. simpl in *.
      assert (os.locate (ioutil.WriteFile p0 c0 w).2 p = os.locate w p) as ->; [|done].
      unfold os.locate. by rewrite Hw'.
    + rewrite Hw'. cbn [disk set_disk]. eapply tree_write_elsewhere; [done| |done].
      intros ->. by rewrite Hloc in Hp0.
Qed.

(** When the loop succeeds and the paths name different places, every
    path holds its content. *)
Lemma write_all_success kvs : ∀ w w',
  write_all kvs w = (Ret None, w') →
  NoDup (map (λ kv, os.locate w kv.1) kvs) →
  Forall (λ kv, tree_at w' kv.1 = Some (File kv.2)) kvs.
Proof.
  induction kvs as [|[p0 c0] kvs IH]; intros w w' Hrun Hnd; [done|].
  apply NoDup_cons in Hnd as [Hp0 Hnd]. simpl in Hp0.
  pose proof (write_all_same_cwd _ _ _ _ Hrun) as Hcwd.
  unfold write_all in Hrun. apply for_each_cons_success in Hrun as (wa & Hfirst & Hrest).
  pose proof Hfirst as (l0 & d & Hloc & Hd & Hwa)%WriteFile_success.
  assert (∀ p, os.locate wa p = os.locate w p) as Hsame
    by (intros p; unfold os.locate; by rewrite Hwa).
  constructor.
  - simpl. unfold tree_at.
    assert (os.locate w' p0 = Some l0) as ->
      by (unfold os.locate in *; by rewrite Hcwd).
    erewrite (write_all_elsewhere kvs l0 c0 wa); [done|exact Hrest| |].
    + apply Forall_forall. intros [p c] Hin Hp. simpl in Hp. apply Hp0.
      rewrite Hloc, <-Hp, Hsame. apply list_elem_of_fmap. by exists (p, c).
    + rewrite Hwa. cbn [disk set_disk]. by eapply tree_write_lookup.
  - apply (IH wa); [done|].
    erewrite map_ext; [exact Hnd|]. intros [p c]. apply Hsame.
Qed.

Lemma write_all_returns kvs : ∀ w, ∃ r w', write_all kvs w = (Ret r, w').
Proof.
  induction kvs as [|[p c] kvs IH]; intros w; unfold write_all; simpl; [by eexists _, _|].
  rewrite bind_unfold. destruct (WriteFile_cases p c w) as [[e|] ->]; [by eexists _, _|].
  apply IH.
Qed.

Lemma write_all_entries_stay kvs w r w' : write_all kvs w = (r, w') → entries_stay w w'.
Proof.
  apply (for_each_preserves entries_stay).
  intros [p c] ? ? ?. apply WriteFile_entries_stay.
Qed.

(** The loop of [createFiles] fails on a file whose directory is not
    there, and leaves it so. *)
Lemma write_all_no_directory kvs l : ∀ w r w',
  write_all kvs w = (r, w') →
  (∀ es, tree_lookup l (disk w) ≠ Found (Dir es)) →
  (∀ es, tree_lookup l (disk w') ≠ Found (Dir es)) ∧
  ∀ p c name, (p, c) ∈ kvs → os.locate w p = Some (l ++ [name]) → r ≠ Ret None.
Proof.
  induction kvs as [|[p0 c0] kvs IH]; intros w r w'; unfold write_all; simpl.
  { intros [= <- <-] Hl. split; [done|]. intros p c name Hin. by apply elem_of_nil in Hin. }
  rewrite bind_unfold. intros Hrun Hl.
  destruct (WriteFile_cases p0 c0 w) as [[e|] Hw]; rewrite Hw in Hrun.
  - injection Hrun as <- <-. apply WriteFile_failure in Hw. rewrite Hw. by split.
  - pose proof Hw as (l0 & d & Hloc & Hd & Hwa)%WriteFile_success.
    assert (∀ es, tree_lookup l (disk (ioutil.WriteFile p0 c0 w).2) ≠ Found (Dir es))
      as Hl'.
    { intros es Hes. rewrite Hwa in Hes. cbn [disk set_disk] in Hes.
      destruct (tree_write_no_directory _ _ _ _ _ _ Hd Hes) as [es0 ?]. by eapply Hl. }
    destruct (IH _ _ _ Hrun Hl') as [Hafter Hfail]. split; [done|].
    intros p c name [[= -> ->]|Hin]%elem_of_cons Hp.
    + rewrite Hloc in Hp. injection Hp as ->.
      destruct (tree_write_directory _ _ _ _ _ Hd) as [es ?]. by destruct (Hl es).
    + eapply Hfail; [done|]. unfold os.locate in *. by rewrite Hwa.
Qed.

Section createFiles.
Context (range_order : list (string * list Byte.byte) → list (string * list Byte.byte)).
Context (Hrange : visits_every_entry range_order).

Lemma createFiles_write_all files :
  core.createFiles range_order files = write_all (range_order (map_to_list files)).
Proof. done. Qed.

Lemma in_range_order files p c :
  (p, c) ∈ range_order (map_to_list files) ↔ files !! p = Some c.
Proof.
  pose proof (Hrange (map_to_list files)) as Hperm.
  by rewrite Hperm, elem_of_map_to_list.
Qed.

End createFiles.

(** X13: when [createFiles] returns nil and no two paths of the map name the
    same file, every path holds exactly its content, in whatever order the
    map was visited. *)
Theorem createFiles_writes_every_file range_order files w w' :
  visits_every_entry range_order →
  (∀ p1 p2, is_Some (files !! p1) → is_Some (files !! p2) →
            os.locate w p1 = os.locate w p2 → p1 = p2) →
  core.createFiles range_order files w = (Ret None, w') →
  Forall (λ kv, tree_at w' kv.1 = Some (File kv.2)) (map_to_list files).
Proof.
  intros Hrange Hinj Hrun. rewrite createFiles_write_all in Hrun.
  apply write_all_success in Hrun.
  - by rewrite (Hrange (map_to_list files)) in Hrun.
  - apply NoDup_fmap_2_strong.
    + intros [p1 c1] [p2 c2] H1%in_range_order H2%in_range_order Hloc; [|done..].
      simpl in Hloc. assert (p1 = p2) as -> by (apply Hinj; eauto). congruence.
    + pose proof (Hrange (map_to_list files)) as Hperm. rewrite Hperm.
      apply NoDup_map_to_list.
Qed.

Lemma createFiles_writes_every_file_witness :
  Forall (λ kv,
            tree_at (core.createFiles backwards
                       (<["site/a.txt" := [Byte.x61]]> (<["site/posts/b.txt" := []]> ∅))
                       site_world).2 kv.1
            = Some (File kv.2))
         (map_to_list (<["site/a.txt" := [Byte.x61]]> (<["site/posts/b.txt" := []]> ∅)
                         : gmap string (list Byte.byte))).
Proof.
  apply (createFiles_writes_every_file backwards _ site_world).
  - intros kvs. symmetry. apply Permutation_rev.
  - intros p1 p2 [c1 H1] [c2 H2].
    apply lookup_insert_Some in H1 as [[<- _]|[_ H1]];
      [|apply lookup_insert_Some in H1 as [[<- _]|[_ H1]]; [|done]];
      (apply lookup_insert_Some in H2 as [[<- _]|[_ H2]];
        [|apply lookup_insert_Some in H2 as [[<- _]|[_ H2]]; [|done]]);
      by try done.
  - by vm_compute.
Defined.

(** X14: [createFiles] makes no directory: when the directory of one of the
    files is not there, it returns an error, and the directory is still
    not there. *)
Theorem createFiles_makes_no_directory range_order files w path content l name :
  visits_every_entry range_order →
  files !! path = Some content →
  os.locate w path = Some (l ++ [name]) →
  (∀ es, tree_lookup l (disk w) ≠ Found (Dir es)) →
  ∃ e w', core.createFiles range_order files w = (Ret (Some e), w') ∧
          ∀ es, tree_lookup l (disk w') ≠ Found (Dir es).
Proof.
  intros Hrange Hp Hloc Hl. rewrite createFiles_write_all.
  destruct (write_all_returns (range_order (map_to_list files)) w) as (r & w' & Hrun).
  destruct (write_all_no_directory _ l _ _ _ Hrun Hl) as [Hafter Hfail].
  rewrite Hrun. destruct r as [e|]; [by exists e, w'|].
  destruct (Hfail path content name); [by apply in_range_order|done..].
Qed.

Lemma createFiles_makes_no_directory_witness :
  ∃ e w', core.createFiles backwards
            (<["site/a.txt" := []]> (<["site/css/style.css" := []]> ∅)) site_world
          = (Ret (Some e), w') ∧
          ∀ es, tree_lookup ["srv"; "site"; "css"] (disk w') ≠ Found (Dir es).
Proof.
  apply (createFiles_makes_no_directory backwards _ site_world "site/css/style.css" []
           ["srv"; "site"; "css"] "style.css").
  - intros kvs. symmetry. apply Permutation_rev.
  - reflexivity.
  - reflexivity.
  - done.
Defined.

(** ** The layout CreateProject and CreateTheme leave *)

Lemma clean_loop_names_after r es out k names :
  Forall (λ n, valid_name n = true) names →
  filepath.clean_loop r (es ++ names) out k
  = rev names ++ filepath.clean_loop r es out k.
Proof.
  intros Hnames. revert es.
  induction Hnames as [|n names Hn _ IH]; intros es; [by rewrite app_nil_r|].
  change (n :: names) with ([n] ++ names) at 1.
  rewrite app_assoc, IH, clean_loop_snoc by done.
  simpl. by rewrite <-app_assoc.
Qed.

Lemma join_cons x xs :
  xs ≠ [] → strings.Join (x :: xs) "/" = x +:+ String os.PathSeparator (strings.Join xs "/").
Proof. by destruct xs. Qed.

Lemma valid_names_no_separator names :
  Forall (λ n, valid_name n = true) names → Forall (λ e, no_separator e = true) names.
Proof.
  intros H. eapply Forall_impl; [exact H|]. by intros n (_ & _ & _ & ?)%valid_name_spec.
Qed.

Lemma elements_join_after path names :
  Forall (λ n, valid_name n = true) names → names ≠ [] →
  os.elements (strings.Join (path :: names) "/") = os.elements path ++ names.
Proof.
  intros Hnames Hne. rewrite join_cons, elements_app_sep by done. f_equal.
  apply elements_join; [done|]. by apply valid_names_no_separator.
Qed.

Lemma resolve_valid_names names st :
  Forall (λ n, valid_name n = true) names → os.resolve names st = rev names ++ st.
Proof.
  intros Hnames. revert st. induction Hnames as [|n names Hn _ IH]; intros st; [done|].
  change (n :: names) with ([n] ++ names) at 1.
  rewrite resolve_app, resolve_valid, IH by done. simpl. by rewrite <-app_assoc.
Qed.

(** The location of [Join(path, names...)] is the location of [path]
    followed by the names. *)
Lemma locate_Join_names w path names l :
  Forall (λ n, valid_name n = true) names → names ≠ [] →
  os.locate w path = Some l →
  os.locate w (filepath.Join (path :: names)) = Some (l ++ names).
Proof.
  intros Hnames Hne Hloc. unfold os.locate in Hloc.
  destruct (String.eqb_spec path "") as [|Hpath]; [done|].
  injection Hloc as <-.
  set (base := if os.rooted path then [] else rev (cwd w)).
  apply String.eqb_neq in Hpath as Hpath'.
  unfold filepath.Join. rewrite Hpath'.
  set (s := strings.Join (path :: names) "/").
  assert (s ≠ "") as Hs by (subst s; rewrite join_cons by done; by destruct path).
  assert (os.rooted s = os.rooted path) as Hrooted
    by (subst s; rewrite join_cons by done; by destruct path).
  unfold filepath.Clean. apply String.eqb_neq in Hs as Hs'. rewrite Hs', Hrooted.
  assert (os.elements s = os.elements path ++ names) as ->
    by (by apply elements_join_after).
  rewrite clean_loop_names_after by done.
  set (C := filepath.clean_loop (os.rooted path) (os.elements path) [] 0).
  assert (Forall proper C) as HC.
  { apply clean_loop_proper; [apply elements_all_no_separator|done]. }
  rewrite rev_app_distr, rev_involutive.
  assert (Forall proper (rev C ++ names)) as Hall.
  { apply Forall_app. split; [by apply Forall_rev|].
    eapply Forall_impl; [exact Hnames|]. intros ?. apply valid_name_proper. }
  assert (rev C ++ names ≠ []) as Hne' by (intros [_ ?]%app_eq_nil; done).
  destruct (join_proper _ Hne' Hall) as [Hj1 Hj2].
  assert (os.resolve (rev C) base = os.resolve (os.elements path) base) as HR.
  { apply (resolve_clean_loop (os.rooted path) base (os.elements path) [] 0).
    - apply elements_all_no_separator.
    - done.
    - subst base. by intros ->. }
  unfold os.locate.
  destruct (os.rooted path) eqn:Hr.
  - simpl. f_equal.
    rewrite elements_join by (done || by apply proper_no_separator).
    simpl. rewrite resolve_app, resolve_valid_names by done.
    fold base. rewrite HR. by rewrite rev_app_distr, rev_involutive.
  - assert (match rev C ++ names with
            | [] => "."
            | _ :: _ => strings.Join (rev C ++ names) "/"
            end = strings.Join (rev C ++ names) "/") as ->
      by (by destruct (rev C ++ names)).
    apply String.eqb_neq in Hj1. rewrite Hj1, Hj2. f_equal.
    rewrite elements_join by (done || by apply proper_no_separator).
    rewrite resolve_app, resolve_valid_names by done.
    fold base. rewrite HR. by rewrite rev_app_distr, rev_involutive.
Qed.

Section layout.
Context (cfg : Config) (range_order : list (string * list Byte.byte) → list (string * list Byte.byte)).
Context (Hrange : visits_every_entry range_order).

Lemma createFiles_contents files w w' :
  (∀ p1 p2, is_Some (files !! p1) → is_Some (files !! p2) →
            os.locate w p1 = os.locate w p2 → p1 = p2) →
  core.createFiles range_order files w = (Ret None, w') →
  ∀ p c, files !! p = Some c → tree_at w' p = Some (File c).
Proof.
  intros Hinj Hrun. rewrite createFiles_write_all in Hrun.
  apply write_all_success in Hrun.
  - intros p c Hp. rewrite Forall_forall in Hrun.
    by apply (Hrun (p, c)), in_range_order.
  - apply NoDup_fmap_2_strong.
    + intros [p1 c1] [p2 c2] H1%in_range_order H2%in_range_order Hloc; [|done..].
      simpl in Hloc. assert (p1 = p2) as -> by (apply Hinj; eauto). congruence.
    + pose proof (Hrange (map_to_list files)) as Hperm. rewrite Hperm.
      apply NoDup_map_to_list.
Qed.

Lemma createFiles_stays files w r w' :
  core.createFiles range_order files w = (r, w') → entries_stay w w'.
Proof. rewrite createFiles_write_all. apply write_all_entries_stay. Qed.

(** What [CreateProject] has done when it returns without error. *)
Lemma CreateProject_steps path options w w' :
  core.CreateProject cfg range_order path options w = (Ret None, w') →
  ∃ w1 w2,
    core.for_each [filepath.Join [path; ContentDir cfg];
                   theme.TemplateDir cfg path (DefaultTheme cfg);
                   theme.CssDir cfg path (DefaultTheme cfg)] os.MkdirAll w1
    = (Ret None, w2) ∧
    core.createFiles range_order
      (<[filepath.Join [theme.CssDir cfg path (DefaultTheme cfg); "style.css"] := defaultCss cfg]> (
       <[filepath.Join [theme.TemplateDir cfg path (DefaultTheme cfg); PageTpl cfg] := []]> (
       <[filepath.Join [theme.TemplateDir cfg path (DefaultTheme cfg); ListPageTpl cfg] := defaultTpl cfg]> (
       <[filepath.Join [path; ".gitignore"] := defaultGitignore cfg]> (
       <[filepath.Join [path; "verless.yml"] := defaultConfig cfg]> ∅))))) w2
    = (Ret None, w').
Proof.
  unfold core.CreateProject. rewrite bind_unfold.
  destruct (fs.IsSafeToRemove _ _ _ w) as [[[|]|msg|] w0]; try done.
  cbn [negb]. rewrite bind_unfold.
  match goal with |- context [match ?m w0 with _ => _ end] =>
    destruct (m w0) as [[[e|]|msg|] w1] end; try done.
  rewrite bind_unfold.
  destruct (core.for_each _ os.MkdirAll w1) as [[[e|]|msg|] w2] eqn:Hdirs; try done.
  intros Hfiles. by exists w1, w2.
Qed.

Lemma layout_locations w path lp :
  valid_config cfg → os.locate w path = Some lp →
  os.locate w (filepath.Join [path; "verless.yml"]) = Some (lp ++ ["verless.yml"]) ∧
  os.locate w (filepath.Join [path; ".gitignore"]) = Some (lp ++ [".gitignore"]) ∧
  (∀ name, valid_name name = true →
     os.locate w (theme.TemplateDir cfg path name)
     = Some (lp ++ [ThemesDir cfg; name; "templates"]) ∧
     os.locate w (theme.CssDir cfg path name)
     = Some (lp ++ [ThemesDir cfg; name; "css"]) ∧
     os.locate w (theme.Dir cfg path name) = Some (lp ++ [ThemesDir cfg; name]) ∧
     ∀ file, valid_name file = true →
       os.locate w (filepath.Join [theme.TemplateDir cfg path name; file])
       = Some (lp ++ [ThemesDir cfg; name; "templates"; file]) ∧
       os.locate w (filepath.Join [theme.CssDir cfg path name; file])
       = Some (lp ++ [ThemesDir cfg; name; "css"; file]) ∧
       os.locate w (filepath.Join [theme.Dir cfg path name; file])
       = Some (lp ++ [ThemesDir cfg; name; file])).
Proof.
  intros [Hnames _] Hloc.
  apply Forall_cons in Hnames as [HC Hnames].
  apply Forall_cons in Hnames as [HT Hnames].
  split_and!; try (by apply locate_Join).
  intros name Hname.
  assert (os.locate w (theme.Dir cfg path name) = Some (lp ++ [ThemesDir cfg; name]))
    as HD by (apply locate_Join_names; [by repeat constructor|done..]).
  assert (∀ a, valid_name a = true →
            os.locate w (filepath.Join [theme.Dir cfg path name; a])
            = Some (lp ++ [ThemesDir cfg; name; a])) as Hsub.
  { intros a Ha. rewrite (locate_Join w _ a _ Ha HD). by rewrite <-app_assoc. }
  unfold theme.TemplateDir, theme.CssDir.
  split_and!; try done; try (by apply Hsub).
  intros file Hfile. split_and!.
  - rewrite (locate_Join w _ file _ Hfile (Hsub "templates" eq_refl)).
    by rewrite <-app_assoc.
  - rewrite (locate_Join w _ file _ Hfile (Hsub "css" eq_refl)).
    by rewrite <-app_assoc.
  - by apply Hsub.
Qed.

(** Paths with different locations are different. *)
Lemma located_apart w p1 p2 l1 l2 :
  os.locate w p1 = Some l1 → os.locate w p2 = Some l2 → l1 ≠ l2 → p1 ≠ p2.
Proof. intros H1 H2 Hne ->. congruence. Qed.

Lemma CreateProject_layout path options w w' :
  valid_config cfg → path ≠ "" →
  core.CreateProject cfg range_order path options w = (Ret None, w') →
  Forall (is_directory w')
    [filepath.Join [path; ContentDir cfg];
     theme.TemplateDir cfg path (DefaultTheme cfg);
     theme.CssDir cfg path (DefaultTheme cfg)] ∧
  tree_at w' (filepath.Join [path; "verless.yml"]) = Some (File (defaultConfig cfg)) ∧
  tree_at w' (filepath.Join [path; ".gitignore"]) = Some (File (defaultGitignore cfg)) ∧
  tree_at w' (filepath.Join [theme.TemplateDir cfg path (DefaultTheme cfg); ListPageTpl cfg])
  = Some (File (defaultTpl cfg)) ∧
  tree_at w' (filepath.Join [theme.TemplateDir cfg path (DefaultTheme cfg); PageTpl cfg])
  = Some (File []) ∧
  tree_at w' (filepath.Join [theme.CssDir cfg path (DefaultTheme cfg); "style.css"])
  = Some (File (defaultCss cfg)).
Proof.
  intros Hcfg Hpath (w1 & w2 & Hdirs & Hfiles)%CreateProject_steps.
  split.
  { apply Forall_forall. intros dir Hdir.
    apply (is_directory_stays w2); [by eapply createFiles_stays|].
    by eapply for_each_MkdirAll_success. }
  destruct (locate_Some w2 path Hpath) as [lp Hlp].
  pose proof Hcfg as [Hnames Hdiff].
  destruct (layout_locations w2 path lp Hcfg Hlp) as (H1 & H2 & Hthemes).
  assert (valid_name (DefaultTheme cfg) = true ∧ valid_name (ListPageTpl cfg) = true
          ∧ valid_name (PageTpl cfg) = true) as (HDT & HLP & HPP).
  { rewrite !Forall_cons in Hnames. tauto. }
  destruct (Hthemes _ HDT) as (_ & _ & _ & Hin).
  destruct (Hin _ HLP) as (H3 & _ & _).
  destruct (Hin _ HPP) as (H4 & _ & _).
  destruct (Hin "style.css" eq_refl) as (_ & H5 & _).
  assert (∀ a b : list string, lp ++ a = lp ++ b → a = b) as Hinv
    by (intros a b; apply app_inv_head).
  match type of Hfiles with core.createFiles _ ?m _ = _ => set (files := m) in * end.
  assert (∀ p1 p2, is_Some (files !! p1) → is_Some (files !! p2) →
                   os.locate w2 p1 = os.locate w2 p2 → p1 = p2) as Hinj.
  { intros p1 p2 [c1 Hp1] [c2 Hp2]. subst files.
    repeat (apply lookup_insert_Some in Hp1 as [[<- _]|[_ Hp1]]); try done;
      repeat (apply lookup_insert_Some in Hp2 as [[<- _]|[_ Hp2]]); try done;
      rewrite ?H1, ?H2, ?H3, ?H4, ?H5; intros [= Heq%Hinv]; by simplify_eq. }
  pose proof (createFiles_contents files w2 w' Hinj Hfiles) as Hcontents.
  split_and!; apply Hcontents; subst files;
    repeat (rewrite lookup_insert_ne
              by (eapply located_apart; [eassumption..|]; intros Heq%Hinv; by simplify_eq));
    apply lookup_insert_eq.
Qed.

(** What [CreateTheme] has done when it returns without error. *)
Lemma CreateTheme_steps project name w w' :
  core.CreateTheme cfg range_order {| core.Project := project |} name w = (Ret None, w') →
  ∃ w2,
    exists_on_disk w project = true ∧
    core.for_each [theme.TemplateDir cfg project name; theme.CssDir cfg project name;
                   theme.JsDir cfg project name] os.MkdirAll w
    = (Ret None, w2) ∧
    core.createFiles range_order
      (<[filepath.Join [theme.Dir cfg project name; "theme.yml"] := defaultThemeConfig cfg]> (
       <[filepath.Join [theme.TemplateDir cfg project name; PageTpl cfg] := []]> (
       <[filepath.Join [theme.TemplateDir cfg project name; ListPageTpl cfg] := []]> ∅))) w2
    = (Ret None, w').
Proof.
  unfold core.CreateTheme. rewrite bind_unfold. cbn [core.Project].
  unfold os.Stat at 1, get at 1.
  destruct (os.IsNotExist (os.err_of (os.stat_of "stat" project w))) eqn:Hproject;
    [done|].
  rewrite bind_unfold. unfold theme.Exists. rewrite bind_unfold. unfold os.Stat, get.
  cbn [mret M_ret].
  destruct (negb (os.IsNotExist _)); [done|].
  rewrite bind_unfold.
  destruct (core.for_each _ os.MkdirAll w) as [[[e|]|msg|] w2] eqn:Hdirs; try done.
  intros Hfiles. exists w2. split_and!; try done.
  unfold exists_on_disk. by rewrite Hproject.
Qed.

Lemma CreateTheme_layout project name w w' :
  valid_config cfg → valid_name name = true →
  core.CreateTheme cfg range_order {| core.Project := project |} name w = (Ret None, w') →
  Forall (is_directory w')
    [theme.TemplateDir cfg project name; theme.CssDir cfg project name;
     theme.JsDir cfg project name] ∧
  tree_at w' (filepath.Join [theme.TemplateDir cfg project name; ListPageTpl cfg])
  = Some (File []) ∧
  tree_at w' (filepath.Join [theme.TemplateDir cfg project name; PageTpl cfg])
  = Some (File []) ∧
  tree_at w' (filepath.Join [theme.Dir cfg project name; "theme.yml"])
  = Some (File (defaultThemeConfig cfg)).
Proof.
  intros Hcfg Hname (w2 & Hex & Hdirs & Hfiles)%CreateTheme_steps.
  split.
  { apply Forall_forall. intros dir Hdir.
    apply (is_directory_stays w2); [by eapply createFiles_stays|].
    by eapply for_each_MkdirAll_success. }
  destruct (locate_Some w2 project (exists_on_disk_nonempty _ _ Hex)) as [lp Hlp].
  pose proof Hcfg as [Hnames Hdiff].
  destruct (layout_locations w2 project lp Hcfg Hlp) as (_ & _ & Hthemes).
  assert (valid_name (ListPageTpl cfg) = true ∧ valid_name (PageTpl cfg) = true)
    as (HLP & HPP).
  { rewrite !Forall_cons in Hnames. tauto. }
  destruct (Hthemes _ Hname) as (_ & _ & _ & Hin).
  destruct (Hin _ HLP) as (H3 & _ & _).
  destruct (Hin _ HPP) as (H4 & _ & _).
  destruct (Hin "theme.yml" eq_refl) as (_ & _ & H5).
  assert (∀ a b : list string, lp ++ a = lp ++ b → a = b) as Hinv
    by (intros a b; apply app_inv_head).
  match type of Hfiles with core.createFiles _ ?m _ = _ => set (files := m) in * end.
  assert (∀ p1 p2, is_Some (files !! p1) → is_Some (files !! p2) →
                   os.locate w2 p1 = os.locate w2 p2 → p1 = p2) as Hinj.
  { intros p1 p2 [c1 Hp1] [c2 Hp2]. subst files.
    repeat (apply lookup_insert_Some in Hp1 as [[<- _]|[_ Hp1]]); try done;
      repeat (apply lookup_insert_Some in Hp2 as [[<- _]|[_ Hp2]]); try done;
      rewrite ?H3, ?H4, ?H5; intros [= Heq%Hinv]; by simplify_eq. }
  pose proof (createFiles_contents files w2 w' Hinj Hfiles) as Hcontents.
  split_and!; apply Hcontents; subst files;
    repeat (rewrite lookup_insert_ne
              by (eapply located_apart; [eassumption..|]; intros Heq%Hinv; by simplify_eq));
    apply lookup_insert_eq.
Qed.

(** [CreateTheme] removes nothing. *)
Lemma CreateTheme_stays options name w r w' :
  core.CreateTheme cfg range_order options name w = (r, w') → entries_stay w w'.
Proof.
  unfold core.CreateTheme. rewrite bind_unfold. unfold os.Stat at 1, get at 1.
  destruct (os.IsNotExist _); [by intros [= _ <-]|].
  rewrite bind_unfold. unfold theme.Exists. rewrite bind_unfold. unfold os.Stat, get.
  cbn [mret M_ret].
  destruct (negb (os.IsNotExist _)); [by intros [= _ <-]|].
  rewrite bind_unfold.
  destruct (core.for_each _ os.MkdirAll w) as [rd w2] eqn:Hdirs.
  assert (entries_stay w w2) as Hw2.
  { eapply (for_each_preserves entries_stay); [|exact Hdirs].
    intros ? ? ? ?. apply MkdirAll_entries_stay. }
  destruct rd as [[e|]|msg|]; try (by intros [= _ <-]).
  intros Hfiles%createFiles_stays. by etrans.
Qed.

End layout.

(** X15: when [CreateProject] returns nil, the content directory and the
    template and css directories of the default theme are there, and the
    five files hold their default contents. *)
Theorem CreateProject_lays_out_the_project cfg range_order path options w w' :
  valid_config cfg → visits_every_entry range_order → path ≠ "" →
  core.CreateProject cfg range_order path options w = (Ret None, w') →
  Forall (is_directory w')
    [filepath.Join [path; ContentDir cfg];
     theme.TemplateDir cfg path (DefaultTheme cfg);
     theme.CssDir cfg path (DefaultTheme cfg)] ∧
  tree_at w' (filepath.Join [path; "verless.yml"]) = Some (File (defaultConfig cfg)) ∧
  tree_at w' (filepath.Join [path; ".gitignore"]) = Some (File (defaultGitignore cfg)) ∧
  tree_at w' (filepath.Join [theme.TemplateDir cfg path (DefaultTheme cfg); ListPageTpl cfg])
  = Some (File (defaultTpl cfg)) ∧
  tree_at w' (filepath.Join [theme.TemplateDir cfg path (DefaultTheme cfg); PageTpl cfg])
  = Some (File []) ∧
  tree_at w' (filepath.Join [theme.CssDir cfg path (DefaultTheme cfg); "style.css"])
  = Some (File (defaultCss cfg)).
Proof. intros Hcfg Hrange. by apply CreateProject_layout. Qed.

Lemma verless_config_valid : valid_config verless_config.
Proof. split; [by repeat constructor|done]. Qed.

Lemma CreateProject_lays_out_the_project_witness :
  let w' := (core.CreateProject verless_config backwards "site"
               {| core.Overwrite := true |} site_world).2 in
  Forall (is_directory w')
    ["site/content"; "site/themes/default/templates"; "site/themes/default/css"] ∧
  tree_at w' "site/verless.yml" = Some (File (defaultConfig verless_config)) ∧
  tree_at w' "site/.gitignore" = Some (File (defaultGitignore verless_config)) ∧
  tree_at w' "site/themes/default/templates/list-page.html"
  = Some (File (defaultTpl verless_config)) ∧
  tree_at w' "site/themes/default/templates/page.html" = Some (File []) ∧
  tree_at w' "site/themes/default/css/style.css" = Some (File (defaultCss verless_config)).
Proof.
  apply (CreateProject_lays_out_the_project verless_config backwards "site"
           {| core.Overwrite := true |} site_world).
  - apply verless_config_valid.
  - intros kvs. symmetry. apply Permutation_rev.
  - done.
  - by vm_compute.
Defined.

(** X16: when [CreateTheme] returns nil, the template, css and script
    directories of the theme are there, the two templates are empty files
    and theme.yml holds the default theme configuration. *)
Theorem CreateTheme_lays_out_the_theme cfg range_order project name w w' :
  valid_config cfg → visits_every_entry range_order → valid_name name = true →
  core.CreateTheme cfg range_order {| core.Project := project |} name w = (Ret None, w') →
  Forall (is_directory w')
    [theme.TemplateDir cfg project name; theme.CssDir cfg project name;
     theme.JsDir cfg project name] ∧
  tree_at w' (filepath.Join [theme.TemplateDir cfg project name; ListPageTpl cfg])
  = Some (File []) ∧
  tree_at w' (filepath.Join [theme.TemplateDir cfg project name; PageTpl cfg])
  = Some (File []) ∧
  tree_at w' (filepath.Join [theme.Dir cfg project name; "theme.yml"])
  = Some (File (defaultThemeConfig cfg)).
Proof. intros Hcfg Hrange. by apply CreateTheme_layout. Qed.

Lemma CreateTheme_lays_out_the_theme_witness :
  let w' := (core.CreateTheme verless_config backwards {| core.Project := "site" |}
               "dark" site_world).2 in
  Forall (is_directory w')
    ["site/themes/dark/templates"; "site/themes/dark/css"; "site/themes/dark/js"] ∧
  tree_at w' "site/themes/dark/templates/list-page.html" = Some (File []) ∧
  tree_at w' "site/themes/dark/templates/page.html" = Some (File []) ∧
  tree_at w' "site/themes/dark/theme.yml"
  = Some (File (defaultThemeConfig verless_config)).
Proof.
  apply (CreateTheme_lays_out_the_theme verless_config backwards "site" "dark" site_world).
  - apply verless_config_valid.
  - intros kvs. symmetry. apply Permutation_rev.
  - done.
  - by vm_compute.
Defined.

(** X17: however [CreateTheme] ends, every entry that was on disk is still
    there, a directory as a directory and a file as a file. *)
Theorem CreateTheme_removes_nothing cfg range_order options name w :
  entries_stay w (core.CreateTheme cfg range_order options name w).2.
Proof.
  destruct (core.CreateTheme cfg range_order options name w) as [r w'] eqn:Hrun.
  by eapply CreateTheme_stays.
Qed.

(** ** The current directory after the cleanup *)

(** When the iterative cleanup succeeds on the names [names], these are
    gone from the current directory and the other entries are as before. *)
Lemma iterative_cleanup_success es names : ∀ es_w w w',
  NoDup names →
  Forall (λ name, valid_name name = true ∧ is_Some (entry_get name es) ∧
                  entry_get name es_w = entry_get name es) names →
  tree_lookup (cwd w) (disk w) = Found (Dir es_w) →
  core.for_each names (remove_entry es) w = (Ret None, w') →
  cwd w' = cwd w ∧
  ∃ es', tree_lookup (cwd w) (disk w') = Found (Dir es') ∧
         ∀ n, entry_get n es' = if decide (n ∈ names) then None else entry_get n es_w.
Proof.
  induction names as [|name names IH]; intros es_w w w' Hnd Hnames Hcwd.
  { intros [= <-]. split; [done|]. exists es_w. split; [done|].
    intros n. rewrite decide_False; [done|]. apply not_elem_of_nil. }
  apply NoDup_cons in Hnd as [Hfresh Hnd].
  apply Forall_cons in Hnames as [(Hvalid & [ch Hget] & Hsame) Hnames].
  intros (wa & Hfirst & Hrest)%for_each_cons_success.
  destruct (remove_entry_cases w es es_w name ch Hvalid Hget Hcwd)
    as [(e & c & _ & Hfail)|(c & Hdone)]; [congruence|congruence|].
  rewrite Hdone in Hfirst. injection Hfirst as <-.
  destruct (IH (entry_del name es_w) (removed name c w) w' Hnd) as (Hcwd' & es' & Hes' & Hget');
    [| |done|].
  - apply Forall_forall. intros n Hn. rewrite Forall_forall in Hnames.
    destruct (Hnames n Hn) as (? & ? & ?). split_and!; try done.
    rewrite entry_get_del, decide_False; [done|]. by intros ->.
  - unfold removed. cbn [cwd disk set_disk log_syscall]. by apply tree_remove_parent.
  - split; [done|]. exists es'. split; [done|].
    intros n. rewrite Hget', entry_get_del.
    destruct (decide (n = name)) as [->|Hne].
    + rewrite (decide_True (P := name ∈ name :: names)) by left. by case_decide.
    + destruct (decide (n ∈ names)).
      * by rewrite decide_True by (by right).
      * rewrite decide_False; [done|]. by intros [?|?]%elem_of_cons.
Qed.

Lemma entries_none {A} (es : list (string * A)) :
  (∀ n, entry_get n es = None) → es = [].
Proof.
  destruct es as [|[n a] es]; [done|]. intros H. specialize (H n).
  simpl in H. by rewrite String.eqb_refl in H.
Qed.

(** X18: when the walk of [CreateProject] over a current directory it can
    read returns nil, the current directory is still there and is empty. *)
Theorem cleanup_empties_the_current_directory w es w' :
  wf_node (disk w) = true → readable w → tree_at w "." = Some (Dir es) →
  filepath.Walk "." core.cleanup w = (Ret None, w') →
  tree_at w' "." = Some (Dir []).
Proof.
  intros Hwf Hread Hat. rewrite (Walk_cleanup w es) by done.
  pose proof (tree_at_dot _ _ Hat) as Hcwd.
  pose proof (wf_node_lookup _ _ _ Hwf Hcwd) as (Hvalid & Hnd & _)%wf_node_Dir.
  unfold iterative_cleanup. intros Hrun.
  destruct (iterative_cleanup_success es (merge_sort filepath.string_le (map fst es))
              es w w') as (Hcwd' & es' & Hes' & Hget');
    try done.
  - rewrite merge_sort_Permutation. done.
  - rewrite merge_sort_Permutation. apply Forall_forall. intros n Hn.
    rewrite Forall_forall in Hvalid. split_and!; [by apply Hvalid| |done].
    destruct (entry_get n es) eqn:Hget; [done|]. by apply entry_get_None in Hget.
  - unfold tree_at. rewrite locate_dot, Hcwd', Hes'. do 2 f_equal.
    apply entries_none. intros n. rewrite Hget'. case_decide as Hn; [done|].
    rewrite merge_sort_Permutation in Hn.
    destruct (entry_get n es) as [ch|] eqn:Hget; [|done].
    destruct Hn. apply entry_get_Some in Hget. apply list_elem_of_fmap. by exists (n, ch).
Qed.

Lemma cleanup_empties_the_current_directory_witness :
  tree_at (filepath.Walk "." core.cleanup site_world).2 "." = Some (Dir []).
Proof.
  apply (cleanup_empties_the_current_directory site_world
           [("site", Dir [("about.md", File []); ("posts", Dir [("one.md", File [])])])]).
  - reflexivity.
  - intros l. split; reflexivity.
  - reflexivity.
  - reflexivity.
Defined.

(** ** StreamFiles: what the paths sent name *)

(** The traversal paths below a tree name entries that are not
    directories. *)
Lemma files_under_files w k : ∀ T path l,
  depth T ≤ k → wf_node T = true →
  os.locate w path = Some l → tree_lookup l (disk w) = Found T →
  ∀ f, f ∈ files_under path T → is_no_directory w f.
Proof.
  induction k as [|k IH]; intros T path l Hdepth Hwf Hloc Hl f Hf.
  { pose proof (depth_pos T). lia. }
  destruct T as [c|es|].
  - apply list_elem_of_singleton in Hf as ->. exists (File c). unfold tree_at.
    by rewrite Hloc, Hl.
  - rewrite files_under_Dir in Hf.
    apply list_elem_of_bind in Hf as ([name ch] & Hf & Hin).
    pose proof Hwf as (_ & Hnd & _)%wf_node_Dir.
    pose proof (entry_get_NoDup _ _ _ Hnd Hin) as Hget.
    destruct (wf_node_child _ _ _ Hwf Hget) as [Hname Hwfch].
    pose proof (depth_child _ _ _ Hget).
    apply (IH ch (filepath.Join [path; name]) (l ++ [name])); try done; [lia| |].
    + by apply locate_Join.
    + by rewrite (tree_lookup_child _ _ _ _ Hl), Hget.
  - apply list_elem_of_singleton in Hf as ->. exists Socket. unfold tree_at.
    by rewrite Hloc, Hl.
Qed.

Lemma append_assoc a b c : (a +:+ b) +:+ c = a +:+ b +:+ c.
Proof. induction a as [|x a IH]; [done|]. exact (f_equal (String x) IH). Qed.

(** Below a cleaned directory other than [.] the path of an entry is the
    path of the directory, a separator unless the directory is [/], and
    the name. *)
Lemma Join_below_clean path name :
  filepath.Clean path = path → path ≠ "." → valid_name name = true →
  filepath.Join [path; name]
  = path +:+ (if String.eqb path "/" then name else String os.PathSeparator name).
Proof.
  intros Hclean Hdot Hname.
  assert (path ≠ "") as Hpath by (rewrite <-Hclean; apply Clean_nonempty).
  apply String.eqb_neq in Hpath as Hpath'.
  pose proof Hname as (Hne & _ & _ & Hsep)%valid_name_spec.
  assert (filepath.Join [path; name]
          = filepath.Clean (path +:+ String os.PathSeparator name)) as ->
    by (unfold filepath.Join; by rewrite Hpath').
  revert Hclean. unfold filepath.Clean. rewrite Hpath'.
  assert (String.eqb (path +:+ String os.PathSeparator name) "" = false) as ->
    by (by destruct path).
  assert (os.rooted (path +:+ String os.PathSeparator name) = os.rooted path) as ->
    by (by destruct path).
  rewrite elements_app_sep, (elements_no_separator name), clean_loop_snoc by done.
  simpl rev.
  assert (Forall proper (rev (filepath.clean_loop (os.rooted path) (os.elements path) [] 0)))
    as Hproper.
  { apply Forall_rev, clean_loop_proper; [apply elements_all_no_separator|done]. }
  revert Hproper.
  generalize (rev (filepath.clean_loop (os.rooted path) (os.elements path) [] 0)).
  intros xs Hproper. destruct (decide (xs = [])) as [->|Hxs].
  - destruct (os.rooted path); simpl; intros <-; [done|]. by destruct Hdot.
  - rewrite join_snoc by done.
    assert (match xs ++ [name] with
            | [] => "."
            | _ :: _ => strings.Join xs "/" +:+ String os.PathSeparator name
            end = strings.Join xs "/" +:+ String os.PathSeparator name) as ->
      by (by destruct xs).
    assert (match xs with [] => "." | _ :: _ => strings.Join xs "/" end
            = strings.Join xs "/") as -> by (by destruct xs).
    destruct (join_proper xs Hxs Hproper) as [Hj1 Hj2].
    destruct (os.rooted path) eqn:Hr; intros Hp.
    + assert (String.eqb path "/" = false) as ->.
      { apply String.eqb_neq. intros ->. by injection Hp. }
      by rewrite <-Hp.
    + assert (String.eqb path "/" = false) as ->.
      { apply String.eqb_neq. by intros ->. }
      by rewrite <-Hp.
Qed.

Lemma files_under_follow k : ∀ T path,
  depth T ≤ k → wf_node T = true →
  filepath.Clean path = path → path ≠ "." →
  ∀ f, f ∈ files_under path T → follows path f.
Proof.
  induction k as [|k IH]; intros T path Hdepth Hwf Hclean Hdot f Hf.
  { pose proof (depth_pos T). lia. }
  destruct T as [c|es|].
  - apply list_elem_of_singleton in Hf as ->. by left.
  - rewrite files_under_Dir in Hf.
    apply list_elem_of_bind in Hf as ([name ch] & Hf & Hin).
    pose proof Hwf as (_ & Hnd & _)%wf_node_Dir.
    pose proof (entry_get_NoDup _ _ _ Hnd Hin) as Hget.
    destruct (wf_node_child _ _ _ Hwf Hget) as [Hname Hwfch].
    pose proof (depth_child _ _ _ Hget).
    assert (path ≠ "") as Hpath by (rewrite <-Hclean; apply Clean_nonempty).
    pose proof (Join_below_clean path name Hclean Hdot Hname) as HJ.
    assert (2 ≤ String.length (filepath.Join [path; name])) as Hlen.
    { rewrite HJ, string_length_app.
      pose proof Hname as (Hne & _)%valid_name_spec.
      destruct path; [done|]. destruct name; [done|].
      destruct (String.eqb _ "/"); simpl; lia. }
    destruct (IH ch (filepath.Join [path; name])) with (f := f) as [->|[rest ->]];
      try done; [lia|by apply Join_clean|intros Heq; rewrite Heq in Hlen; simpl in Hlen; lia| |].
    + right. rewrite HJ. destruct (String.eqb path "/"); eauto.
    + right.
      assert (String.eqb (filepath.Join [path; name]) "/" = false) as ->
        by (apply String.eqb_neq; intros Heq; rewrite Heq in Hlen; simpl in Hlen; lia).
      rewrite HJ, append_assoc. destruct (String.eqb path "/"); eauto.
  - apply list_elem_of_singleton in Hf as ->. by left.
Qed.

Lemma emitted_path_follows root f :
  root ≠ "." → follows root f →
  ∃ s, emitted_path root f = Some s ∧ root +:+ s = f ∧
       (root ≠ "/" → s = "" ∨ ∃ rest, s = String os.PathSeparator rest).
Proof.
  intros Hdot%String.eqb_neq Hf. unfold emitted_path. rewrite Hdot.
  destruct Hf as [->|[rest ->]].
  - exists "". rewrite slice_from_all. split_and!; [done| |by left].
    clear. induction root as [|c root IH]; [done|]. exact (f_equal (String c) IH).
  - rewrite slice_from_app. eexists. split_and!; [done..|].
    intros Hroot%String.eqb_neq. rewrite Hroot. eauto.
Qed.

Lemma tree_at_files_under w root T f :
  wf_node (disk w) = true → tree_at w root = Some T →
  f ∈ files_under root T → is_no_directory w f.
Proof.
  intros Hwf Hat Hf. unfold tree_at in Hat.
  destruct (os.locate w root) as [l|] eqn:Hloc; [|done].
  destruct (tree_lookup l (disk w)) as [n| |] eqn:Hl; try done.
  injection Hat as ->.
  eapply (files_under_files w (depth T)); try done.
  by eapply wf_node_lookup.
Qed.

(** X19: with root [.], whether the walk succeeds or fails, [StreamFiles]
    returns, and every path it sent names, from the working directory, an
    entry that is not a directory (a regular file or not) and that every
    filter accepts. *)
Theorem StreamFiles_in_the_current_directory_sends_paths_of_entries w files filters :
  wf_node (disk w) = true → chan_open w files →
  ∃ err sent w',
    fs.StreamFiles "." files filters w = (Ret err, w') ∧
    chan_ops w' files = chan_ops w files ++ map Send sent ++ [Close] ∧
    Forall (λ s, is_no_directory w s ∧ Forall (λ flt, flt s = true) filters) sent.
Proof.
  intros Hwf Hopen.
  destruct (StreamFiles_cases w "." files filters Hwf Hopen)
    as (r & sent & w' & Hrun & Hends & Hsound & Hret & Hpanic).
  destruct r as [err|msg|]; [|exfalso|done].
  - exists err, sent, w'. split_and!; [done|by apply (Hret err)|].
    apply Forall_forall. intros s (T & f & Hat & Hf & Hpass & [= ->])%Hsound.
    split; [by eapply tree_at_files_under|].
    apply Forall_forall. by apply passes_spec.
  - by destruct (Hpanic msg eq_refl) as (_ & T & f & _ & _ & _ & ?).
Qed.

Lemma StreamFiles_in_the_current_directory_sends_paths_of_entries_witness :
  ∃ err sent w',
    fs.StreamFiles "." out [fs.MarkdownOnly] failing_world = (Ret err, w') ∧
    chan_ops w' out = chan_ops failing_world out ++ map Send sent ++ [Close] ∧
    Forall (λ s, is_no_directory failing_world s ∧ Forall (λ flt, flt s = true) [fs.MarkdownOnly])
           sent.
Proof.
  apply StreamFiles_in_the_current_directory_sends_paths_of_entries;
    [reflexivity|by exists []].
Defined.

(** X20: with a cleaned root other than [.], whether the walk succeeds or
    fails, [StreamFiles] returns, and every path it sent, put after the
    root, names an entry that is not a directory (a regular file or not)
    and that every filter accepts; unless the root is [/], the path sent
    is empty or starts with the separator. *)
Theorem StreamFiles_sends_what_follows_the_root w root files filters :
  wf_node (disk w) = true → chan_open w files →
  filepath.Clean root = root → root ≠ "." →
  ∃ err sent w',
    fs.StreamFiles root files filters w = (Ret err, w') ∧
    chan_ops w' files = chan_ops w files ++ map Send sent ++ [Close] ∧
    Forall (λ s, is_no_directory w (root +:+ s) ∧
                 Forall (λ flt, flt (root +:+ s) = true) filters ∧
                 (root ≠ "/" → s = "" ∨ ∃ rest, s = String os.PathSeparator rest))
           sent.
Proof.
  intros Hwf Hopen Hclean Hdot.
  destruct (StreamFiles_cases w root files filters Hwf Hopen)
    as (r & sent & w' & Hrun & Hends & Hsound & Hret & Hpanic).
  assert (∀ T f, tree_at w root = Some T → f ∈ files_under root T → follows root f)
    as Hfollows.
  { intros T f Hat Hf. unfold tree_at in Hat.
    destruct (os.locate w root) as [l|] eqn:Hloc; [|done].
    destruct (tree_lookup l (disk w)) as [n| |] eqn:Hl; try done.
    injection Hat as ->.
    eapply (files_under_follow (depth T)); try done. by eapply wf_node_lookup. }
  destruct r as [err|msg|]; [|exfalso|done].
  - exists err, sent, w'. split_and!; [done|by apply (Hret err)|].
    apply Forall_forall. intros s (T & f & Hat & Hf & Hpass & Hem)%Hsound.
    destruct (emitted_path_follows root f Hdot (Hfollows _ _ Hat Hf))
      as (s' & Hs' & <- & Hsep).
    assert (s' = s) as -> by congruence.
    split_and!; [by eapply tree_at_files_under| |done].
    apply Forall_forall. by apply passes_spec.
  - destruct (Hpanic msg eq_refl) as (_ & T & f & Hat & Hf & _ & Hem).
    destruct (emitted_path_follows root f Hdot (Hfollows _ _ Hat Hf)) as (s' & Hs' & _).
    congruence.
Qed.

Lemma StreamFiles_sends_what_follows_the_root_witness :
  ∃ err sent w',
    fs.StreamFiles "site" out [fs.MarkdownOnly] failing_world = (Ret err, w') ∧
    chan_ops w' out = chan_ops failing_world out ++ map Send sent ++ [Close] ∧
    Forall (λ s, is_no_directory failing_world ("site" +:+ s) ∧
                 Forall (λ flt, flt ("site" +:+ s) = true) [fs.MarkdownOnly] ∧
                 ("site" ≠ "/" → s = "" ∨ ∃ rest, s = String os.PathSeparator rest))
           sent.
Proof.
  apply StreamFiles_sends_what_follows_the_root;
    [reflexivity|by exists []|reflexivity|done].
Defined.

(** ** StreamFiles: the order of the paths sent *)

Lemma sent_for_app root filters fs1 fs2 :
  sent_for root filters (fs1 ++ fs2)
  = sent_for root filters fs1 ++ sent_for root filters fs2.
Proof. unfold sent_for. by rewrite filter_app, omap_app. Qed.

Lemma walk_order_fuel k : ∀ k' path n,
  depth n ≤ k → depth n ≤ k' → walk_order k path n = walk_order k' path n.
Proof.
  induction k as [|k IH]; intros k' path n Hk Hk'.
  { pose proof (depth_pos n). lia. }
  destruct k' as [|k']; [pose proof (depth_pos n); lia|].
  destruct n as [c|es|]; [done| |done]. simpl.
  apply list_bind_ext; [|done]. intros name.
  destruct (entry_get name es) as [ch|] eqn:Hget; [|done].
  pose proof (depth_child _ _ _ Hget). apply IH; lia.
Qed.

Lemma walk_order_files_under k : ∀ path n f,
  f ∈ walk_order k path n → f ∈ files_under path n.
Proof.
  induction k as [|k IH]; intros path n f; simpl; [by intros ?%elem_of_nil|].
  destruct n as [c|es|]; [done| |done].
  rewrite files_under_Dir, !list_elem_of_bind. intros (name & Hf & _).
  destruct (entry_get name es) as [ch|] eqn:Hget; [|by apply elem_of_nil in Hf].
  exists (name, ch). split; [by apply IH|by apply entry_get_Some].
Qed.

Section order.
Context (root : string) (files : chan) (filters : list (string → bool)).

Lemma readable_add_sends s w : readable w → readable (add_sends files s w).
Proof. done. Qed.

(** The walk of [StreamFiles] over a tree it can read sends, in the order
    of the walk, what the files that pass emit. *)
Lemma walk_in_order fuel : ∀ path l n w,
  wf_node n = true →
  os.locate w path = Some l → tree_lookup l (disk w) = Found n →
  depth n ≤ fuel → chan_open w files → readable w →
  (∀ f, f ∈ walk_order fuel path n → fs.passes filters f = true →
        is_Some (emitted_path root f)) →
  filepath.walk fuel path (os.info_of n) (fs.stream root files filters) w
  = (Ret None, add_sends files (sent_for root filters (walk_order fuel path n)) w).
Proof.
  induction fuel as [|fuel IH]; intros path l n w Hwf Hloc Hn Hfuel Hopen Hread Hrange.
  { pose proof (depth_pos n). lia. }
  destruct n as [content|es|]; cbn [filepath.walk os.info_of IsDir negb walk_order].
  - rewrite stream_file by done. unfold sent_for. rewrite filter_cons, filter_nil.
    destruct (fs.passes filters path) eqn:Hpass.
    + rewrite decide_True by done. simpl.
      destruct (Hrange path) as [s Hs]; [by left|done|]. by rewrite Hs.
    + rewrite decide_False by done. simpl. by rewrite add_sends_nil.
  - rewrite bind_unfold, (readDirNames_dir w path l es) by done.
    destruct (Hread l) as [_ ->].
    rewrite bind_unfold, stream_directory.
    set (child := λ name, match entry_get name es with
                          | Some ch => walk_order fuel (filepath.Join [path; name]) ch
                          | None => []
                          end).
    assert (∀ names s0,
              names ⊆ map fst es →
              (∀ f, f ∈ names ≫= child → fs.passes filters f = true →
                    is_Some (emitted_path root f)) →
              filepath.walk_names
                (λ p i, filepath.walk fuel p i (fs.stream root files filters))
                (fs.stream root files filters) path names (add_sends files s0 w)
              = (Ret None,
                 add_sends files (s0 ++ sent_for root filters (names ≫= child)) w))
      as Hloop.
    { induction names as [|name names IHn]; intros s0 Hsub Hnames.
      { by rewrite app_nil_r. }
      assert (name ∈ map fst es) as Hname by (apply Hsub, list_elem_of_here).
      assert (names ⊆ map fst es) as Hsub'
        by (intros x Hx; apply Hsub; by apply list_elem_of_further).
      destruct (entry_get name es) as [ch|] eqn:Hget;
        [|by apply entry_get_None in Hget].
      destruct (wf_node_child _ _ _ Hwf Hget) as [Hvalid Hwfch].
      assert (child name = walk_order fuel (filepath.Join [path; name]) ch) as Hchild
        by (subst child; simpl; by rewrite Hget).
      change ((name :: names) ≫= child) with (child name ++ (names ≫= child)) in *.
      cbn [filepath.walk_names]. rewrite bind_unfold.
      rewrite (Lstat_child (add_sends files s0 w) path l es name) by done.
      rewrite Hget. cbn [faults add_sends set_chans].
      destruct (Hread (l ++ [name])) as [-> _].
      rewrite bind_unfold.
      rewrite (IH _ (l ++ [name]) ch (add_sends files s0 w)); try done.
      + rewrite add_sends_app, sent_for_app, app_assoc, Hchild.
        apply IHn; [done|]. intros f Hf. apply Hnames. apply elem_of_app. by right.
      + by apply locate_Join.
      + cbn [disk add_sends set_chans].
        by rewrite (tree_lookup_child _ _ _ _ Hn), Hget.
      + pose proof (depth_child _ _ _ Hget). lia.
      + by apply chan_open_add_sends.
      + intros f Hf. apply Hnames. apply elem_of_app. left. by rewrite Hchild. }
    rewrite <-(add_sends_nil files w) at 1 by done.
    rewrite Hloop; [done| |done].
    intros x. by rewrite merge_sort_Permutation.
  - rewrite stream_file by done. unfold sent_for. rewrite filter_cons, filter_nil.
    destruct (fs.passes filters path) eqn:Hpass.
    + rewrite decide_True by done. simpl.
      destruct (Hrange path) as [s Hs]; [by left|done|]. by rewrite Hs.
    + rewrite decide_False by done. simpl. by rewrite add_sends_nil.
Qed.

Lemma StreamFiles_in_order w T :
  wf_node (disk w) = true → chan_open w files → readable w →
  tree_at w root = Some T → strip_in_range root filters T →
  fs.StreamFiles root files filters w
  = (Ret None,
     finished files None (sent_for root filters (walk_order (depth T) root T)) w).
Proof.
  intros Hwf Hopen Hread Hat Hrange.
  rewrite (StreamFiles_exists root files filters w (Ret None)
             (sent_for root filters (walk_order (depth T) root T)));
    [done|done|by eapply tree_at_exists|].
  unfold tree_at in Hat.
  destruct (os.locate w root) as [l|] eqn:Hloc; [|done].
  destruct (tree_lookup l (disk w)) as [n| |] eqn:Hl; try done.
  injection Hat as ->.
  unfold filepath.Walk. rewrite bind_unfold.
  unfold os.Lstat, get, os.stat_of. rewrite Hloc, Hl.
  destruct (Hread l) as [-> _]. rewrite !bind_unfold.
  rewrite (walk_in_order (depth (disk w)) root l T w); try done.
  - rewrite (walk_order_fuel _ (depth T)); [done|by eapply depth_lookup|done].
  - by eapply wf_node_lookup.
  - by eapply depth_lookup.
  - intros f Hf%walk_order_files_under. by apply Hrange.
Qed.

End order.

(** X21: on a tree it can read, from a root passed cleaned, [StreamFiles]
    sends exactly the paths of the entries that are not directories and
    that pass the filters, each once, in the order of [filepath.Walk]: the
    entries of every directory by name. *)
Theorem StreamFiles_sends_in_the_order_of_the_walk w root files filters T :
  wf_node (disk w) = true → chan_open w files → readable w →
  filepath.Clean root = root → tree_at w root = Some T →
  fs.StreamFiles root files filters w
  = (Ret None,
     finished files None (sent_for root filters (walk_order (depth T) root T)) w).
Proof.
  intros Hwf Hopen Hread Hclean Hat. apply StreamFiles_in_order; try done.
  apply clean_root_in_range; [done|].
  unfold tree_at in Hat. destruct (os.locate w root) as [l|]; [|done].
  destruct (tree_lookup l (disk w)) eqn:Hl; try done.
  injection Hat as ->. by eapply wf_node_lookup.
Qed.

Lemma StreamFiles_sends_in_the_order_of_the_walk_witness :
  fs.StreamFiles "." out [fs.MarkdownOnly]
    (quiet (Dir [("b", Dir [("z.md", File []); ("a.md", File [])]);
                 ("c.md", File []); ("a.txt", File []); ("a.md", File [])]) [])
  = (Ret None,
     finished out None ["a.md"; "b/a.md"; "b/z.md"; "c.md"]
       (quiet (Dir [("b", Dir [("z.md", File []); ("a.md", File [])]);
                    ("c.md", File []); ("a.txt", File []); ("a.md", File [])]) [])).
Proof.
  apply (StreamFiles_sends_in_the_order_of_the_walk
           (quiet (Dir [("b", Dir [("z.md", File []); ("a.md", File [])]);
                        ("c.md", File []); ("a.txt", File []); ("a.md", File [])]) [])
           "." out [fs.MarkdownOnly]
           (Dir [("b", Dir [("z.md", File []); ("a.md", File [])]);
                 ("c.md", File []); ("a.txt", File []); ("a.md", File [])])).
  - reflexivity.
  - by exists [].
  - intros l. split; reflexivity.
  - reflexivity.
  - reflexivity.
Defined.

(** ** CreateProject and CreateTheme: what they leave alone *)

Lemma same_outside_preorder lp : PreOrder (same_outside lp).
Proof.
  split.
  - by intros w.
  - intros w1 w2 w3 [Hc1 H1] [Hc2 H2]. split; [congruence|].
    intros l0 ? ?. by rewrite H2, H1.
Qed.
#[global] Existing Instance same_outside_preorder.

Lemma same_outside_log lp c w : same_outside lp w (log_syscall c w).
Proof. done. Qed.

Lemma same_outside_locate lp w w' path :
  same_outside lp w w' → os.locate w' path = os.locate w path.
Proof. intros [Hc _]. unfold os.locate. by rewrite Hc. Qed.

Lemma tree_lookup_chain_elsewhere l : ∀ l0,
  ¬ l `prefix_of` l0 → ¬ l0 `prefix_of` l → tree_lookup l0 (chain l) = Missing.
Proof.
  induction l as [|name l IH]; intros l0 Hbelow Habove.
  { destruct Hbelow. apply prefix_nil. }
  destruct l0 as [|n0 l0]; [destruct Habove; apply prefix_nil|].
  simpl. destruct (String.eqb_spec name n0) as [->|?]; [|done].
  apply IH; intros ?; [apply Hbelow|apply Habove]; by apply prefix_cons.
Qed.

(** Creating the directory at [l] changes nothing at a location that is
    neither above [l] nor at or below it. *)
Lemma tree_mkdir_all_elsewhere l : ∀ d d' l0,
  tree_mkdir_all l d = Some d' →
  ¬ l `prefix_of` l0 → ¬ l0 `prefix_of` l →
  tree_lookup l0 d' = tree_lookup l0 d.
Proof.
  induction l as [|name l IH]; intros [c|es|] d' l0; simpl; try done.
  - by intros [= <-].
  - intros Hd Hbelow Habove.
    destruct l0 as [|n0 l0]; [destruct Habove; apply prefix_nil|].
    destruct (entry_get name es) as [ch|] eqn:Hget.
    + destruct (tree_mkdir_all l ch) as [ch'|] eqn:Hch; [|done].
      injection Hd as <-. simpl. rewrite entry_get_set.
      case_decide as Hn; [|done]. subst. rewrite Hget.
      eapply IH; [done| |]; intros ?; [apply Hbelow|apply Habove]; by apply prefix_cons.
    + injection Hd as <-. simpl. rewrite entry_get_set.
      case_decide as Hn; [|done]. subst. rewrite Hget.
      apply tree_lookup_chain_elsewhere; intros ?; [apply Hbelow|apply Habove];
        by apply prefix_cons.
Qed.

(** Writing the file at [l] changes nothing at a location that is neither
    above [l] nor at or below it. *)
Lemma tree_write_outside l data : ∀ d d' l0,
  tree_write l data d = inl d' →
  ¬ l `prefix_of` l0 → ¬ l0 `prefix_of` l →
  tree_lookup l0 d' = tree_lookup l0 d.
Proof.
  induction l as [|name l IH]; intros [c|es|] d' l0; simpl; try done.
  - intros _ Hbelow. destruct Hbelow. apply prefix_nil.
  - intros Hd Hbelow Habove.
    destruct l0 as [|n0 l0]; [destruct Habove; apply prefix_nil|].
    destruct (entry_get name es) as [ch|] eqn:Hget.
    + destruct (tree_write l data ch) as [ch'|] eqn:Hch; [|done].
      injection Hd as <-. simpl. rewrite entry_get_set.
      case_decide as Hn; [|done]. subst. rewrite Hget.
      eapply IH; [done| |]; intros ?; [apply Hbelow|apply Habove]; by apply prefix_cons.
    + destruct l; [|done]. injection Hd as <-. simpl. rewrite entry_get_set.
      case_decide as Hn; [|done]. subst.
      destruct Hbelow. by apply prefix_cons, prefix_nil.
Qed.

(** A location outside [lp] is outside everything below [lp]. *)
Lemma outside_below (lp l l0 : location) :
  lp `prefix_of` l → ¬ lp `prefix_of` l0 → ¬ l0 `prefix_of` lp →
  ¬ l `prefix_of` l0 ∧ ¬ l0 `prefix_of` l.
Proof.
  intros Hlp Hbelow Habove. split.
  - intros ?. apply Hbelow. by etrans.
  - intros Hl0. destruct (prefix_weak_total lp l0 l); tauto.
Qed.

Lemma MkdirAll_same_outside lp path l w r w' :
  os.locate w path = Some l → lp `prefix_of` l →
  os.MkdirAll path w = (r, w') → same_outside lp w w'.
Proof.
  intros Hloc Hlp. unfold os.MkdirAll.
  change (os.locate (log_syscall (SysMkdirAll path) w) path) with (os.locate w path).
  rewrite Hloc. cbn [disk faults log_syscall]. intros H.
  repeat case_match; injection H as <- <-; try apply same_outside_log.
  split; [done|]. intros lx ? ?. cbn [disk set_disk log_syscall].
  destruct (outside_below lp l lx) as [? ?]; try done.
  by eapply tree_mkdir_all_elsewhere.
Qed.

Lemma WriteFile_same_outside lp path data l w r w' :
  os.locate w path = Some l → lp `prefix_of` l →
  ioutil.WriteFile path data w = (r, w') → same_outside lp w w'.
Proof.
  intros Hloc Hlp. unfold ioutil.WriteFile.
  change (os.locate (log_syscall (SysWriteFile path data) w) path) with (os.locate w path).
  rewrite Hloc. cbn [disk faults log_syscall]. intros H.
  repeat case_match; injection H as <- <-; try apply same_outside_log.
  split; [done|]. intros lx ? ?. cbn [disk set_disk log_syscall].
  destruct (outside_below lp l lx) as [? ?]; try done.
  by eapply tree_write_outside.
Qed.

Lemma RemoveAll_same_outside path l w r w' :
  os.locate w path = Some l →
  os.RemoveAll path w = (r, w') → same_outside l w w'.
Proof.
  intros Hloc. unfold os.RemoveAll.
  change (os.locate (log_syscall (SysRemoveAll path) w) path) with (os.locate w path).
  rewrite Hloc. cbn [disk faults log_syscall]. intros H.
  repeat case_match; injection H as <- <-; try apply same_outside_log.
  split; [done|]. intros lx ? ?. cbn [disk set_disk log_syscall].
  match goal with |- tree_lookup _ ?t = _ =>
    match type of Hloc with _ = Some ?loc => change t with (tree_remove loc (disk w)) end
  end.
  by apply tree_remove_elsewhere.
Qed.

(** A loop preserves what each of its steps preserves. *)
Lemma for_each_preserves_in {A} (R : relation World) `{!PreOrder R}
    (f : A → M (option error)) xs w r w' :
  (∀ x, x ∈ xs → ∀ w r w', f x w = (r, w') → R w w') →
  core.for_each xs f w = (r, w') → R w w'.
Proof.
  revert w. induction xs as [|x xs IH]; intros w Hf; simpl.
  - by intros [= <- <-].
  - rewrite bind_unfold. destruct (f x w) as [[[e|]|msg|] wa] eqn:Hx;
      intros H; try (injection H as <- <-; eapply Hf; [by left|done]).
    etrans; [eapply Hf; [by left|done]|].
    eapply IH; [|done]. intros y Hy. apply Hf. by right.
Qed.

Section outside.
Context (cfg : Config) (range_order : list (string * list Byte.byte) → list (string * list Byte.byte)).
Context (Hcfg : valid_config cfg) (Hrange : visits_every_entry range_order).

(** A loop of [os.MkdirAll] over paths at or below [lp]. *)
Lemma for_each_MkdirAll_same_outside lp w0 paths w r w' :
  Forall (λ p, ∃ l, os.locate w0 p = Some l ∧ lp `prefix_of` l) paths →
  cwd w = cwd w0 →
  core.for_each paths os.MkdirAll w = (r, w') → same_outside lp w w'.
Proof.
  intros Hpaths Hcwd Hrun.
  apply (for_each_preserves_in (while (λ x, cwd x = cwd w0) (same_outside lp)))
    in Hrun; [by apply Hrun|].
  intros p Hp wa ra wb Hstep Hwa.
  rewrite Forall_forall in Hpaths. destruct (Hpaths p Hp) as (l & Hl & Hpre).
  assert (same_outside lp wa wb) as Hsame.
  { eapply (MkdirAll_same_outside lp p l); [|done..].
    unfold os.locate in *. by rewrite Hwa. }
  split; [done|]. destruct Hsame as [-> _]. done.
Qed.

(** [createFiles] over paths at or below [lp]. *)
Lemma createFiles_same_outside lp w0 files w r w' :
  (∀ p, is_Some (files !! p) → ∃ l, os.locate w0 p = Some l ∧ lp `prefix_of` l) →
  cwd w = cwd w0 →
  core.createFiles range_order files w = (r, w') → same_outside lp w w'.
Proof.
  intros Hpaths Hcwd Hrun. unfold core.createFiles in Hrun.
  apply (for_each_preserves_in (while (λ x, cwd x = cwd w0) (same_outside lp)))
    in Hrun; [by apply Hrun|].
  intros [p c] Hp%in_range_order wa ra wb Hstep Hwa; [|done].
  destruct (Hpaths p) as (l & Hl & Hpre); [done|].
  assert (same_outside lp wa wb) as Hsame.
  { eapply (WriteFile_same_outside lp p c l); [|done..].
    unfold os.locate in *. by rewrite Hwa. }
  split; [done|]. destruct Hsame as [-> _]. done.
Qed.

Lemma CreateProject_same_outside path options w lp r w' :
  path ≠ "." → os.locate w path = Some lp →
  core.CreateProject cfg range_order path options w = (r, w') →
  same_outside lp w w'.
Proof.
  intros Hdot%String.eqb_neq Hlp.
  unfold core.CreateProject, fs.IsSafeToRemove. rewrite !bind_unfold.
  cbn [afero.Stat afero.NewOsFs]. unfold os.Stat, get. cbn [mret M_ret].
  destruct (negb _); [by intros [= _ <-]|].
  rewrite Hdot. cbn [negb]. rewrite !bind_unfold.
  destruct (os.RemoveAll path w) as [r1 w1] eqn:Hremove.
  pose proof (RemoveAll_same_outside _ _ _ _ _ Hlp Hremove) as H1.
  destruct r1 as [[e|]|msg|]; try (by intros [= _ <-]).
  destruct (layout_locations cfg w path lp Hcfg Hlp) as (Hk1 & Hk2 & Hthemes).
  pose proof Hcfg as [Hnames _].
  assert (valid_name (ContentDir cfg) = true ∧ valid_name (DefaultTheme cfg) = true ∧
          valid_name (ListPageTpl cfg) = true ∧ valid_name (PageTpl cfg) = true)
    as (HCD & HDT & HLP & HPP) by (rewrite !Forall_cons in Hnames; tauto).
  destruct (Hthemes _ HDT) as (HT & HC & _ & Hin).
  destruct (Hin _ HLP) as (H3 & _ & _).
  destruct (Hin _ HPP) as (H4 & _ & _).
  destruct (Hin "style.css" eq_refl) as (_ & H5 & _).
  rewrite bind_unfold.
  destruct (core.for_each _ os.MkdirAll w1) as [r2 w2] eqn:Hdirs.
  assert (same_outside lp w1 w2) as H2.
  { eapply (for_each_MkdirAll_same_outside lp w); [|by destruct H1|exact Hdirs].
    repeat constructor; eexists; (split; [first [eassumption|by apply locate_Join]|]);
      by apply prefix_app_r. }
  destruct r2 as [[e|]|msg|]; try (intros [= _ <-]; by etrans).
  intros Hfiles. etrans; [exact H1|]. etrans; [exact H2|].
  eapply (createFiles_same_outside lp w); [|by destruct H1, H2; congruence|exact Hfiles].
  intros p [c Hp].
  repeat (apply lookup_insert_Some in Hp as [[<- _]|[_ Hp]]); try done;
    eexists; (split; [eassumption|]); by apply prefix_app_r.
Qed.

Lemma CreateTheme_same_outside project name w lp r w' :
  valid_name name = true → os.locate w project = Some lp →
  core.CreateTheme cfg range_order {| core.Project := project |} name w = (r, w') →
  same_outside lp w w'.
Proof.
  intros Hname Hlp.
  unfold core.CreateTheme. rewrite bind_unfold. cbn [core.Project].
  unfold os.Stat at 1, get at 1.
  destruct (os.IsNotExist _); [by intros [= _ <-]|].
  rewrite bind_unfold. unfold theme.Exists. rewrite bind_unfold. unfold os.Stat, get.
  cbn [mret M_ret].
  destruct (negb (os.IsNotExist _)); [by intros [= _ <-]|].
  rewrite bind_unfold.
  destruct (layout_locations cfg w project lp Hcfg Hlp) as (_ & _ & Hthemes).
  pose proof Hcfg as [Hnames _].
  assert (valid_name (JsDirName cfg) = true ∧
          valid_name (ListPageTpl cfg) = true ∧ valid_name (PageTpl cfg) = true)
    as (HJS & HLP & HPP) by (rewrite !Forall_cons in Hnames; tauto).
  destruct (Hthemes _ Hname) as (HT & HC & HD & Hin).
  destruct (Hin _ HLP) as (H3 & _ & _).
  destruct (Hin _ HPP) as (H4 & _ & _).
  destruct (Hin "theme.yml" eq_refl) as (_ & _ & H5).
  destruct (Hin _ HJS) as (_ & _ & HJ).
  destruct (core.for_each _ os.MkdirAll w) as [r2 w2] eqn:Hdirs.
  assert (same_outside lp w w2) as H2.
  { eapply (for_each_MkdirAll_same_outside lp w); [|done|exact Hdirs].
    repeat constructor; eexists; (split; [eassumption|]); by apply prefix_app_r. }
  destruct r2 as [[e|]|msg|]; try (by intros [= _ <-]).
  intros Hfiles. etrans; [exact H2|].
  eapply (createFiles_same_outside lp w); [|by destruct H2|exact Hfiles].
  intros p [c Hp].
  repeat (apply lookup_insert_Some in Hp as [[<- _]|[_ Hp]]); try done;
    eexists; (split; [eassumption|]); by apply prefix_app_r.
Qed.

End outside.

(** X22: however [CreateProject] ends on a path other than [.], what is
    neither below the project path nor above it is as before. *)
Theorem CreateProject_changes_nothing_outside cfg range_order path options w lp :
  valid_config cfg → visits_every_entry range_order →
  path ≠ "." → os.locate w path = Some lp →
  same_outside lp w (core.CreateProject cfg range_order path options w).2.
Proof.
  intros Hcfg Hrange Hdot Hlp.
  destruct (core.CreateProject cfg range_order path options w) as [r w'] eqn:Hrun.
  by eapply CreateProject_same_outside.
Qed.

Lemma CreateProject_changes_nothing_outside_witness :
  same_outside ["srv"; "site"; "posts"] site_world
    (core.CreateProject verless_config backwards "site/posts"
       {| core.Overwrite := true |} site_world).2.
Proof.
  apply CreateProject_changes_nothing_outside.
  - apply verless_config_valid.
  - intros kvs. symmetry. apply Permutation_rev.
  - done.
  - reflexivity.
Defined.

(** X23: however [CreateTheme] ends, what is neither below the project path
    nor above it is as before. *)
Theorem CreateTheme_changes_nothing_outside cfg range_order project name w lp :
  valid_config cfg → visits_every_entry range_order →
  valid_name name = true → os.locate w project = Some lp →
  same_outside lp w
    (core.CreateTheme cfg range_order {| core.Project := project |} name w).2.
Proof.
  intros Hcfg Hrange Hname Hlp.
  destruct (core.CreateTheme cfg range_order _ name w) as [r w'] eqn:Hrun.
  by eapply CreateTheme_same_outside.
Qed.

Lemma CreateTheme_changes_nothing_outside_witness :
  same_outside ["srv"; "site"] site_world
    (core.CreateTheme verless_config backwards {| core.Project := "site" |} "dark"
       site_world).2.
Proof.
  apply CreateTheme_changes_nothing_outside.
  - apply verless_config_valid.
  - intros kvs. symmetry. apply Permutation_rev.
  - done.
  - reflexivity.
Defined.

(** ** CreateProject: what it leaves of a previous project *)

Lemma tree_lookup_chain_found l : ∀ l0 n,
  tree_lookup l0 (chain l) = Found n → l0 `prefix_of` l.
Proof.
  induction l as [|name l IH]; intros [|n0 l0] n; simpl; try done.
  - intros _. apply prefix_nil.
  - destruct (String.eqb_spec name n0) as [->|?]; [|done].
    intros ?%IH. by apply prefix_cons.
Qed.

(** What is found after the directory at [l] was created was there
    before, or is on the way to [l]. *)
Lemma tree_mkdir_all_found l : ∀ d d' l0 n,
  tree_mkdir_all l d = Some d' → tree_lookup l0 d' = Found n →
  (∃ n0, tree_lookup l0 d = Found n0) ∨ l0 `prefix_of` l.
Proof.
  induction l as [|name l IH]; intros [c|es|] d' l0 n; simpl; try done.
  - intros [= <-]. eauto.
  - destruct l0 as [|n0 l0]; [intros _ _; right; apply prefix_nil|].
    destruct (entry_get name es) as [ch|] eqn:Hget.
    + destruct (tree_mkdir_all l ch) as [ch'|] eqn:Hch; [|done].
      intros [= <-]. simpl. rewrite entry_get_set.
      case_decide as Hn; [|eauto]. subst. rewrite Hget.
      intros [?|?]%(IH _ _ _ _ Hch); [by left|right; by apply prefix_cons].
    + intros [= <-]. simpl. rewrite entry_get_set.
      case_decide as Hn; [|eauto]. subst.
      intros ?%tree_lookup_chain_found. right. by apply prefix_cons.
Qed.

(** What is found after the file at [l] was written was there before, or
    is the file. *)
Lemma tree_write_found l data : ∀ d d' l0 n,
  tree_write l data d = inl d' → tree_lookup l0 d' = Found n →
  (∃ n0, tree_lookup l0 d = Found n0) ∨ l0 `prefix_of` l.
Proof.
  induction l as [|name l IH]; intros [c|es|] d' l0 n; simpl; try done.
  - intros [= <-]. destruct l0; [|done]. eauto.
  - destruct l0 as [|n0 l0]; [intros _ _; right; apply prefix_nil|].
    destruct (entry_get name es) as [ch|] eqn:Hget.
    + destruct (tree_write l data ch) as [ch'|] eqn:Hch; [|done].
      intros [= <-]. simpl. rewrite entry_get_set.
      case_decide as Hn; [|eauto]. subst. rewrite Hget.
      intros [?|?]%(IH _ _ _ _ Hch); [by left|right; by apply prefix_cons].
    + destruct l; [|done]. intros [= <-]. simpl. rewrite entry_get_set.
      case_decide as Hn; [|eauto]. subst.
      destruct l0; [|done]. intros _. right. done.
Qed.

Lemma MkdirAll_nothing_but lp ls path l w r w' :
  os.locate w path = Some l → l ∈ ls →
  os.MkdirAll path w = (r, w') → nothing_but lp ls w → nothing_but lp ls w'.
Proof.
  intros Hloc Hl. unfold os.MkdirAll.
  change (os.locate (log_syscall (SysMkdirAll path) w) path) with (os.locate w path).
  rewrite Hloc. cbn [disk faults log_syscall]. intros H Hw.
  repeat case_match; injection H as <- <-; try exact Hw.
  intros lx nx Hpre Hfound. cbn [disk set_disk log_syscall] in Hfound.
  edestruct tree_mkdir_all_found as [[n0 Hbefore]|?]; [eassumption..| |by eauto].
  by eapply Hw.
Qed.

Lemma WriteFile_nothing_but lp ls path data l w r w' :
  os.locate w path = Some l → l ∈ ls →
  ioutil.WriteFile path data w = (r, w') → nothing_but lp ls w → nothing_but lp ls w'.
Proof.
  intros Hloc Hl. unfold ioutil.WriteFile.
  change (os.locate (log_syscall (SysWriteFile path data) w) path) with (os.locate w path).
  rewrite Hloc. cbn [disk faults log_syscall]. intros H Hw.
  repeat case_match; injection H as <- <-; try exact Hw.
  intros lx nx Hpre Hfound. cbn [disk set_disk log_syscall] in Hfound.
  edestruct tree_write_found as [[n0 Hbefore]|?]; [eassumption..| |by eauto].
  by eapply Hw.
Qed.

Lemma tree_remove_nothing_below l d n rest :
  l ≠ [] → tree_lookup l d = Found n →
  tree_lookup (l ++ rest) (tree_remove l d) = Missing.
Proof.
  destruct l as [|x l0] using rev_ind; [done|]. clear IHl0. intros _.
  rewrite tree_lookup_app.
  destruct (tree_lookup l0 d) as [[c|es|]| |] eqn:Hparent; try done.
  intros _. rewrite <-app_assoc. by eapply tree_remove_below.
Qed.

(** After a [RemoveAll] that returned nil nothing is left at the path or
    below it. *)
Lemma RemoveAll_nothing_left path lp w w' :
  os.locate w path = Some lp →
  os.RemoveAll path w = (Ret None, w') → nothing_but lp [] w'.
Proof.
  intros Hloc. unfold os.RemoveAll.
  change (os.locate (log_syscall (SysRemoveAll path) w) path) with (os.locate w path).
  rewrite Hloc. cbn [disk faults log_syscall].
  destruct (String.eqb_spec path "") as [->|_]; [done|].
  destruct (os.endsWithDot path); [done|].
  destruct (tree_lookup lp (disk w)) as [n| |] eqn:Hl; [| |done].
  - destruct (decide (lp = [])) as [->|Hne]; [done|].
    assert (match lp with
            | [] => (Ret (Some (PathError "unlinkat" path EBUSY)),
                     log_syscall (SysRemoveAll path) w)
            | _ :: _ =>
                match faults w ReqRemove lp with
                | Some f => (Ret (Some (PathError "unlinkat" path (Failure f))),
                             log_syscall (SysRemoveAll path) w)
                | None => (Ret None, set_disk (tree_remove lp (disk w))
                                       (log_syscall (SysRemoveAll path) w))
                end
            end =
            match faults w ReqRemove lp with
            | Some f => (Ret (Some (PathError "unlinkat" path (Failure f))),
                         log_syscall (SysRemoveAll path) w)
            | None => (Ret None, set_disk (tree_remove lp (disk w))
                                   (log_syscall (SysRemoveAll path) w))
            end) as -> by (by destruct lp).
    destruct (faults w ReqRemove lp); [done|]. intros [= <-].
    intros l0 n0 [rest ->]. cbn [disk set_disk log_syscall].
    by rewrite (tree_remove_nothing_below lp (disk w) n rest).
  - intros [= <-] l0 n0 [rest ->]. cbn [disk log_syscall].
    by rewrite tree_lookup_app, Hl.
Qed.

Lemma nothing_but_more lp ls ls' w :
  ls ⊆ ls' → nothing_but lp ls w → nothing_but lp ls' w.
Proof.
  intros Hsub Hw l0 n Hpre Hfound. destruct (Hw l0 n Hpre Hfound) as (l & ? & ?).
  exists l. split; [by apply Hsub|done].
Qed.

Section replaced.
Context (cfg : Config) (range_order : list (string * list Byte.byte) → list (string * list Byte.byte)).
Context (Hcfg : valid_config cfg) (Hrange : visits_every_entry range_order).

Lemma for_each_MkdirAll_nothing_but lp ls w0 paths w r w' :
  Forall (λ p, ∃ l, os.locate w0 p = Some l ∧ l ∈ ls) paths →
  cwd w = cwd w0 →
  core.for_each paths os.MkdirAll w = (r, w') →
  nothing_but lp ls w → cwd w' = cwd w0 ∧ nothing_but lp ls w'.
Proof.
  intros Hpaths Hcwd Hrun Hw.
  apply (for_each_preserves_in
           (while (λ x, cwd x = cwd w0 ∧ nothing_but lp ls x) entries_stay))
    in Hrun; [by apply Hrun|].
  intros p Hp wa ra wb Hstep [Hwa Hnb].
  rewrite Forall_forall in Hpaths. destruct (Hpaths p Hp) as (l & Hl & Hin).
  assert (os.locate wa p = Some l) as Hl' by (unfold os.locate in *; by rewrite Hwa).
  pose proof (MkdirAll_entries_stay _ _ _ _ Hstep) as Hstay.
  split; [done|]. split.
  - destruct Hstay as [-> _]. done.
  - by eapply MkdirAll_nothing_but.
Qed.

Lemma createFiles_nothing_but lp ls w0 files w r w' :
  (∀ p, is_Some (files !! p) → ∃ l, os.locate w0 p = Some l ∧ l ∈ ls) →
  cwd w = cwd w0 →
  core.createFiles range_order files w = (r, w') →
  nothing_but lp ls w → nothing_but lp ls w'.
Proof.
  intros Hpaths Hcwd Hrun Hw. unfold core.createFiles in Hrun.
  apply (for_each_preserves_in
           (while (λ x, cwd x = cwd w0 ∧ nothing_but lp ls x) entries_stay))
    in Hrun; [by apply Hrun|].
  intros [p c] Hp%in_range_order wa ra wb Hstep [Hwa Hnb]; [|done].
  destruct (Hpaths p) as (l & Hl & Hin); [done|].
  assert (os.locate wa p = Some l) as Hl' by (unfold os.locate in *; by rewrite Hwa).
  pose proof (WriteFile_entries_stay _ _ _ _ _ Hstep) as Hstay.
  split; [done|]. split.
  - destruct Hstay as [-> _]. done.
  - by eapply WriteFile_nothing_but.
Qed.

(** The directories and the files of [CreateProject], made where nothing
    but the layout is. *)
Lemma layout_nothing_but path lp w1 w2 w' :
  os.locate w1 path = Some lp →
  nothing_but lp (project_layout cfg lp) w1 →
  core.for_each [filepath.Join [path; ContentDir cfg];
                 theme.TemplateDir cfg path (DefaultTheme cfg);
                 theme.CssDir cfg path (DefaultTheme cfg)] os.MkdirAll w1
  = (Ret None, w2) →
  core.createFiles range_order
    (<[filepath.Join [theme.CssDir cfg path (DefaultTheme cfg); "style.css"] := defaultCss cfg]> (
     <[filepath.Join [theme.TemplateDir cfg path (DefaultTheme cfg); PageTpl cfg] := []]> (
     <[filepath.Join [theme.TemplateDir cfg path (DefaultTheme cfg); ListPageTpl cfg] := defaultTpl cfg]> (
     <[filepath.Join [path; ".gitignore"] := defaultGitignore cfg]> (
     <[filepath.Join [path; "verless.yml"] := defaultConfig cfg]> ∅))))) w2
  = (Ret None, w') →
  nothing_but lp (project_layout cfg lp) w'.
Proof.
  intros Hlp H1 Hdirs Hfiles.
  destruct (layout_locations cfg w1 path lp Hcfg Hlp) as (Hk1 & Hk2 & Hthemes).
  pose proof Hcfg as [Hnames _].
  assert (valid_name (ContentDir cfg) = true ∧ valid_name (DefaultTheme cfg) = true ∧
          valid_name (ListPageTpl cfg) = true ∧ valid_name (PageTpl cfg) = true)
    as (HCD & HDT & HLP & HPP) by (rewrite !Forall_cons in Hnames; tauto).
  destruct (Hthemes _ HDT) as (HT & HC & _ & Hin).
  destruct (Hin _ HLP) as (H3 & _ & _).
  destruct (Hin _ HPP) as (H4 & _ & _).
  destruct (Hin "style.css" eq_refl) as (_ & H5 & _).
  assert (cwd w2 = cwd w1 ∧ nothing_but lp (project_layout cfg lp) w2) as [Hcwd2 H2].
  { eapply (for_each_MkdirAll_nothing_but lp _ w1); [|done|exact Hdirs|exact H1].
    repeat constructor; eexists;
      (split; [first [eassumption|by apply locate_Join]|]);
      unfold project_layout;
      repeat first [apply list_elem_of_here|apply list_elem_of_further]. }
  eapply (createFiles_nothing_but lp _ w1);
    [|exact Hcwd2|exact Hfiles|exact H2].
  intros p [c Hp].
  repeat (apply lookup_insert_Some in Hp as [[<- _]|[_ Hp]]); try done;
    eexists; (split; [eassumption|]); unfold project_layout;
      repeat first [apply list_elem_of_here|apply list_elem_of_further].
Qed.

(** What [CreateProject] has removed when it returns without error. *)
Lemma CreateProject_cleaned path options w w' :
  core.CreateProject cfg range_order path options w = (Ret None, w') →
  ∃ w1 w2,
    (if String.eqb path "." then filepath.Walk path core.cleanup w
     else os.RemoveAll path w) = (Ret None, w1) ∧
    core.for_each [filepath.Join [path; ContentDir cfg];
                   theme.TemplateDir cfg path (DefaultTheme cfg);
                   theme.CssDir cfg path (DefaultTheme cfg)] os.MkdirAll w1
    = (Ret None, w2) ∧
    core.createFiles range_order
      (<[filepath.Join [theme.CssDir cfg path (DefaultTheme cfg); "style.css"] := defaultCss cfg]> (
       <[filepath.Join [theme.TemplateDir cfg path (DefaultTheme cfg); PageTpl cfg] := []]> (
       <[filepath.Join [theme.TemplateDir cfg path (DefaultTheme cfg); ListPageTpl cfg] := defaultTpl cfg]> (
       <[filepath.Join [path; ".gitignore"] := defaultGitignore cfg]> (
       <[filepath.Join [path; "verless.yml"] := defaultConfig cfg]> ∅))))) w2
    = (Ret None, w').
Proof.
  unfold core.CreateProject, fs.IsSafeToRemove. rewrite !bind_unfold.
  cbn [afero.Stat afero.NewOsFs]. unfold os.Stat, get. cbn [mret M_ret].
  destruct (negb _); [done|].
  destruct (String.eqb path "."); cbn [negb]; rewrite !bind_unfold.
  - destruct (filepath.Walk path core.cleanup w) as [[[e|]|msg|] w1]; try done.
    cbn [mret M_ret]. rewrite bind_unfold.
    destruct (core.for_each _ os.MkdirAll w1) as [[[e|]|msg|] w2] eqn:Hdirs; try done.
    intros Hfiles. by exists w1, w2.
  - destruct (os.RemoveAll path w) as [[[e|]|msg|] w1]; try done.
    rewrite bind_unfold.
    destruct (core.for_each _ os.MkdirAll w1) as [[[e|]|msg|] w2] eqn:Hdirs; try done.
    intros Hfiles. by exists w1, w2.
Qed.

Lemma CreateProject_nothing_but path options w lp w' :
  path ≠ "." → os.locate w path = Some lp →
  core.CreateProject cfg range_order path options w = (Ret None, w') →
  nothing_but lp (project_layout cfg lp) w'.
Proof.
  intros Hdot%String.eqb_neq Hlp (w1 & w2 & Hclean & Hdirs & Hfiles)%CreateProject_cleaned.
  rewrite Hdot in Hclean.
  pose proof (RemoveAll_same_outside _ _ _ _ _ Hlp Hclean) as [Hcwd1 _].
  eapply (layout_nothing_but path lp w1 w2 w'); [| |exact Hdirs|exact Hfiles].
  - unfold os.locate in *. by rewrite Hcwd1.
  - eapply nothing_but_more; [|by eapply RemoveAll_nothing_left].
    by intros ? ?%elem_of_nil.
Qed.

Lemma CreateProject_current_nothing_but options w es w' :
  wf_node (disk w) = true → readable w → tree_at w "." = Some (Dir es) →
  core.CreateProject cfg range_order "." options w = (Ret None, w') →
  nothing_but (cwd w) (project_layout cfg (cwd w)) w'.
Proof.
  intros Hwf Hread Hat (w1 & w2 & Hclean & Hdirs & Hfiles)%CreateProject_cleaned.
  cbn [String.eqb Ascii.eqb Bool.eqb] in Hclean.
  pose proof (tree_at_dot _ _ Hat) as Hcwd.
  pose proof (wf_node_lookup _ _ _ Hwf Hcwd) as (Hvalid & Hnd & _)%wf_node_Dir.
  rewrite (Walk_cleanup w es) in Hclean by done. unfold iterative_cleanup in Hclean.
  destruct (iterative_cleanup_success es (merge_sort filepath.string_le (map fst es))
              es w w1) as (Hcwd1 & es' & Hes' & Hget'); try done.
  { rewrite merge_sort_Permutation. done. }
  { rewrite merge_sort_Permutation. apply Forall_forall. intros n Hn.
    rewrite Forall_forall in Hvalid. split_and!; [by apply Hvalid| |done].
    destruct (entry_get n es) eqn:Hget; [done|]. by apply entry_get_None in Hget. }
  assert (es' = []) as ->.
  { apply entries_none. intros n. rewrite Hget'. case_decide as Hn; [done|].
    rewrite merge_sort_Permutation in Hn.
    destruct (entry_get n es) as [ch|] eqn:Hget; [|done].
    destruct Hn. apply entry_get_Some in Hget. apply list_elem_of_fmap. by exists (n, ch). }
  eapply (layout_nothing_but "." (cwd w) w1 w2 w'); [| |exact Hdirs|exact Hfiles].
  - by rewrite locate_dot, Hcwd1.
  - intros l0 n [rest ->]. rewrite tree_lookup_app, Hes'.
    destruct rest as [|x rest]; [|done]. intros _.
    exists (cwd w ++ [ContentDir cfg]). split; [by left|].
    rewrite app_nil_r. by apply prefix_app_r.
Qed.

End replaced.

(** X24: when [CreateProject] returns nil on a cleaned path that ends in
    the name of the project (so not on [.], [..] or [/]), nothing of a
    previous project is left: whatever is at or below the project path is
    one of the directories and files of the layout, or lies on the way to
    one. *)
Theorem CreateProject_leaves_nothing_but_the_layout cfg range_order path options w lp w' :
  valid_config cfg → visits_every_entry range_order →
  names_an_entry path → os.locate w path = Some lp →
  core.CreateProject cfg range_order path options w = (Ret None, w') →
  nothing_but lp (project_layout cfg lp) w'.
Proof.
  intros Hcfg Hrange [_ Hbase]. apply CreateProject_nothing_but; try done.
  by intros ->.
Qed.

Lemma CreateProject_leaves_nothing_but_the_layout_witness :
  nothing_but ["srv"; "site"] (project_layout verless_config ["srv"; "site"])
    (core.CreateProject verless_config backwards "site"
       {| core.Overwrite := true |} site_world).2.
Proof.
  apply (CreateProject_leaves_nothing_but_the_layout verless_config backwards "site"
           {| core.Overwrite := true |} site_world).
  - apply verless_config_valid.
  - intros kvs. symmetry. apply Permutation_rev.
  - by split.
  - reflexivity.
  - by vm_compute.
Defined.

(** X25: when [CreateProject] returns nil on [.], in a current directory it
    can read, nothing of what was there is left: whatever is at or below
    the current directory is one of the directories and files of the
    layout, or lies on the way to one. *)
Theorem CreateProject_in_the_current_directory_leaves_nothing_but_the_layout
    cfg range_order options w es w' :
  valid_config cfg → visits_every_entry range_order →
  wf_node (disk w) = true → readable w → tree_at w "." = Some (Dir es) →
  core.CreateProject cfg range_order "." options w = (Ret None, w') →
  nothing_but (cwd w) (project_layout cfg (cwd w)) w'.
Proof. intros Hcfg Hrange. by apply CreateProject_current_nothing_but. Qed.

Lemma CreateProject_in_the_current_directory_leaves_nothing_but_the_layout_witness :
  nothing_but ["srv"] (project_layout verless_config ["srv"])
    (core.CreateProject verless_config backwards "." {| core.Overwrite := true |}
       site_world).2.
Proof.
  apply (CreateProject_in_the_current_directory_leaves_nothing_but_the_layout
           verless_config backwards {| core.Overwrite := true |} site_world
           [("site", Dir [("about.md", File []); ("posts", Dir [("one.md", File [])])])]).
  - apply verless_config_valid.
  - intros kvs. symmetry. apply Permutation_rev.
  - reflexivity.
  - intros l. split; reflexivity.
  - reflexivity.
  - by vm_compute.
Defined.

(** ** StreamFiles: adding filters *)

Lemma passes_app filters more file :
  fs.passes (filters ++ more) file = fs.passes filters file && fs.passes more file.
Proof.
  induction filters as [|flt filters IH]; simpl; [done|].
  by destruct (flt file).
Qed.

Lemma sent_for_more root filters more fs :
  sent_for root (filters ++ more) fs `sublist_of` sent_for root filters fs.
Proof.
  unfold sent_for. induction fs as [|f fs IH]; [done|].
  rewrite !filter_cons.
  destruct (decide (fs.passes filters f = true)) as [Hp|Hp];
    destruct (decide (fs.passes (filters ++ more) f = true)) as [Hq|Hq]; simpl.
  - destruct (emitted_path root f); [by constructor|done].
  - destruct (emitted_path root f); [by constructor|done].
  - rewrite passes_app in Hq. by apply andb_true_iff in Hq as [? _].
  - done.
Qed.

(** X26: with more filters [StreamFiles] sends no more: on a tree it can
    read, below a cleaned root, what is sent with the filters
    [filters ++ more] is what is sent with [filters] with some paths left
    out, the others in the same order. *)
Theorem more_filters_send_no_more w root files filters more T :
  wf_node (disk w) = true → chan_open w files → readable w →
  tree_at w root = Some T → filepath.Clean root = root →
  ∃ sent sent',
    fs.StreamFiles root files filters w = (Ret None, finished files None sent w) ∧
    fs.StreamFiles root files (filters ++ more) w
    = (Ret None, finished files None sent' w) ∧
    sent' `sublist_of` sent.
Proof.
  intros Hwf Hopen Hread Hat Hclean.
  assert (wf_node T = true) as HwfT.
  { unfold tree_at in Hat. destruct (os.locate w root) as [l|]; [|done].
    destruct (tree_lookup l (disk w)) eqn:Hl; try done.
    injection Hat as ->. by eapply wf_node_lookup. }
  eexists _, _. split_and!.
  - apply StreamFiles_in_order; try done. by apply clean_root_in_range.
  - apply StreamFiles_in_order; try done. by apply clean_root_in_range.
  - apply sent_for_more.
Qed.

Lemma more_filters_send_no_more_witness :
  ∃ sent sent',
    fs.StreamFiles "." out [fs.MarkdownOnly] notes_world
    = (Ret None, finished out None sent notes_world) ∧
    fs.StreamFiles "." out ([fs.MarkdownOnly] ++ [fs.NoUnderscores]) notes_world
    = (Ret None, finished out None sent' notes_world) ∧
    sent' `sublist_of` sent.
Proof.
  apply (more_filters_send_no_more notes_world "." out [fs.MarkdownOnly]
           [fs.NoUnderscores]
           (Dir [("notes.md", File []); ("_draft.md", File []); ("image.png", File [])])).
  - reflexivity.
  - by exists [].
  - intros l. split; reflexivity.
  - reflexivity.
  - reflexivity.
Defined.
